(** * Spatial hash grid and cylinder-vs-box collision resolution

    A shallow embedding of [SpatialHashGrid] (spatial-hash-grid.js) and of
    [CollisionSystem] (collision-system.js), together with the part of the
    first-person controller that calls [checkCollisions].

    Conventions of the embedding:
    - a JavaScript number is a real number ([R]); rounding of IEEE doubles,
      NaN and the infinities are outside the model.  Cell coordinates and
      indices, which the code obtains with [Math.floor]/[Math.ceil], are
      integers ([Z]);
    - an object with identity (a mesh, a [THREE.Vector3] handed around by
      reference, the grid attached to the collision system) is a location
      in a store; a [Set] is the list of its members in insertion order;
      a [Map] is a finite map;
    - a method that can throw returns [None] where JavaScript throws;
    - the operations of three.js that the code calls ([clone],
      [multiplyScalar], [sub], [add], [distanceTo], [normalize]) are given
      their documented mathematical meaning. *)

From Stdlib Require Import Reals Lra Lia ZArith.
From stdpp Require Import base decidable option list gmap strings.

#[local] Open Scope R_scope.

(** ** Numbers *)

Definition Rltb (a b : R) : bool := if Rlt_dec a b then true else false.
Definition Reqb (a b : R) : bool := if Req_dec_T a b then true else false.

(** ** three.js vectors *)

Record Vector3 := mkVector3 { vx : R; vy : R; vz : R }.
Record Vector2 := mkVector2 { px : R; py : R }.

Module V3.
Definition clone (v : Vector3) : Vector3 := mkVector3 (vx v) (vy v) (vz v).
Definition multiplyScalar (v : Vector3) (k : R) : Vector3 :=
  mkVector3 (vx v * k) (vy v * k) (vz v * k).
Definition sub (a b : Vector3) : Vector3 :=
  mkVector3 (vx a - vx b) (vy a - vy b) (vz a - vz b).
Definition add (a b : Vector3) : Vector3 :=
  mkVector3 (vx a + vx b) (vy a + vy b) (vz a + vz b).
Definition setX (v : Vector3) (x : R) : Vector3 := mkVector3 x (vy v) (vz v).
Definition setY (v : Vector3) (y : R) : Vector3 := mkVector3 (vx v) y (vz v).
Definition setZ (v : Vector3) (z : R) : Vector3 := mkVector3 (vx v) (vy v) z.
End V3.

Module V2.
Definition length (v : Vector2) : R := sqrt (px v * px v + py v * py v).
Definition distanceTo (a b : Vector2) : R :=
  sqrt ((px a - px b) * (px a - px b) + (py a - py b) * (py a - py b)).
(** [normalize] is [divideScalar(length() || 1)]: the zero vector stays. *)
Definition normalize (v : Vector2) : Vector2 :=
  let l := if Reqb (length v) 0 then 1 else length v in
  mkVector2 (px v / l) (py v / l).
End V2.

(** ** Sets of objects, in insertion order *)

(** A mesh, as far as the grid and the collision system are concerned, is
    its identity. *)
Abbreviation obj := positive.

Definition SetAdd (x : obj) (s : list obj) : list obj :=
  if decide (x ∈ s) then s else s ++ [x].

Definition SetDelete (x : obj) (s : list obj) : list obj :=
  filter (λ y, y ≠ x) s.

(** ** SpatialHashGrid *)

Record SpatialHashGrid := mkGrid {
  cellSize : R;
  worldSizeX : R;
  worldSizeZ : R;
  numCellsX : Z;
  numCellsZ : Z;
  cells : list (list obj);
  objectCells : gmap obj Z
}.

Definition withCells (g : SpatialHashGrid) (cs : list (list obj))
    (oc : gmap obj Z) : SpatialHashGrid :=
  mkGrid (cellSize g) (worldSizeX g) (worldSizeZ g)
         (numCellsX g) (numCellsZ g) cs oc.

(** [this.cells[i]]: [undefined] for an index outside the array. *)
Definition cellAt (cs : list (list obj)) (i : Z) : option (list obj) :=
  if decide (0 ≤ i)%Z then cs !! Z.to_nat i else None.

(** The constructor.  [new Array(n)] throws a RangeError unless [n] is a
    non-negative integer of at most 2^32 - 1; with [cellSize = 0] the
    quotient is infinite or NaN and the constructor throws as well. *)
Definition SpatialHashGrid_new (cellSize worldSizeX worldSizeZ : R)
    : option SpatialHashGrid :=
  if Reqb cellSize 0 then None else
  let numCellsX := Zceil (worldSizeX / cellSize) in
  let numCellsZ := Zceil (worldSizeZ / cellSize) in
  if decide (0 ≤ numCellsX * numCellsZ ≤ 4294967295)%Z then
    Some (mkGrid cellSize worldSizeX worldSizeZ numCellsX numCellsZ
                 (replicate (Z.to_nat (numCellsX * numCellsZ)) []) ∅)
  else None.

Definition getCellIndex (g : SpatialHashGrid) (x z : R) : Z :=
  let cellX := Zfloor (Rmax 0 (Rmin x (worldSizeX g - 0.001)) / cellSize g) in
  let cellZ := Zfloor (Rmax 0 (Rmin z (worldSizeZ g - 0.001)) / cellSize g) in
  (cellX + cellZ * numCellsX g)%Z.

(** [this.cells[cellIndex].add(object)] is a TypeError when the index is
    outside the array: nothing has been written at that point. *)
Definition insertObject (g : SpatialHashGrid) (object : obj)
    (position : Vector3) : option SpatialHashGrid :=
  let cellIndex := getCellIndex g (vx position) (vz position) in
  cell ← cellAt (cells g) cellIndex;
  Some (withCells g (<[Z.to_nat cellIndex := SetAdd object cell]> (cells g))
                    (<[object := cellIndex]> (objectCells g))).

Definition removeObject (g : SpatialHashGrid) (object : obj)
    : option SpatialHashGrid :=
  match objectCells g !! object with
  | Some cellIndex =>
      cell ← cellAt (cells g) cellIndex;
      Some (withCells g
              (<[Z.to_nat cellIndex := SetDelete object cell]> (cells g))
              (delete object (objectCells g)))
  | None => Some g
  end.

Definition updateObject (g : SpatialHashGrid) (object : obj)
    (position : Vector3) : option SpatialHashGrid :=
  g' ← removeObject g object;
  insertObject g' object position.

(** The body of the innermost loop: [for (const obj of cell) nearby.add(obj)]. *)
Definition addAll (nearby cell : list obj) : list obj :=
  fold_left (λ acc o, SetAdd o acc) cell nearby.

Definition findNearbyObjects (g : SpatialHashGrid) (position : Vector3)
    (radius : R) : list obj :=
  let minCellX := Zfloor (Rmax 0 (vx position - radius) / cellSize g) in
  let maxCellX :=
    Zfloor (Rmin (worldSizeX g - 0.001) (vx position + radius) / cellSize g) in
  let minCellZ := Zfloor (Rmax 0 (vz position - radius) / cellSize g) in
  let maxCellZ :=
    Zfloor (Rmin (worldSizeZ g - 0.001) (vz position + radius) / cellSize g) in
  fold_left (λ nearby z,
    fold_left (λ nearby x,
      let cellIndex := (x + z * numCellsX g)%Z in
      match cellAt (cells g) cellIndex with
      | Some cell => addAll nearby cell
      | None => nearby
      end) (seqZ minCellX (maxCellX - minCellX + 1)) nearby)
    (seqZ minCellZ (maxCellZ - minCellZ + 1)) [].

Definition SpatialHashGrid_clear (g : SpatialHashGrid) : SpatialHashGrid :=
  withCells g (map (λ _, []) (cells g)) ∅.

(** Sequences of grid mutations. *)
Inductive GridOp :=
| Insert (object : obj) (position : Vector3)
| Update (object : obj) (position : Vector3)
| Remove (object : obj).

Definition applyOp (g : SpatialHashGrid) (op : GridOp) : option SpatialHashGrid :=
  match op with
  | Insert o p => insertObject g o p
  | Update o p => updateObject g o p
  | Remove o => removeObject g o
  end.

Fixpoint applyOps (g : SpatialHashGrid) (ops : list GridOp)
    : option SpatialHashGrid :=
  match ops with
  | [] => Some g
  | op :: rest => g' ← applyOp g op; applyOps g' rest
  end.

(** ** The store: objects handed around by reference *)

Abbreviation loc := positive.

Record Store := mkStore {
  vectors : gmap loc Vector3;
  grids : gmap loc SpatialHashGrid
}.

(** [new THREE.Vector3(...)] and [v.clone()]: a new object. *)
Definition alloc (st : Store) (v : Vector3) : loc * Store :=
  let l := fresh (dom (vectors st)) in
  (l, mkStore (<[l := v]> (vectors st)) (grids st)).

(** Writing the fields of an existing vector. *)
Definition storeVector (st : Store) (l : loc) (v : Vector3) : Store :=
  mkStore (<[l := v]> (vectors st)) (grids st).

(** ** CollisionSystem *)

Record PlayerCollider := mkPlayerCollider {
  pcPosition : Vector3;
  pcRadius : R;
  pcHeight : R
}.

Record WallCollider := mkWallCollider {
  position : Vector3;
  size : Vector3;
  mesh : obj
}.

Record CollisionSystem := mkCollisionSystem {
  colliders : list WallCollider;
  playerCollider : option PlayerCollider;
  playerRadius : R;
  playerHeight : R;
  spatialGrid : option loc;
  maxCheckDistance : R;
  activeColliders : list WallCollider;
  lastFrameCollisionChecks : Z;
  totalCollisionChecks : Z
}.

(** The constructor; [debug] is [false], so the debug helpers are left out. *)
Definition CollisionSystem_new : CollisionSystem :=
  mkCollisionSystem [] None 0.5 1.8 None 5 [] 0 0.

Definition createPlayerCollider (s : CollisionSystem) (position : Vector3)
    : CollisionSystem :=
  mkCollisionSystem (colliders s)
    (Some (mkPlayerCollider (V3.clone position) (playerRadius s) (playerHeight s)))
    (playerRadius s) (playerHeight s) (spatialGrid s) (maxCheckDistance s)
    (activeColliders s) (lastFrameCollisionChecks s) (totalCollisionChecks s).

(** [meshPosition] is [mesh.position] and [boxSize] what
    [Box3.setFromObject(mesh).getSize] computes. *)
Definition addWallCollider (s : CollisionSystem) (mesh : obj)
    (meshPosition boxSize : Vector3) : CollisionSystem :=
  mkCollisionSystem
    (colliders s ++ [mkWallCollider (V3.clone meshPosition) boxSize mesh])
    (playerCollider s) (playerRadius s) (playerHeight s) (spatialGrid s)
    (maxCheckDistance s) (activeColliders s) (lastFrameCollisionChecks s)
    (totalCollisionChecks s).

Definition updatePlayerPosition (s : CollisionSystem) (position : Vector3)
    : CollisionSystem :=
  match playerCollider s with
  | None => s
  | Some pc =>
      mkCollisionSystem (colliders s)
        (Some (mkPlayerCollider position (pcRadius pc) (pcHeight pc)))
        (playerRadius s) (playerHeight s) (spatialGrid s) (maxCheckDistance s)
        (activeColliders s) (lastFrameCollisionChecks s)
        (totalCollisionChecks s)
  end.

Definition setSpatialGrid (s : CollisionSystem) (grid : loc) : CollisionSystem :=
  mkCollisionSystem (colliders s) (playerCollider s) (playerRadius s)
    (playerHeight s) (Some grid) (maxCheckDistance s) (activeColliders s)
    (lastFrameCollisionChecks s) (totalCollisionChecks s).

Definition clear (s : CollisionSystem) : CollisionSystem :=
  mkCollisionSystem [] None (playerRadius s) (playerHeight s) (spatialGrid s)
    (maxCheckDistance s) (activeColliders s) (lastFrameCollisionChecks s)
    (totalCollisionChecks s).

(** Field updates made by [checkCollisions]. *)
Definition resetFrameChecks (s : CollisionSystem) : CollisionSystem :=
  mkCollisionSystem (colliders s) (playerCollider s) (playerRadius s)
    (playerHeight s) (spatialGrid s) (maxCheckDistance s) (activeColliders s)
    0 (totalCollisionChecks s).

Definition setActiveColliders (s : CollisionSystem) (a : list WallCollider)
    : CollisionSystem :=
  mkCollisionSystem (colliders s) (playerCollider s) (playerRadius s)
    (playerHeight s) (spatialGrid s) (maxCheckDistance s) a
    (lastFrameCollisionChecks s) (totalCollisionChecks s).

Definition countCheck (s : CollisionSystem) : CollisionSystem :=
  mkCollisionSystem (colliders s) (playerCollider s) (playerRadius s)
    (playerHeight s) (spatialGrid s) (maxCheckDistance s) (activeColliders s)
    (lastFrameCollisionChecks s + 1) (totalCollisionChecks s + 1).

(** [this.activeColliders.add(matchingCollider)].  Every collider added is
    the first one of [this.colliders] with a given mesh, so two of them are
    the same object exactly when their meshes are. *)
Definition activeAdd (c : WallCollider) (s : list WallCollider)
    : list WallCollider :=
  if decide (mesh c ∈ mesh <$> s) then s else s ++ [c].

(** The loop over [nearbyObjects], starting from the cleared set. *)
Definition collectActive (colliders : list WallCollider) (nearby : list obj)
    : list WallCollider :=
  fold_left (λ active o,
    match find (λ c, bool_decide (mesh c = o)) colliders with
    | Some matchingCollider => activeAdd matchingCollider active
    | None => active
    end) nearby [].

(** The search for the shallowest axis: [minAxis] after the loop
    [for (let i = 1; i < 4; i++)]. *)
Definition minAxisOf (dists : list R) : nat :=
  snd (fold_left (λ '(minDist, minAxis) i,
         if Rltb (nth i dists 0) minDist then (nth i dists 0, i)
         else (minDist, minAxis))
       [1; 2; 3]%nat (nth 0 dists 0, 0%nat)).

(** One iteration of the loop over [collidersToCheck], as the change it
    makes to [adjustedPosition]. *)
Definition resolveCollider (playerRadius : R) (collider : WallCollider)
    (adjustedPosition : Vector3) : Vector3 :=
  let halfSize := V3.multiplyScalar (V3.clone (size collider)) 0.5 in
  let boxMin := V3.sub (V3.clone (position collider)) halfSize in
  let boxMax := V3.add (V3.clone (position collider)) halfSize in
  let point2D := mkVector2 (vx adjustedPosition) (vz adjustedPosition) in
  let boxMin2D := mkVector2 (vx boxMin) (vz boxMin) in
  let boxMax2D := mkVector2 (vx boxMax) (vz boxMax) in
  let closestPoint :=
    mkVector2 (Rmax (px boxMin2D) (Rmin (px point2D) (px boxMax2D)))
              (Rmax (py boxMin2D) (Rmin (py point2D) (py boxMax2D))) in
  let distance := V2.distanceTo point2D closestPoint in
  if Rltb distance playerRadius then
    let penetration := playerRadius - distance in
    if Rltb 0 penetration && Rltb 0 distance then
      let direction :=
        V2.normalize (mkVector2 (px point2D - px closestPoint)
                                (py point2D - py closestPoint)) in
      mkVector3 (vx adjustedPosition + px direction * penetration)
                (vy adjustedPosition)
                (vz adjustedPosition + py direction * penetration)
    else if Reqb distance 0 then
      let dists := [ vx adjustedPosition - vx boxMin;
                     vx boxMax - vx adjustedPosition;
                     vz adjustedPosition - vz boxMin;
                     vz boxMax - vz adjustedPosition ] in
      match minAxisOf dists with
      | 0%nat => V3.setX adjustedPosition (vx boxMin - playerRadius)
      | 1%nat => V3.setX adjustedPosition (vx boxMax + playerRadius)
      | 2%nat => V3.setZ adjustedPosition (vz boxMin - playerRadius)
      | 3%nat => V3.setZ adjustedPosition (vz boxMax + playerRadius)
      | _ => adjustedPosition
      end
    else adjustedPosition
  else adjustedPosition.

(** The loop [for (const collider of collidersToCheck)]. *)
Fixpoint checkEach (s : CollisionSystem) (adjustedPosition : Vector3)
    (collidersToCheck : list WallCollider) : CollisionSystem * Vector3 :=
  match collidersToCheck with
  | [] => (s, adjustedPosition)
  | collider :: rest =>
      let s' := countCheck s in
      checkEach s' (resolveCollider (playerRadius s') collider adjustedPosition)
                rest
  end.

(** The choice of [collidersToCheck]: the colliders whose mesh the attached
    grid reports near [proposedPosition], or all of them without a grid. *)
Definition selectColliders (s : CollisionSystem) (st : Store)
    (proposed : Vector3) : option (list WallCollider * CollisionSystem) :=
  match spatialGrid s with
  | Some gridRef =>
      grid ← grids st !! gridRef;
      let nearbyObjects :=
        findNearbyObjects grid proposed (maxCheckDistance s) in
      let active := collectActive (colliders s) nearbyObjects in
      Some (active, setActiveColliders s active)
  | None => Some (colliders s, s)
  end.

(** [checkCollisions(playerPosition, proposedPosition)].  Both arguments are
    references; the result is the returned reference with the store and the
    system after the call.  [adjustedPosition] is allocated by [clone] and
    is private to the call until it is returned, so the loop threads its
    value and the fields are written back before the return.  [None] stands
    for a dangling reference, which JavaScript cannot produce. *)
Definition checkCollisions (s : CollisionSystem) (st : Store)
    (playerPosition proposedPosition : loc)
    : option (loc * Store * CollisionSystem) :=
  match playerCollider s with
  | None => Some (proposedPosition, st, s)
  | Some _ =>
      proposed ← vectors st !! proposedPosition;
      let '(adjustedPosition, st1) := alloc st (V3.clone proposed) in
      '(collidersToCheck, s2) ←
        selectColliders (resetFrameChecks s) st1 proposed;
      let '(s3, adjusted) :=
        checkEach s2 (V3.clone proposed) collidersToCheck in
      current ← vectors st1 !! playerPosition;
      Some (adjustedPosition,
            storeVector st1 adjustedPosition (V3.setY adjusted (vy current)),
            s3)
  end.

(** The part of [FirstPersonCamera.updateTranslation_] that moves the
    player: [translation] is the value of [this.translation_], [forward] and
    [left] the two displacements of the tick.  The result is the new value
    of [this.translation_]. *)
Definition updateTranslation (s : CollisionSystem) (st : Store)
    (translation forward left : Vector3)
    : option (Vector3 * Store * CollisionSystem) :=
  let '(currentPosition, st1) := alloc st (V3.clone translation) in
  let '(proposedPosition, st2) :=
    alloc st1 (V3.add (V3.add (V3.clone translation) forward) left) in
  '(adjustedPosition, st3, s') ←
    checkCollisions s st2 currentPosition proposedPosition;
  adjusted ← vectors st3 !! adjustedPosition;
  Some (V3.clone adjusted, st3, s').

(** A walk of the player: one [updateTranslation] per tick, each with its
    pair of displacements; the positions after the ticks. *)
Fixpoint walk (s : CollisionSystem) (st : Store) (translation : Vector3)
    (moves : list (Vector3 * Vector3)) : option (list Vector3) :=
  match moves with
  | [] => Some []
  | (forward, strafe) :: rest =>
      '(translation', st', s') ←
        updateTranslation s st translation forward strafe;
      later ← walk s' st' translation' rest;
      Some (translation' :: later)
  end.

(** ** Notions used by the properties *)

(** A grid as the constructor makes it from positive sizes. *)
Record wellFormed (g : SpatialHashGrid) : Prop := mkWellFormed {
  wf_cellSize : 0 < cellSize g;
  wf_worldSizeX : 0 < worldSizeX g;
  wf_worldSizeZ : 0 < worldSizeZ g;
  wf_numCellsX : numCellsX g = Zceil (worldSizeX g / cellSize g);
  wf_numCellsZ : numCellsZ g = Zceil (worldSizeZ g / cellSize g);
  wf_cells : length (cells g) = Z.to_nat (numCellsX g * numCellsZ g)
}.

(** Exclusive membership: a tracked object is in the cell recorded for it,
    an object found in a cell is tracked with that very cell, and a cell
    lists no object twice. *)
Record exclusive (g : SpatialHashGrid) : Prop := mkExclusive {
  ex_tracked : ∀ o i, objectCells g !! o = Some i →
    ∃ cell, cellAt (cells g) i = Some cell ∧ o ∈ cell;
  ex_member : ∀ (j : nat) cell o, cells g !! j = Some cell → o ∈ cell →
    objectCells g !! o = Some (Z.of_nat j);
  ex_nodup : ∀ (j : nat) cell, cells g !! j = Some cell → NoDup cell
}.

(** An [insertObject] keeps to its use when the object is not tracked, or is
    tracked in the cell the new position falls in. *)
Definition insertAllowed (g : SpatialHashGrid) (op : GridOp) : Prop :=
  match op with
  | Insert o p =>
      objectCells g !! o = None ∨
      objectCells g !! o = Some (getCellIndex g (vx p) (vz p))
  | Update _ _ | Remove _ => True
  end.

Fixpoint admissible (g : SpatialHashGrid) (ops : list GridOp) : Prop :=
  match ops with
  | [] => True
  | op :: rest =>
      insertAllowed g op ∧
      match applyOp g op with
      | Some g' => admissible g' rest
      | None => True
      end
  end.

Definition inBounds (g : SpatialHashGrid) (x z : R) : Prop :=
  (0 <= x < worldSizeX g) ∧ (0 <= z < worldSizeZ g).

(** The point of the closed interval from 0 to [w] nearest to [x]. *)
Definition nearestIn (w x : R) : R := Rmax 0 (Rmin x w).

(** The same, kept 0.001 inside the upper end. *)
Definition saturate (w x : R) : R := Rmax 0 (Rmin x (w - 0.001)).

(** The column and the row of the grid that the index of a point stands
    for: [index = column + row * numCellsX]. *)
Definition cellColumn (g : SpatialHashGrid) (x z : R) : Z :=
  (getCellIndex g x z `mod` numCellsX g)%Z.
Definition cellRow (g : SpatialHashGrid) (x z : R) : Z :=
  (getCellIndex g x z `div` numCellsX g)%Z.

(** The members of the cell containing a position. *)
Definition containingCell (g : SpatialHashGrid) (position : Vector3)
    : list obj :=
  default [] (cellAt (cells g) (getCellIndex g (vx position) (vz position))).

(** The horizontal distance from a position to the closest point of a
    collider's box (0 inside the box). *)
Definition boxDistance (c : WallCollider) (p : Vector3) : R :=
  let minX := vx (position c) - vx (size c) * 0.5 in
  let maxX := vx (position c) + vx (size c) * 0.5 in
  let minZ := vz (position c) - vz (size c) * 0.5 in
  let maxZ := vz (position c) + vz (size c) * 0.5 in
  V2.distanceTo (mkVector2 (vx p) (vz p))
    (mkVector2 (Rmax minX (Rmin (vx p) maxX)) (Rmax minZ (Rmin (vz p) maxZ))).

(** The references of a call are live. *)
Definition validCall (s : CollisionSystem) (st : Store)
    (playerPosition proposedPosition : loc) : Prop :=
  is_Some (vectors st !! playerPosition) ∧
  is_Some (vectors st !! proposedPosition) ∧
  ∀ gridRef, spatialGrid s = Some gridRef → is_Some (grids st !! gridRef).

(** A level with one wall: a player collider and a single box collider. *)
Definition oneWall (start center boxSize : Vector3) (m : obj)
    : CollisionSystem :=
  addWallCollider (createPlayerCollider CollisionSystem_new start)
                  m center boxSize.

(** Steps of the given lengths along Z towards the origin. *)
Definition towardsOrigin (steps : list R) : list (Vector3 * Vector3) :=
  (λ d, (mkVector3 0 0 (- d), mkVector3 0 0 0)) <$> steps.

(** The 20 by 20 world with cells of size 5, empty. *)
Definition grid20 : SpatialHashGrid :=
  mkGrid 5 20 20 4 4 (replicate 16 []) ∅.

(** The same grid with one object in its first cell, as [insertObject]
    leaves it for a position such as (2, 2). *)
Definition grid20_with (o : obj) : SpatialHashGrid :=
  withCells grid20 (<[0%nat := [o]]> (cells grid20))
                   (<[o := 0%Z]> (objectCells grid20)).

(** A world whose size is not a multiple of the cell size: the third
    column starts at 10, less than 0.001 below the upper end, empty. *)
Definition edgeGrid : SpatialHashGrid :=
  mkGrid 5 10.0005 10.0005 3 3 (replicate 9 []) ∅.

(** The position after the loop over [collidersToCheck]. *)
Definition adjustAll (playerRadius : R) (collidersToCheck : list WallCollider)
    (adjustedPosition : Vector3) : Vector3 :=
  fold_left (λ v c, resolveCollider playerRadius c v)
            collidersToCheck adjustedPosition.

(** The fields of the collision system that a call must not touch. *)
Definition sameColliders (s s' : CollisionSystem) : Prop :=
  colliders s' = colliders s ∧ playerCollider s' = playerCollider s ∧
  playerRadius s' = playerRadius s ∧ playerHeight s' = playerHeight s ∧
  spatialGrid s' = spatialGrid s ∧ maxCheckDistance s' = maxCheckDistance s.

(** Two live vectors for the examples. *)
Definition twoVectors (current proposed : Vector3) : Store :=
  mkStore (<[2%positive := proposed]> (<[1%positive := current]> ∅)) ∅.

(** The colliders that a call checks, in order: those of the attached grid
    near the proposed position, or all of them without a grid. *)
Definition candidates (s : CollisionSystem) (st : Store) (proposed : Vector3)
    : list WallCollider :=
  match spatialGrid s with
  | Some gridRef =>
      match grids st !! gridRef with
      | Some grid =>
          collectActive (colliders s)
            (findNearbyObjects grid proposed (maxCheckDistance s))
      | None => []
      end
  | None => colliders s
  end.

(** ** The first-person controller (main.js) *)


(** The fields of [FirstPersonCamera] that the movement code reads and
    writes; [cameraPosition] is [camera_.position].  The quaternions
    [rotation_] and [camera_.quaternion] are functions of [phi_] and
    [theta_] and are left out. *)
Record FirstPersonCamera := mkFirstPersonCamera {
  cameraPosition : Vector3;
  translation_ : Vector3;
  phi_ : R;
  phiSpeed_ : R;
  theta_ : R;
  thetaSpeed_ : R;
  headBobActive_ : bool;
  headBobTimer_ : R;
  forwardSpeed_ : R;
  strafeSpeed_ : R;
  bobIntensity_ : R
}.


(** [v.applyQuaternion(q)] for [q.setFromAxisAngle((0, 1, 0), phi)]: the
    rotation by [phi] about the Y axis. *)
Definition applyYaw (phi : R) (v : Vector3) : Vector3 :=
  mkVector3 (vx v * cos phi + vz v * sin phi) (vy v)
            (- vx v * sin phi + vz v * cos phi).

(** [(key(w) ? 1 : 0) + (key(s) ? -1 : 0)]. *)
Definition keyVelocity (plus minus : bool) : R :=
  (if plus then 1 else 0) + (if minus then -1 else 0).

(** The displacements [forward] and [left] of a tick. *)
Definition forwardMove (cam : FirstPersonCamera) (w s : bool)
    (timeElapsedS : R) : Vector3 :=
  V3.multiplyScalar (applyYaw (phi_ cam) (mkVector3 0 0 (-1)))
                    (keyVelocity w s * timeElapsedS * forwardSpeed_ cam).

Definition leftMove (cam : FirstPersonCamera) (a d : bool)
    (timeElapsedS : R) : Vector3 :=
  V3.multiplyScalar (applyYaw (phi_ cam) (mkVector3 (-1) 0 0))
                    (keyVelocity a d * timeElapsedS * strafeSpeed_ cam).

Definition setTranslation (cam : FirstPersonCamera) (t : Vector3)
    (bobActive : bool) : FirstPersonCamera :=
  mkFirstPersonCamera (cameraPosition cam) t (phi_ cam) (phiSpeed_ cam)
    (theta_ cam) (thetaSpeed_ cam) bobActive (headBobTimer_ cam)
    (forwardSpeed_ cam) (strafeSpeed_ cam) (bobIntensity_ cam).

(** [updateTranslation_(timeElapsedS)], with the four movement keys as
    arguments and the collision system, when the controller has one. *)
Definition updateTranslation_ (cam : FirstPersonCamera)
    (collisionSystem_ : option CollisionSystem) (st : Store)
    (w s a d : bool) (timeElapsedS : R)
    : option (FirstPersonCamera * Store * option CollisionSystem) :=
  let forwardVelocity := keyVelocity w s in
  let strafeVelocity := keyVelocity a d in
  let forward := forwardMove cam w s timeElapsedS in
  let leftward := leftMove cam a d timeElapsedS in
  let bobActive :=
    if negb (Reqb forwardVelocity 0) || negb (Reqb strafeVelocity 0)
    then true else headBobActive_ cam in
  match collisionSystem_ with
  | Some system =>
      '(adjusted, st', system') ←
        updateTranslation system st (translation_ cam) forward leftward;
      Some (setTranslation cam adjusted bobActive, st', Some system')
  | None =>
      (* the two clones of the tick are left to the collector *)
      let '(_, st1) := alloc st (V3.clone (translation_ cam)) in
      let '(_, st2) :=
        alloc st1 (V3.add (V3.add (V3.clone (translation_ cam)) forward)
                          leftward) in
      Some (setTranslation cam
              (V3.add (V3.add (translation_ cam) forward) leftward) bobActive,
            st2, None)
  end.


Definition setHeadBob (cam : FirstPersonCamera) (active : bool) (timer : R)
    : FirstPersonCamera :=
  mkFirstPersonCamera (cameraPosition cam) (translation_ cam) (phi_ cam)
    (phiSpeed_ cam) (theta_ cam) (thetaSpeed_ cam) active timer
    (forwardSpeed_ cam) (strafeSpeed_ cam) (bobIntensity_ cam).

Definition updateHeadBob_ (cam : FirstPersonCamera) (timeElapsedS : R)
    : FirstPersonCamera :=
  if headBobActive_ cam then
    let wavelength := PI in
    let nextStep :=
      1 + IZR (Zfloor (((headBobTimer_ cam + 0.000001) * 10) / wavelength)) in
    let nextStepTime := (nextStep * wavelength) / 10 in
    let timer := Rmin (headBobTimer_ cam + timeElapsedS) nextStepTime in
    if Reqb timer nextStepTime then setHeadBob cam false timer
    else setHeadBob cam true timer
  else cam.

(** [updateCamera_]: the camera follows the translation, raised by the
    bob, and the collision system is told the camera position. *)
Definition updateCamera_ (cam : FirstPersonCamera)
    (collisionSystem_ : option CollisionSystem)
    : FirstPersonCamera * option CollisionSystem :=
  let position :=
    mkVector3 (vx (translation_ cam))
              (vy (translation_ cam) +
               sin (headBobTimer_ cam * 10) * bobIntensity_ cam)
              (vz (translation_ cam)) in
  (mkFirstPersonCamera position (translation_ cam) (phi_ cam) (phiSpeed_ cam)
     (theta_ cam) (thetaSpeed_ cam) (headBobActive_ cam) (headBobTimer_ cam)
     (forwardSpeed_ cam) (strafeSpeed_ cam) (bobIntensity_ cam),
   (λ system, updatePlayerPosition system position) <$> collisionSystem_).

(** The loop [while (timeAccumulator >= fixedTimeStep)] of [animate], with
    the work of one step as [update]; [None] when the fuel runs out. *)
Fixpoint fixedSteps {A : Type} (fuel : nat) (update : A → A)
    (fixedTimeStep timeAccumulator : R) (a : A) : option (R * A) :=
  if Rle_dec fixedTimeStep timeAccumulator then
    match fuel with
    | O => None
    | S fuel' =>
        fixedSteps fuel' update fixedTimeStep
                   (timeAccumulator - fixedTimeStep) (update a)
    end
  else Some (timeAccumulator, a).

(** One frame of [animate] at time [t] (milliseconds) after a frame at
    [previousRAF]. *)
Definition animateFrame {A : Type} (fuel : nat) (update : A → A)
    (fixedTimeStep timeAccumulator previousRAF t : R) (a : A)
    : option (R * A) :=
  let timeElapsedS := Rmin ((t - previousRAF) * 0.001) 0.1 in
  fixedSteps fuel update fixedTimeStep (timeAccumulator + timeElapsedS) a.

(** ** Registering the walls of a level *)

(** An object of the scene graph, as far as the collision code looks at it:
    identity, [isMesh], [name], [position], the size of its bounding box
    ([Box3.setFromObject(object).getSize]) and its children. *)
#[warnings="-register-all"]
Inductive Object3D :=
| mkObject3D (objectId : obj) (isMesh : bool) (name : string)
             (objectPosition boundingSize : Vector3)
             (children : list Object3D).

Definition objectId (o : Object3D) : obj :=
  match o with mkObject3D i _ _ _ _ _ => i end.
Definition isMesh (o : Object3D) : bool :=
  match o with mkObject3D _ m _ _ _ _ => m end.
Definition name (o : Object3D) : string :=
  match o with mkObject3D _ _ n _ _ _ => n end.
Definition objectPosition (o : Object3D) : Vector3 :=
  match o with mkObject3D _ _ _ p _ _ => p end.
Definition boundingSize (o : Object3D) : Vector3 :=
  match o with mkObject3D _ _ _ _ b _ => b end.

(** [object.traverse(callback)]: the object, then its descendants, child by
    child; the list of the objects in the order of the calls. *)
Fixpoint traverse (o : Object3D) : list Object3D :=
  match o with
  | mkObject3D _ _ _ _ _ children =>
      o :: (fix each (l : list Object3D) : list Object3D :=
              match l with
              | [] => []
              | child :: rest => traverse child ++ each rest
              end) children
  end.

(** The test of [extractCollidersFromLevel] and of [setupColliders]. *)
Definition isWallObject (object : Object3D) : bool :=
  isMesh object && negb (String.eqb (name object) "floor")
                && negb (String.eqb (name object) "ceiling").

Definition extractCollidersFromLevel (s : CollisionSystem)
    (levelGroup : Object3D) : CollisionSystem :=
  fold_left (λ s object,
    if isWallObject object
    then addWallCollider s (objectId object) (objectPosition object)
                         (boundingSize object)
    else s) (traverse levelGroup) s.

(** ** Placing the walls of a level (level-generator.js) *)

(** The fields of [LevelGenerator] used when walls are placed. *)
Record LevelGenerator := mkLevelGenerator {
  corridorWidth : R;
  roomHeight : R;
  wallThickness : R;
  levelGrid : option SpatialHashGrid;   (* this.spatialGrid *)
  wallBlocks : list obj;
  wallSections : list obj
}.

(** The grid that [generateLevel] makes for a level of [gridWidth] columns
    and [gridHeight] rows. *)
Definition newLevelGrid (lg : LevelGenerator) (gridWidth gridHeight : Z)
    : option SpatialHashGrid :=
  SpatialHashGrid_new (corridorWidth lg * 2)
    (IZR gridWidth * corridorWidth lg) (IZR gridHeight * corridorWidth lg).

Definition wallBlockPosition (lg : LevelGenerator) (x z : Z) : Vector3 :=
  mkVector3 (IZR x * corridorWidth lg) (roomHeight lg / 2)
            (IZR z * corridorWidth lg).

(** [createWallBlock(levelGroup, x, z)] for the new mesh [wall]: its
    position, the insertion in the grid and the list of blocks. *)
Definition createWallBlock (lg : LevelGenerator) (wall : obj) (x z : Z)
    : option LevelGenerator :=
  let position := wallBlockPosition lg x z in
  match levelGrid lg with
  | Some grid =>
      grid' ← insertObject grid wall position;
      Some (mkLevelGenerator (corridorWidth lg) (roomHeight lg)
              (wallThickness lg) (Some grid') (wallBlocks lg ++ [wall])
              (wallSections lg))
  | None =>
      Some (mkLevelGenerator (corridorWidth lg) (roomHeight lg)
              (wallThickness lg) None (wallBlocks lg ++ [wall])
              (wallSections lg))
  end.

(** The position that [createWall] gives to the wall on side [direction]
    (0 north, 1 east, 2 south, 3 west) of the cell. *)
Definition wallPosition (lg : LevelGenerator) (x z direction : Z) : Vector3 :=
  let posX := IZR x * corridorWidth lg in
  let posZ := IZR z * corridorWidth lg in
  if decide (direction = 0 ∨ direction = 2)%Z then
    mkVector3 posX (roomHeight lg / 2)
      (posZ + (if decide (direction = 0)%Z then - corridorWidth lg / 2
               else corridorWidth lg / 2))
  else
    mkVector3
      (posX + (if decide (direction = 3)%Z then - corridorWidth lg / 2
               else corridorWidth lg / 2))
      (roomHeight lg / 2) posZ.

Definition createWall (lg : LevelGenerator) (wall : obj) (x z direction : Z)
    : option LevelGenerator :=
  let position := wallPosition lg x z direction in
  match levelGrid lg with
  | Some grid =>
      grid' ← insertObject grid wall position;
      Some (mkLevelGenerator (corridorWidth lg) (roomHeight lg)
              (wallThickness lg) (Some grid') (wallBlocks lg)
              (wallSections lg ++ [wall]))
  | None =>
      Some (mkLevelGenerator (corridorWidth lg) (roomHeight lg)
              (wallThickness lg) None (wallBlocks lg)
              (wallSections lg ++ [wall]))
  end.

(** A grid with the sizes that [generateLevel] gives to the grid of a level
    of [gridWidth] columns and [gridHeight] rows. *)
Definition levelGridFor (lg : LevelGenerator) (gridWidth gridHeight : Z)
    (g : SpatialHashGrid) : Prop :=
  wellFormed g ∧ cellSize g = corridorWidth lg * 2 ∧
  worldSizeX g = IZR gridWidth * corridorWidth lg ∧
  worldSizeZ g = IZR gridHeight * corridorWidth lg.

(** The collider that [addWallCollider] makes for an object. *)
Definition colliderOf (object : Object3D) : WallCollider :=
  mkWallCollider (objectPosition object) (boundingSize object)
                 (objectId object).

(** The generator with the standard dimensions and a grid. *)
Definition standardGenerator (g : SpatialHashGrid) : LevelGenerator :=
  mkLevelGenerator 2 3 0.2 (Some g) [] [].

(** The grid of a level of 10 by 10 cells, empty. *)
Definition level10 : SpatialHashGrid := mkGrid 4 20 20 5 5 (replicate 25 []) ∅.

(** A controller that starts to walk, the bob active and its timer at 0,
    and one in mid-step, the timer at a crest of the sine. *)
Definition walkingCamera : FirstPersonCamera :=
  mkFirstPersonCamera (mkVector3 0 1.8 0) (mkVector3 0 1.8 0) 0 8 0 5
                      true 0 2 2 0.1.

Definition bobbingCamera : FirstPersonCamera :=
  mkFirstPersonCamera (mkVector3 0 1.8 0) (mkVector3 0 1.8 0) 0 8 0 5
                      true (PI / 20) 2 2 0.1.

(** A small scene: a group with a floor and one wall block. *)
Definition sampleWall : Object3D :=
  mkObject3D 3%positive true "wall_block" (mkVector3 2 1.5 2) (mkVector3 2 3 2) [].

Definition sampleLevel : Object3D :=
  mkObject3D 1%positive false "Level" (mkVector3 0 0 0) (mkVector3 0 0 0)
    [ mkObject3D 2%positive true "floor" (mkVector3 9 0 9) (mkVector3 20 0 20) [];
      sampleWall ].

(** ** Generating a level (level-generator.js) *)

(** [levelData.grid]: the rows of the level as strings, the format of the
    level files, or as arrays of cells.  A cell is a string, of one
    character when it comes from a row that was split. *)
Inductive GridData :=
| GridStrings (rows : list string)
| GridCells (rows : list (list string)).

(** [parseGridFormat(gridStrings)]: every row split into its characters. *)
Definition parseGridFormat (gridStrings : list string)
    : list (list string) :=
  (λ row, (λ c, String c EmptyString) <$> String.list_ascii_of_string row)
    <$> gridStrings.

(** [this.parseGridFormat(levelData.grid)] as [generateGrid] calls it,
    whatever the format of the rows: an array has no [split], so the call
    is a TypeError at the first row that is an array. *)
Definition parseGridData (levelData : GridData)
    : option (list (list string)) :=
  match levelData with
  | GridStrings rows => Some (parseGridFormat rows)
  | GridCells [] => Some []
  | GridCells (_ :: _) => None
  end.

(** The grid of [generateLevel]:
    [Array.isArray(levelData.grid[0]) ? levelData.grid
       : this.parseGridFormat(levelData.grid)]. *)
Definition gridOfData (levelData : GridData) : list (list string) :=
  match levelData with
  | GridStrings rows => parseGridFormat rows
  | GridCells [] => parseGridFormat []
  | GridCells (row :: rows) => row :: rows
  end.

(** The state of a generation: the generator, the number that three.js
    gives to the next object it creates ([Object3D.id]), and the level
    group under construction.  The grid is the generator's own until the
    level is handed over, so it is kept by value here. *)
Record Generation := mkGeneration {
  generator : LevelGenerator;
  nextObjectId : obj;
  levelChildren : list Object3D;        (* levelGroup.children *)
  userStartPosition : option Vector3;   (* levelGroup.userData.startPosition *)
  userGoalPosition : option Vector3     (* levelGroup.userData.goalPosition *)
}.

(** A new object without children, added to the level group. *)
Definition addObject (gn : Generation) (lg : LevelGenerator) (mesh : bool)
    (objectName : string) (position size : Vector3) : Generation :=
  mkGeneration lg (Pos.succ (nextObjectId gn))
    (levelChildren gn ++
       [mkObject3D (nextObjectId gn) mesh objectName position size []])
    (userStartPosition gn) (userGoalPosition gn).

(** The sizes of the two shared box geometries, [BoxGeometry(2, 3, 2)] and
    [BoxGeometry(2, 3, 0.2)]. *)
Definition wallGeometry : Vector3 := mkVector3 2 3 2.
Definition wallSectionGeometry : Vector3 := mkVector3 2 3 0.2.

(** [wall.scale] of a wall section. *)
Definition wallScale (direction : Z) : Vector3 :=
  if decide (direction = 0 ∨ direction = 2)%Z then mkVector3 1 1 0.1
  else mkVector3 0.1 1 1.

(** The size of the bounding box of a mesh whose box geometry is scaled and
    not rotated. *)
Definition scaledSize (geometry scale : Vector3) : Vector3 :=
  mkVector3 (vx geometry * vx scale) (vy geometry * vy scale)
            (vz geometry * vz scale).

(** [createWallBlock(levelGroup, x, z)] and [createWall(levelGroup, x, z,
    direction)] with the mesh they create and add to the level group. *)
Definition createWallBlockIn (gn : Generation) (x z : Z) : option Generation :=
  lg ← createWallBlock (generator gn) (nextObjectId gn) x z;
  Some (addObject gn lg true "wall_block"
          (wallBlockPosition (generator gn) x z) wallGeometry).

Definition createWallIn (gn : Generation) (x z direction : Z)
    : option Generation :=
  lg ← createWall (generator gn) (nextObjectId gn) x z direction;
  Some (addObject gn lg true "wall_section"
          (wallPosition (generator gn) x z direction)
          (scaledSize wallSectionGeometry (wallScale direction))).

(** [addStartPosition]: a marker, a cylinder of radius 0.2 and height 0.1,
    and the start position of the player. *)
Definition addStartPosition (gn : Generation) (x z : Z) : Generation :=
  let cw := corridorWidth (generator gn) in
  let gn' := addObject gn (generator gn) true EmptyString
               (mkVector3 (IZR x * cw) 0.05 (IZR z * cw))
               (mkVector3 0.4 0.1 0.4) in
  mkGeneration (generator gn') (nextObjectId gn') (levelChildren gn')
    (Some (mkVector3 (IZR x * cw) 1.8 (IZR z * cw))) (userGoalPosition gn').

(** [addGoalPosition]: a marker, a box of side 1, and the goal position. *)
Definition addGoalPosition (gn : Generation) (x z : Z) : Generation :=
  let cw := corridorWidth (generator gn) in
  let gn' := addObject gn (generator gn) true EmptyString
               (mkVector3 (IZR x * cw) 1 (IZR z * cw)) (mkVector3 1 1 1) in
  mkGeneration (generator gn') (nextObjectId gn') (levelChildren gn')
    (userStartPosition gn') (Some (mkVector3 (IZR x * cw) 1 (IZR z * cw))).

(** The four neighbours: north, east, south, west. *)
Definition directions : list (Z * Z) := [(0, -1); (1, 0); (0, 1); (-1, 0)]%Z.

(** [grid[z][x]], [undefined] outside the grid. *)
Definition gridAt (grid : list (list string)) (z x : Z)
    : option string :=
  if decide (0 ≤ z ∧ 0 ≤ x)%Z
  then row ← grid !! Z.to_nat z; row !! Z.to_nat x
  else None.

(** [grid[z].length]. *)
Definition rowLength (grid : list (list string)) (z : Z) : Z :=
  match grid !! Z.to_nat z with
  | Some row => Z.of_nat (length row)
  | None => 0
  end.

Definition isWallOrHidden (cell : option string) : bool :=
  match cell with
  | Some c => String.eqb c "-" || String.eqb c "x"
  | None => false
  end.

(** The test of the loop over the directions. *)
Definition needsWall (grid : list (list string)) (x z : Z) (d : Z * Z)
    : bool :=
  let nx := (x + d.1)%Z in
  let nz := (z + d.2)%Z in
  bool_decide (nx < 0)%Z || bool_decide (rowLength grid z ≤ nx)%Z ||
  bool_decide (nz < 0)%Z || bool_decide (Z.of_nat (length grid) ≤ nz)%Z ||
  isWallOrHidden (gridAt grid nz nx).

(** [for (let i = 0; i < 4; i++)], from [i] on. *)
Fixpoint wallsAround (grid : list (list string)) (x z i : Z)
    (ds : list (Z * Z)) (gn : Generation) : option Generation :=
  match ds with
  | [] => Some gn
  | d :: rest =>
      gn' ← (if needsWall grid x z d then createWallIn gn x z i else Some gn);
      wallsAround grid x z (i + 1) rest gn'
  end.

Definition isOpenCell (cell : string) : bool :=
  String.eqb cell "." || String.eqb cell "S" || String.eqb cell "E".

(** The body of the loops of [generateGrid] for the cell at [x], [z]. *)
Definition visitCell (grid : list (list string)) (x z : Z)
    (cell : string) (gn : Generation) : option Generation :=
  if String.eqb cell "-" then createWallBlockIn gn x z
  else if String.eqb cell "x" then Some gn
  else if isOpenCell cell then
    gn' ← wallsAround grid x z 0 directions gn;
    if String.eqb cell "S" then Some (addStartPosition gn' x z)
    else if String.eqb cell "E" then Some (addGoalPosition gn' x z)
    else Some gn'
  else Some gn.

(** The loop over the cells of a row, from column [x] on, and the loop
    over the rows, from row [z] on. *)
Fixpoint rowLoop (grid : list (list string)) (z x : Z)
    (row : list string) (gn : Generation) : option Generation :=
  match row with
  | [] => Some gn
  | cell :: rest =>
      gn' ← visitCell grid x z cell gn;
      rowLoop grid z (x + 1) rest gn'
  end.

Fixpoint gridLoop (grid : list (list string)) (z : Z)
    (rows : list (list string)) (gn : Generation) : option Generation :=
  match rows with
  | [] => Some gn
  | row :: rest =>
      gn' ← rowLoop grid z 0 row gn;
      gridLoop grid (z + 1) rest gn'
  end.

(** [generateGrid(levelGroup, levelData)]: the floor, the ceiling and the
    walls and markers of the cells.  The positions stored at the end are
    those of the last start and goal cells, which [addStartPosition] and
    [addGoalPosition] have stored already. *)
Definition generateGrid (gn : Generation) (levelData : GridData)
    : option Generation :=
  grid ← parseGridData levelData;
  firstRow ← grid !! 0%nat;
  let cw := corridorWidth (generator gn) in
  let gridWidth := IZR (Z.of_nat (length firstRow)) in
  let gridHeight := IZR (Z.of_nat (length grid)) in
  let planeSize := mkVector3 (gridWidth * cw) 0 (gridHeight * cw) in
  let gn1 := addObject gn (generator gn) true "floor"
               (mkVector3 (gridWidth * cw / 2 - cw / 2) 0
                          (gridHeight * cw / 2 - cw / 2)) planeSize in
  let gn2 := addObject gn1 (generator gn1) true "ceiling"
               (mkVector3 (gridWidth * cw / 2 - cw / 2)
                          (roomHeight (generator gn))
                          (gridHeight * cw / 2 - cw / 2)) planeSize in
  gridLoop grid 0 grid gn2.

Definition withLevelGrid (lg : LevelGenerator) (g : SpatialHashGrid)
    : LevelGenerator :=
  mkLevelGenerator (corridorWidth lg) (roomHeight lg) (wallThickness lg)
    (Some g) (wallBlocks lg) (wallSections lg).

(** [generateLevel(levelData)]: the level group, numbered [nextId], with
    the state of the generation.  The light of [addLighting] is the first
    child. *)
Definition generateLevel (lg : LevelGenerator) (nextId : obj)
    (levelData : GridData) : option (Object3D * Generation) :=
  let grid := gridOfData levelData in
  firstRow ← grid !! 0%nat;
  spatial ← newLevelGrid lg (Z.of_nat (length firstRow))
                         (Z.of_nat (length grid));
  let gn0 := mkGeneration (withLevelGrid lg spatial) (Pos.succ nextId) []
                          None None in
  let gn1 := addObject gn0 (generator gn0) false EmptyString
               (mkVector3 0 0 0) (mkVector3 0 0 0) in
  gn2 ← generateGrid gn1 levelData;
  Some (mkObject3D nextId false "Level" (mkVector3 0 0 0) (mkVector3 0 0 0)
          (levelChildren gn2), gn2).

(** ** Loading a level (main.js) *)




(** ** Notions used by the properties of level generation *)

(** What [generateGrid] places for the cells: wall blocks, wall sections
    and the two markers. *)
Inductive Placement :=
| PlaceBlock (x z : Z)
| PlaceSection (x z direction : Z)
| PlaceStart (x z : Z)
| PlaceGoal (x z : Z).

Definition place (gn : Generation) (p : Placement) : option Generation :=
  match p with
  | PlaceBlock x z => createWallBlockIn gn x z
  | PlaceSection x z direction => createWallIn gn x z direction
  | PlaceStart x z => Some (addStartPosition gn x z)
  | PlaceGoal x z => Some (addGoalPosition gn x z)
  end.

Fixpoint placeAll (gn : Generation) (ps : list Placement)
    : option Generation :=
  match ps with
  | [] => Some gn
  | p :: rest => gn' ← place gn p; placeAll gn' rest
  end.

(** The object that a placement adds to the level group. *)
Definition placedObject (lg : LevelGenerator) (id : obj) (p : Placement)
    : Object3D :=
  match p with
  | PlaceBlock x z =>
      mkObject3D id true "wall_block" (wallBlockPosition lg x z)
                 wallGeometry []
  | PlaceSection x z direction =>
      mkObject3D id true "wall_section" (wallPosition lg x z direction)
                 (scaledSize wallSectionGeometry (wallScale direction)) []
  | PlaceStart x z =>
      mkObject3D id true EmptyString
        (mkVector3 (IZR x * corridorWidth lg) 0.05 (IZR z * corridorWidth lg))
        (mkVector3 0.4 0.1 0.4) []
  | PlaceGoal x z =>
      mkObject3D id true EmptyString
        (mkVector3 (IZR x * corridorWidth lg) 1 (IZR z * corridorWidth lg))
        (mkVector3 1 1 1) []
  end.

Fixpoint placedObjects (lg : LevelGenerator) (id : obj) (ps : list Placement)
    : list Object3D :=
  match ps with
  | [] => []
  | p :: rest => placedObject lg id p :: placedObjects lg (Pos.succ id) rest
  end.

(** The placements of the loops, in their order. *)
Fixpoint sectionsPlan (grid : list (list string)) (x z i : Z)
    (ds : list (Z * Z)) : list Placement :=
  match ds with
  | [] => []
  | d :: rest =>
      (if needsWall grid x z d then [PlaceSection x z i] else []) ++
      sectionsPlan grid x z (i + 1) rest
  end.

Definition cellPlan (grid : list (list string)) (x z : Z) (cell : string)
    : list Placement :=
  if String.eqb cell "-" then [PlaceBlock x z]
  else if String.eqb cell "x" then []
  else if isOpenCell cell then
    sectionsPlan grid x z 0 directions ++
    (if String.eqb cell "S" then [PlaceStart x z]
     else if String.eqb cell "E" then [PlaceGoal x z] else [])
  else [].

Definition rowPlan (grid : list (list string)) (z x : Z) (row : list string)
    : list Placement :=
  mjoin (imap (λ j cell, cellPlan grid (x + Z.of_nat j) z cell) row).

Definition gridPlan (grid : list (list string)) (z : Z)
    (rows : list (list string)) : list Placement :=
  mjoin (imap (λ k row, rowPlan grid (z + Z.of_nat k) 0 row) rows).

(** A wall of the level: a wall block or a wall section. *)
Definition isWallMesh (o : Object3D) : bool :=
  String.eqb (name o) "wall_block" || String.eqb (name o) "wall_section".


(** The state of a generation between two placements, for the generator
    [lg] of a level of [W] by [H] cells whose group is numbered [lo]. *)
Record GenInv (lg : LevelGenerator) (W H : Z) (lo : obj) (gn : Generation)
    : Prop := mkGenInv {
  gi_cw : corridorWidth (generator gn) = corridorWidth lg;
  gi_rh : roomHeight (generator gn) = roomHeight lg;
  gi_grid : ∃ g, levelGrid (generator gn) = Some g ∧
    levelGridFor lg W H g ∧ exclusive g ∧
    (∀ o, o ∈ levelChildren gn →
       objectCells g !! objectId o =
         if isWallMesh o
         then Some (getCellIndex g (vx (objectPosition o))
                                   (vz (objectPosition o)))
         else None) ∧
    (∀ id, is_Some (objectCells g !! id) →
       id ∈ objectId <$> levelChildren gn);
  gi_lo : (lo < nextObjectId gn)%positive;
  gi_ids : ∀ o, o ∈ levelChildren gn →
    (lo < objectId o)%positive ∧ (objectId o < nextObjectId gn)%positive;
  gi_nodup : NoDup (objectId <$> levelChildren gn);
  gi_leaf : ∀ o, o ∈ levelChildren gn → traverse o = [o]
}.

(** The generator as its constructor leaves it, and a small level: a
    corridor of three open cells, from the start to the goal, inside a
    ring of wall blocks. *)
Definition LevelGenerator_new : LevelGenerator :=
  mkLevelGenerator 2 3 0.2 None [] [].

Definition sampleRows : list string := ["-----"; "-S.E-"; "-----"].

(** * Properties *)

(** ** Arithmetic of clamping and binning *)

Ltac rminmax :=
  unfold nearestIn, saturate, Rmax, Rmin in *;
  repeat destruct (Rle_dec _ _); try lra.

Lemma Rltb_true a b : Rltb a b = true ↔ a < b.
Proof. unfold Rltb. destruct (Rlt_dec a b); split; auto; discriminate. Qed.

Lemma Rltb_false a b : Rltb a b = false ↔ b <= a.
Proof.
  unfold Rltb. destruct (Rlt_dec a b); split; auto; try discriminate; lra.
Qed.

Lemma Reqb_true a b : Reqb a b = true ↔ a = b.
Proof. unfold Reqb. destruct (Req_dec_T a b); split; auto; discriminate. Qed.

Lemma Reqb_false a b : Reqb a b = false ↔ a ≠ b.
Proof.
  unfold Reqb. destruct (Req_dec_T a b); split; auto; try discriminate.
  intros Hne; contradiction.
Qed.

Lemma saturate_range w x : 0 < w → 0 <= saturate w x < w.
Proof. intros Hw. rminmax. Qed.

Lemma saturate_idem w x : saturate w (saturate w x) = saturate w x.
Proof. rminmax. Qed.

Lemma saturate_nearestIn w x : saturate w (nearestIn w x) = saturate w x.
Proof. rminmax. Qed.

Lemma div_le_mono cs a b : 0 < cs → a <= b → a / cs <= b / cs.
Proof.
  intros Hcs Hab. pose proof (Rinv_0_lt_compat cs Hcs). unfold Rdiv. nra.
Qed.

Lemma div_lt_mono cs a b : 0 < cs → a < b → a / cs < b / cs.
Proof.
  intros Hcs Hab. pose proof (Rinv_0_lt_compat cs Hcs). unfold Rdiv. nra.
Qed.

Lemma div_nonneg cs a : 0 < cs → 0 <= a → 0 <= a / cs.
Proof.
  intros Hcs Ha. pose proof (Rinv_0_lt_compat cs Hcs). unfold Rdiv. nra.
Qed.

(** A saturated coordinate falls in one of the [Zceil (w / cs)] columns. *)
Lemma cell_coordinate_range cs w x : 0 < cs → 0 < w →
  (0 ≤ Zfloor (saturate w x / cs) < Zceil (w / cs))%Z.
Proof.
  intros Hcs Hw. destruct (saturate_range w x Hw) as [Hlo Hhi]. split.
  - apply Zfloor_lub. simpl. apply div_nonneg; assumption.
  - apply lt_IZR.
    pose proof (Zfloor_bound (saturate w x / cs)) as [Hf _].
    pose proof (Zceil_bound (w / cs)) as [_ Hc].
    pose proof (div_lt_mono cs _ _ Hcs Hhi). lra.
Qed.

Lemma getCellIndex_saturate g x z :
  getCellIndex g x z =
  (Zfloor (saturate (worldSizeX g) x / cellSize g) +
   Zfloor (saturate (worldSizeZ g) z / cellSize g) * numCellsX g)%Z.
Proof. reflexivity. Qed.

Lemma getCellIndex_range g x z : wellFormed g →
  (0 ≤ getCellIndex g x z < Z.of_nat (length (cells g)))%Z.
Proof.
  intros [Hcs Hwx Hwz Hnx Hnz Hlen]. rewrite getCellIndex_saturate, Hlen.
  pose proof (cell_coordinate_range _ _ x Hcs Hwx) as Hx.
  pose proof (cell_coordinate_range _ _ z Hcs Hwz) as Hz.
  rewrite <- Hnx in Hx. rewrite <- Hnz in Hz.
  rewrite Z2Nat.id by nia. nia.
Qed.

Lemma cellAt_Some cs i : (0 ≤ i < Z.of_nat (length cs))%Z →
  is_Some (cellAt cs i).
Proof.
  intros Hi. unfold cellAt. rewrite decide_True by lia.
  apply lookup_lt_is_Some. lia.
Qed.

Lemma cellAt_lookup cs i cell : cellAt cs i = Some cell →
  (0 ≤ i)%Z ∧ cs !! Z.to_nat i = Some cell.
Proof. unfold cellAt. case_decide; [auto | discriminate]. Qed.

Lemma cellAt_of_nat cs (j : nat) : cellAt cs (Z.of_nat j) = cs !! j.
Proof. unfold cellAt. rewrite decide_True by lia. by rewrite Nat2Z.id. Qed.

Lemma getCellIndex_cell g x z : wellFormed g →
  is_Some (cellAt (cells g) (getCellIndex g x z)).
Proof. intros Hwf. apply cellAt_Some, getCellIndex_range, Hwf. Qed.

(** The constructor makes well-formed grids from positive sizes. *)
Lemma SpatialHashGrid_new_wellFormed cs wx wz g :
  0 < cs → 0 < wx → 0 < wz →
  SpatialHashGrid_new cs wx wz = Some g →
  wellFormed g ∧ objectCells g = ∅ ∧ ∀ j cell, cells g !! j = Some cell → cell = [].
Proof.
  intros Hcs Hwx Hwz. unfold SpatialHashGrid_new.
  destruct (Reqb cs 0) eqn:E; [apply Reqb_true in E; lra|].
  case_decide; [|discriminate]. intros [= <-]. split; [|split].
  - constructor; simpl; auto. by rewrite length_replicate.
  - reflexivity.
  - simpl. intros j cell Hj. apply lookup_replicate in Hj. tauto.
Qed.

Lemma SpatialHashGrid_new_Some cs wx wz : 0 < cs → 0 < wx → 0 < wz →
  (Zceil (wx / cs) * Zceil (wz / cs) ≤ 4294967295)%Z →
  is_Some (SpatialHashGrid_new cs wx wz).
Proof.
  intros Hcs Hwx Hwz Hmax. unfold SpatialHashGrid_new.
  destruct (Reqb cs 0) eqn:E; [apply Reqb_true in E; lra|].
  assert (0 ≤ Zceil (wx / cs))%Z.
  { apply le_IZR. pose proof (Zceil_bound (wx / cs)) as [_ Hc].
    pose proof (div_nonneg cs wx Hcs). lra. }
  assert (0 ≤ Zceil (wz / cs))%Z.
  { apply le_IZR. pose proof (Zceil_bound (wz / cs)) as [_ Hc].
    pose proof (div_nonneg cs wz Hcs). lra. }
  rewrite decide_True by nia. eauto.
Qed.

Lemma SpatialHashGrid_new_None cs wx wz :
  (4294967295 < Zceil (wx / cs) * Zceil (wz / cs))%Z →
  SpatialHashGrid_new cs wx wz = None.
Proof.
  intros Hmax. unfold SpatialHashGrid_new.
  destruct (Reqb cs 0); [reflexivity|]. rewrite decide_False by lia.
  reflexivity.
Qed.

Lemma grid20_new : SpatialHashGrid_new 5 20 20 = Some grid20.
Proof.
  unfold SpatialHashGrid_new.
  destruct (Reqb 5 0) eqn:E; [apply Reqb_true in E; lra|].
  replace (Zceil (20 / 5)) with 4%Z by (symmetry; apply Zceil_eq; simpl; lra).
  reflexivity.
Qed.

Lemma grid20_wellFormed : wellFormed grid20.
Proof.
  eapply (SpatialHashGrid_new_wellFormed 5 20 20); [lra..|apply grid20_new].
Qed.

(** ** Clamping of the cell lookup *)

Lemma floor_cell cs v : 0 < cs →
  IZR (Zfloor (v / cs)) * cs <= v < (IZR (Zfloor (v / cs)) + 1) * cs.
Proof.
  intros Hcs. pose proof (Zfloor_bound (v / cs)) as [Hlo Hhi].
  assert (Hq : v / cs * cs = v) by (field; lra).
  split.
  - rewrite <- Hq at 2. apply Rmult_le_compat_r; lra.
  - rewrite <- Hq at 1. apply Rmult_lt_compat_r; lra.
Qed.

(** The index splits into the column of the saturated X and the row of
    the saturated Z. *)
Lemma getCellIndex_split g x z : wellFormed g →
  cellColumn g x z = Zfloor (saturate (worldSizeX g) x / cellSize g) ∧
  cellRow g x z = Zfloor (saturate (worldSizeZ g) z / cellSize g).
Proof.
  intros [Hcs Hwx Hwz Hnx Hnz Hlen]. unfold cellColumn, cellRow.
  rewrite getCellIndex_saturate.
  pose proof (cell_coordinate_range _ _ x Hcs Hwx) as Hcx.
  rewrite <- Hnx in Hcx. split.
  - rewrite Z_mod_plus_full. apply Z.mod_small. lia.
  - rewrite Z_div_plus_full by lia. rewrite Z.div_small by lia. lia.
Qed.

Lemma saturate_top w x x' : w - 0.001 <= x → saturate w x' <= saturate w x.
Proof. intros Hx. rminmax. Qed.

(** The column of the world's upper end: the greatest column that the
    lookup returns, and the last column of the grid when that column
    is at least 0.001 wide. *)
Lemma top_column cs w x (n : Z) : 0 < cs → 0 < w → n = Zceil (w / cs) →
  w - 0.001 <= x →
  (∀ x', (Zfloor (saturate w x' / cs) ≤ Zfloor (saturate w x / cs))%Z) ∧
  (IZR (n - 1) * cs <= w - 0.001 →
   Zfloor (saturate w x / cs) = (n - 1)%Z).
Proof.
  intros Hcs Hw Hn Hx. split.
  - intros x'. apply Zfloor_le, div_le_mono; [exact Hcs|].
    by apply saturate_top.
  - intros Hlast.
    pose proof (cell_coordinate_range cs w x Hcs Hw) as [_ Hhi].
    rewrite <- Hn in Hhi.
    assert (Hn1 : (1 ≤ n)%Z).
    { apply Z.lt_pred_le, lt_IZR. change (Z.pred 1) with 0%Z.
      pose proof (Zceil_bound (w / cs)) as [_ Hc]. rewrite <- Hn in Hc.
      assert (0 < w / cs) by (apply Rdiv_lt_0_compat; lra). lra. }
    assert (H0 : 0 <= IZR (n - 1)) by (apply IZR_le; lia).
    assert (Hsat : saturate w x = w - 0.001) by (rminmax; nra).
    assert (Hge : (n - 1 ≤ Zfloor (saturate w x / cs))%Z).
    { apply Zfloor_lub. rewrite Hsat.
      replace (IZR (n - 1)) with (IZR (n - 1) * cs / cs) by (field; lra).
      by apply div_le_mono. }
    lia.
Qed.

(** C7 (clamping).  For a well-formed grid and a point outside the world
    rectangle, [getCellIndex] gives the index of the nearest point of the
    rectangle, which is also the index of the saturated point the code
    computes; that point is in bounds, and the index is inside the array of
    cells.  The index stands for a column and a row of the grid whose
    square contains the saturated point.  Below zero the point saturates
    to zero and gets the first column (row).  At or beyond the upper end of
    the world it saturates to the point 0.001 inside the end and gets the
    boundary column (row): the greatest one that the lookup returns for any
    point, which is the last of the grid whenever the last one is at least
    0.001 wide. *)
Theorem getCellIndex_clamps g x z :
  wellFormed g → ¬ inBounds g x z →
  getCellIndex g x z =
    getCellIndex g (nearestIn (worldSizeX g) x) (nearestIn (worldSizeZ g) z) ∧
  getCellIndex g x z =
    getCellIndex g (saturate (worldSizeX g) x) (saturate (worldSizeZ g) z) ∧
  inBounds g (saturate (worldSizeX g) x) (saturate (worldSizeZ g) z) ∧
  (0 ≤ getCellIndex g x z < Z.of_nat (length (cells g)))%Z ∧
  is_Some (cellAt (cells g) (getCellIndex g x z)) ∧
  getCellIndex g x z = (cellColumn g x z + cellRow g x z * numCellsX g)%Z ∧
  (0 ≤ cellColumn g x z < numCellsX g)%Z ∧
  (0 ≤ cellRow g x z < numCellsZ g)%Z ∧
  IZR (cellColumn g x z) * cellSize g <= saturate (worldSizeX g) x
    < (IZR (cellColumn g x z) + 1) * cellSize g ∧
  IZR (cellRow g x z) * cellSize g <= saturate (worldSizeZ g) z
    < (IZR (cellRow g x z) + 1) * cellSize g ∧
  (x < 0 → saturate (worldSizeX g) x = 0 ∧ cellColumn g x z = 0%Z) ∧
  (z < 0 → saturate (worldSizeZ g) z = 0 ∧ cellRow g x z = 0%Z) ∧
  (worldSizeX g <= x →
     (0.001 <= worldSizeX g →
      saturate (worldSizeX g) x = worldSizeX g - 0.001) ∧
     (∀ x' z', (cellColumn g x' z' ≤ cellColumn g x z)%Z) ∧
     (IZR (numCellsX g - 1) * cellSize g <= worldSizeX g - 0.001 →
      cellColumn g x z = (numCellsX g - 1)%Z)) ∧
  (worldSizeZ g <= z →
     (0.001 <= worldSizeZ g →
      saturate (worldSizeZ g) z = worldSizeZ g - 0.001) ∧
     (∀ x' z', (cellRow g x' z' ≤ cellRow g x z)%Z) ∧
     (IZR (numCellsZ g - 1) * cellSize g <= worldSizeZ g - 0.001 →
      cellRow g x z = (numCellsZ g - 1)%Z)).
Proof.
  intros Hwf _.
  destruct (getCellIndex_split g x z Hwf) as [Hcol Hrow].
  pose proof Hwf as [Hcs Hwx Hwz Hnx Hnz Hlen].
  pose proof (cell_coordinate_range _ _ x Hcs Hwx) as Hcx.
  pose proof (cell_coordinate_range _ _ z Hcs Hwz) as Hcz.
  rewrite <- Hnx in Hcx. rewrite <- Hnz in Hcz.
  split.
  { rewrite !getCellIndex_saturate, !saturate_nearestIn. reflexivity. }
  split.
  { rewrite !getCellIndex_saturate, !saturate_idem. reflexivity. }
  split; [split; apply saturate_range; assumption|].
  split; [apply getCellIndex_range, Hwf|].
  split; [apply getCellIndex_cell, Hwf|].
  split; [rewrite Hcol, Hrow; apply getCellIndex_saturate|].
  split; [by rewrite Hcol|]. split; [by rewrite Hrow|].
  split; [rewrite Hcol; by apply floor_cell|].
  split; [rewrite Hrow; by apply floor_cell|].
  split.
  { intros Hx. assert (Hs : saturate (worldSizeX g) x = 0) by rminmax.
    split; [exact Hs|]. rewrite Hcol, Hs. apply Zfloor_eq.
    unfold Rdiv. rewrite Rmult_0_l. simpl. lra. }
  split.
  { intros Hz. assert (Hs : saturate (worldSizeZ g) z = 0) by rminmax.
    split; [exact Hs|]. rewrite Hrow, Hs. apply Zfloor_eq.
    unfold Rdiv. rewrite Rmult_0_l. simpl. lra. }
  split.
  - intros Hx.
    destruct (top_column (cellSize g) (worldSizeX g) x (numCellsX g)
                Hcs Hwx Hnx ltac:(lra)) as [Hmax Hlast].
    split; [intros Hw; rminmax|]. split.
    + intros x' z'. destruct (getCellIndex_split g x' z' Hwf) as [-> _].
      rewrite Hcol. apply Hmax.
    + intros Hw. rewrite Hcol. by apply Hlast.
  - intros Hz.
    destruct (top_column (cellSize g) (worldSizeZ g) z (numCellsZ g)
                Hcs Hwz Hnz ltac:(lra)) as [Hmax Hlast].
    split; [intros Hw; rminmax|]. split.
    + intros x' z'. destruct (getCellIndex_split g x' z' Hwf) as [_ ->].
      rewrite Hrow. apply Hmax.
    + intros Hw. rewrite Hrow. by apply Hlast.
Qed.

Lemma getCellIndex_clamps_witness :
  ¬ inBounds grid20 25 (-3) ∧
  getCellIndex grid20 25 (-3) =
    getCellIndex grid20 (nearestIn 20 25) (nearestIn 20 (-3)) ∧
  cellColumn grid20 25 (-3) = 3%Z ∧ cellRow grid20 25 (-3) = 0%Z ∧
  getCellIndex grid20 25 (-3) = 3%Z.
Proof.
  assert (Hout : ¬ inBounds grid20 25 (-3)).
  { unfold inBounds; simpl. lra. }
  split; [exact Hout|].
  destruct (getCellIndex_clamps grid20 25 (-3) grid20_wellFormed Hout)
    as (Hnear & _ & _ & _ & _ & Hidx & _ & _ & _ & _ & _ & Hrow & Hcol & _).
  destruct (Hrow ltac:(lra)) as [_ Hr].
  destruct (Hcol ltac:(simpl; lra)) as (_ & _ & Hc).
  assert (Hlast : IZR (numCellsX grid20 - 1) * cellSize grid20
                  <= worldSizeX grid20 - 0.001).
  { change (IZR 3 * 5 <= 20 - 0.001). lra. }
  specialize (Hc Hlast).
  split; [exact Hnear|]. split; [exact Hc|]. split; [exact Hr|].
  rewrite Hidx, Hc, Hr. reflexivity.
Defined.

(** ** Sets in insertion order *)

Lemma elem_of_SetAdd x y s : y ∈ SetAdd x s ↔ y = x ∨ y ∈ s.
Proof.
  unfold SetAdd. case_decide as Hin.
  - split; [auto|]. intros [-> | H]; assumption.
  - rewrite elem_of_app, list_elem_of_singleton. tauto.
Qed.

Lemma NoDup_SetAdd x s : NoDup s → NoDup (SetAdd x s).
Proof.
  intros Hs. unfold SetAdd. case_decide as Hin; [assumption|].
  apply NoDup_app. split; [assumption|]. split.
  - intros y Hy Hy'. apply list_elem_of_singleton in Hy'. congruence.
  - apply NoDup_singleton.
Qed.

Lemma elem_of_SetDelete x y s : y ∈ SetDelete x s ↔ y ∈ s ∧ y ≠ x.
Proof. unfold SetDelete. rewrite list_elem_of_filter. tauto. Qed.

Lemma NoDup_SetDelete x s : NoDup s → NoDup (SetDelete x s).
Proof. apply NoDup_filter. Qed.

Lemma elem_of_addAll cell nearby y : y ∈ addAll nearby cell ↔ y ∈ nearby ∨ y ∈ cell.
Proof.
  unfold addAll. revert nearby. induction cell as [|o cell IH]; intros nearby; simpl.
  - rewrite elem_of_nil. tauto.
  - rewrite IH, elem_of_SetAdd, elem_of_cons. tauto.
Qed.

Lemma NoDup_addAll cell nearby : NoDup nearby → NoDup (addAll nearby cell).
Proof.
  unfold addAll. revert nearby. induction cell as [|o cell IH]; intros nearby Hn; simpl.
  - assumption.
  - apply IH, NoDup_SetAdd, Hn.
Qed.

(** ** The grid operations keep the grid well formed and exclusive *)

Lemma wellFormed_withCells g cs oc :
  wellFormed g → length cs = length (cells g) → wellFormed (withCells g cs oc).
Proof.
  intros [Hcs Hwx Hwz Hnx Hnz Hlen] Hl. constructor; simpl; auto. congruence.
Qed.

Lemma insertObject_Some g o p : wellFormed g →
  ∃ cell, cellAt (cells g) (getCellIndex g (vx p) (vz p)) = Some cell ∧
    insertObject g o p =
      Some (withCells g
              (<[Z.to_nat (getCellIndex g (vx p) (vz p)) := SetAdd o cell]> (cells g))
              (<[o := getCellIndex g (vx p) (vz p)]> (objectCells g))).
Proof.
  intros Hwf. destruct (getCellIndex_cell g (vx p) (vz p) Hwf) as [cell Hcell].
  exists cell. split; [assumption|]. unfold insertObject. by rewrite Hcell.
Qed.

Lemma insertObject_exclusive g o p g' :
  wellFormed g → exclusive g → insertAllowed g (Insert o p) →
  insertObject g o p = Some g' → wellFormed g' ∧ exclusive g'.
Proof.
  intros Hwf [Htr Hmem Hnd] Hallowed Hins.
  destruct (insertObject_Some g o p Hwf) as (cell & Hcell & Heq).
  rewrite Heq in Hins. injection Hins as <-.
  set (idx := getCellIndex g (vx p) (vz p)) in *.
  destruct (cellAt_lookup _ _ _ Hcell) as [Hidx Hn].
  assert (Hlt : (Z.to_nat idx < length (cells g))%nat)
    by (apply lookup_lt_is_Some; eauto).
  split; [apply wellFormed_withCells; [assumption | apply length_insert]|].
  constructor; simpl.
  - intros o' i Ho'. apply lookup_insert_Some in Ho' as [[<- <-] | [Hne Ho']].
    + exists (SetAdd o cell). split; [|apply elem_of_SetAdd; auto].
      unfold cellAt. rewrite decide_True by assumption.
      by apply list_lookup_insert_eq.
    + destruct (Htr o' i Ho') as (c & Hc & Hin).
      destruct (cellAt_lookup _ _ _ Hc) as [Hi Hci].
      destruct (decide (Z.to_nat idx = Z.to_nat i)) as [Heqi | Hnei].
      * exists (SetAdd o cell). split.
        -- unfold cellAt. rewrite decide_True by assumption. rewrite <- Heqi.
           by apply list_lookup_insert_eq.
        -- apply elem_of_SetAdd. right. rewrite <- Heqi in Hci. congruence.
      * exists c. split; [|assumption].
        unfold cellAt. rewrite decide_True by assumption.
        by rewrite list_lookup_insert_ne.
  - intros j c o' Hj Hin.
    apply list_lookup_insert_Some in Hj as [(<- & <- & _) | [Hne Hj]].
    + apply elem_of_SetAdd in Hin as [-> | Hin].
      * rewrite lookup_insert_eq. f_equal. lia.
      * pose proof (Hmem _ _ _ Hn Hin) as Ho'.
        destruct (decide (o = o')) as [<- | Hoo].
        -- rewrite lookup_insert_eq. f_equal. lia.
        -- by rewrite lookup_insert_ne.
    + pose proof (Hmem _ _ _ Hj Hin) as Ho'.
      destruct (decide (o = o')) as [<- | Hoo].
      * exfalso. simpl in Hallowed. destruct Hallowed as [Hnone | Hsome].
        -- congruence.
        -- rewrite Hsome in Ho'. injection Ho' as Ho'. fold idx in Ho'. lia.
      * by rewrite lookup_insert_ne.
  - intros j c Hj.
    apply list_lookup_insert_Some in Hj as [(<- & <- & _) | [Hne Hj]].
    + apply NoDup_SetAdd. eapply Hnd, Hn.
    + eapply Hnd, Hj.
Qed.

Lemma removeObject_untracked g o :
  objectCells g !! o = None → removeObject g o = Some g.
Proof. intros Hnone. unfold removeObject. by rewrite Hnone. Qed.

Lemma removeObject_exclusive g o :
  wellFormed g → exclusive g →
  ∃ g', removeObject g o = Some g' ∧ wellFormed g' ∧ exclusive g' ∧
        objectCells g' !! o = None.
Proof.
  intros Hwf [Htr Hmem Hnd]. unfold removeObject.
  destruct (objectCells g !! o) as [idx|] eqn:Ho.
  2:{ exists g. split; [reflexivity|]. split; [assumption|].
      split; [constructor; assumption | assumption]. }
  destruct (Htr o idx Ho) as (cell & Hcell & Hin). rewrite Hcell. simpl.
  destruct (cellAt_lookup _ _ _ Hcell) as [Hidx Hn].
  eexists. split; [reflexivity|].
  split; [apply wellFormed_withCells; [assumption | apply length_insert]|].
  split; [|simpl; apply lookup_delete_eq].
  constructor; simpl.
  - intros o' i Ho'. apply lookup_delete_Some in Ho' as [Hne Ho'].
    destruct (Htr o' i Ho') as (c & Hc & Hin').
    destruct (cellAt_lookup _ _ _ Hc) as [Hi Hci].
    destruct (decide (Z.to_nat idx = Z.to_nat i)) as [Heqi | Hnei].
    + exists (SetDelete o cell). split.
      * unfold cellAt. rewrite decide_True by assumption. rewrite <- Heqi.
        apply list_lookup_insert_eq, lookup_lt_is_Some. eauto.
      * apply elem_of_SetDelete. rewrite <- Heqi in Hci.
        split; [congruence | auto].
    + exists c. split; [|assumption].
      unfold cellAt. rewrite decide_True by assumption.
      by rewrite list_lookup_insert_ne.
  - intros j c o' Hj Hin'.
    apply list_lookup_insert_Some in Hj as [(<- & <- & _) | [Hne Hj]].
    + apply elem_of_SetDelete in Hin' as [Hin' Hoo].
      rewrite lookup_delete_ne by auto. eapply Hmem; eauto.
    + pose proof (Hmem _ _ _ Hj Hin') as Ho'.
      destruct (decide (o = o')) as [<- | Hoo].
      * exfalso. rewrite Ho in Ho'. injection Ho' as Ho'. lia.
      * by rewrite lookup_delete_ne.
  - intros j c Hj.
    apply list_lookup_insert_Some in Hj as [(<- & <- & _) | [Hne Hj]].
    + apply NoDup_SetDelete. eapply Hnd, Hn.
    + eapply Hnd, Hj.
Qed.

Lemma updateObject_exclusive g o p :
  wellFormed g → exclusive g →
  ∃ g', updateObject g o p = Some g' ∧ wellFormed g' ∧ exclusive g'.
Proof.
  intros Hwf Hex.
  destruct (removeObject_exclusive g o Hwf Hex) as (g1 & Hrm & Hwf1 & Hex1 & Hno).
  destruct (insertObject_Some g1 o p Hwf1) as (cell & _ & Hins).
  unfold updateObject. rewrite Hrm. simpl. eexists. split; [exact Hins|].
  eapply insertObject_exclusive; [exact Hwf1 | exact Hex1 | | exact Hins].
  simpl. auto.
Qed.

Lemma applyOp_exclusive g op :
  wellFormed g → exclusive g → insertAllowed g op →
  ∃ g', applyOp g op = Some g' ∧ wellFormed g' ∧ exclusive g'.
Proof.
  intros Hwf Hex Hallowed. destruct op as [o p | o p | o]; simpl.
  - destruct (insertObject_Some g o p Hwf) as (cell & _ & Hins).
    eexists. split; [exact Hins|].
    eapply insertObject_exclusive; eauto.
  - apply updateObject_exclusive; assumption.
  - destruct (removeObject_exclusive g o Hwf Hex) as (g' & ? & ? & ? & _). eauto.
Qed.

Lemma applyOps_exclusive ops : ∀ g,
  wellFormed g → exclusive g → admissible g ops →
  ∃ g', applyOps g ops = Some g' ∧ wellFormed g' ∧ exclusive g'.
Proof.
  induction ops as [|op ops IH]; intros g Hwf Hex Hadm; simpl.
  - eauto.
  - destruct Hadm as [Hallowed Hrest].
    destruct (applyOp_exclusive g op Hwf Hex Hallowed) as (g1 & Hop & Hwf1 & Hex1).
    rewrite Hop in Hrest |- *. simpl. apply IH; assumption.
Qed.

Lemma new_exclusive cs wx wz g :
  0 < cs → 0 < wx → 0 < wz →
  SpatialHashGrid_new cs wx wz = Some g → exclusive g.
Proof.
  intros Hcs Hwx Hwz Hnew.
  destruct (SpatialHashGrid_new_wellFormed _ _ _ _ Hcs Hwx Hwz Hnew)
    as (_ & Hmap & Hempty).
  constructor.
  - intros o i. rewrite Hmap, lookup_empty. discriminate.
  - intros j cell o Hj Hin. rewrite (Hempty _ _ Hj) in Hin.
    by apply elem_of_nil in Hin.
  - intros j cell Hj. rewrite (Hempty _ _ Hj). apply NoDup_nil_2.
Qed.

(** ** Cells of concrete positions *)

Lemma getCellIndex_at g cs wx wz (n : Z) x z (i j : Z) :
  cellSize g = cs → worldSizeX g = wx → worldSizeZ g = wz → numCellsX g = n →
  IZR i <= saturate wx x / cs < IZR i + 1 →
  IZR j <= saturate wz z / cs < IZR j + 1 →
  getCellIndex g x z = (i + j * n)%Z.
Proof.
  intros Hcs Hwx Hwz Hnx Hi Hj.
  rewrite getCellIndex_saturate, Hcs, Hwx, Hwz, Hnx.
  by rewrite (Zfloor_eq i _ Hi), (Zfloor_eq j _ Hj).
Qed.

Lemma insertObject_at g cs wx wz (n : Z) o p (i j : Z) cell :
  cellSize g = cs → worldSizeX g = wx → worldSizeZ g = wz → numCellsX g = n →
  IZR i <= saturate wx (vx p) / cs < IZR i + 1 →
  IZR j <= saturate wz (vz p) / cs < IZR j + 1 →
  cellAt (cells g) (i + j * n) = Some cell →
  insertObject g o p =
    Some (withCells g (<[Z.to_nat (i + j * n) := SetAdd o cell]> (cells g))
                      (<[o := (i + j * n)%Z]> (objectCells g))).
Proof.
  intros Hcs Hwx Hwz Hnx Hi Hj Hcell. unfold insertObject.
  rewrite (getCellIndex_at g cs wx wz n _ _ i j Hcs Hwx Hwz Hnx Hi Hj), Hcell.
  reflexivity.
Qed.

(** ** Exclusive membership *)

(** C3, as stated, fails: inserting a tracked object again at a position
    in another cell leaves it in both cells. *)
Lemma exclusive_membership_counterexample :
  ∃ g0 g, SpatialHashGrid_new 5 20 20 = Some g0 ∧
    applyOps g0 [Insert 1%positive (mkVector3 1 0 1);
                 Insert 1%positive (mkVector3 7 0 1)] = Some g ∧
    objectCells g !! 1%positive = Some 1%Z ∧
    cells g !! 0%nat = Some [1%positive] ∧
    cells g !! 1%nat = Some [1%positive] ∧
    ¬ exclusive g.
Proof.
  exists grid20. eexists. split; [apply grid20_new|].
  cbn [applyOps applyOp].
  rewrite (insertObject_at grid20 5 20 20 4 _ _ 0 0 [])
    by first [reflexivity | simpl; rminmax].
  cbn [mbind option_bind].
  rewrite (insertObject_at _ 5 20 20 4 _ _ 1 0 [])
    by first [reflexivity | simpl; rminmax].
  cbn [mbind option_bind].
  split; [reflexivity|]. split; [reflexivity|].
  split; [reflexivity|]. split; [reflexivity|].
  intros [_ Hmem _].
  specialize (Hmem 0%nat [1%positive] 1%positive eq_refl).
  discriminate Hmem. apply list_elem_of_singleton. reflexivity.
Qed.

(** C3 (exclusive membership), amended.  From a grid made by the
    constructor with positive sizes, every sequence of [insertObject],
    [updateObject] and [removeObject] calls in which no [insertObject] is
    made on an object tracked in another cell than the one of the new
    position runs without error and leaves the grid exclusive: every
    tracked object is in the cell recorded for it and in no other, and
    every object in a cell is tracked. *)
Theorem exclusive_membership cs wx wz g0 ops :
  0 < cs → 0 < wx → 0 < wz →
  SpatialHashGrid_new cs wx wz = Some g0 →
  admissible g0 ops →
  ∃ g, applyOps g0 ops = Some g ∧ exclusive g ∧
    (∀ o i, objectCells g !! o = Some i →
       ∀ (j : nat) cell, cells g !! j = Some cell →
         (o ∈ cell ↔ Z.of_nat j = i)) ∧
    (∀ (j : nat) cell o, cells g !! j = Some cell → o ∈ cell →
       is_Some (objectCells g !! o)).
Proof.
  intros Hcs Hwx Hwz Hnew Hadm.
  destruct (SpatialHashGrid_new_wellFormed _ _ _ _ Hcs Hwx Hwz Hnew) as [Hwf _].
  pose proof (new_exclusive _ _ _ _ Hcs Hwx Hwz Hnew) as Hex.
  destruct (applyOps_exclusive ops g0 Hwf Hex Hadm) as (g & Hrun & _ & Hg).
  exists g. split; [assumption|]. split; [assumption|].
  destruct Hg as [Htr Hmem Hnd]. split.
  - intros o i Ho j cell Hj. split.
    + intros Hin. pose proof (Hmem _ _ _ Hj Hin). congruence.
    + intros <-. destruct (Htr _ _ Ho) as (c & Hc & Hin).
      rewrite cellAt_of_nat in Hc. congruence.
  - intros j cell o Hj Hin. rewrite (Hmem _ _ _ Hj Hin). eauto.
Qed.

Lemma exclusive_membership_witness :
  ∃ g, applyOps grid20 [Insert 1%positive (mkVector3 1 0 1);
                        Update 1%positive (mkVector3 7 0 1);
                        Remove 2%positive] = Some g ∧ exclusive g.
Proof.
  destruct (exclusive_membership 5 20 20 grid20
              [Insert 1%positive (mkVector3 1 0 1);
               Update 1%positive (mkVector3 7 0 1);
               Remove 2%positive]) as (g & Hrun & Hex & _).
  - lra.
  - lra.
  - lra.
  - apply grid20_new.
  - simpl. split; [left; reflexivity|].
    destruct (insertObject grid20 1%positive (mkVector3 1 0 1)) as [g1|];
      [|exact I].
    split; [exact I|].
    destruct (updateObject g1 1%positive (mkVector3 7 0 1)) as [g2|];
      [|exact I].
    split; [exact I|]. destruct (removeObject g2 2%positive); exact I.
  - exists g. split; assumption.
Defined.

(** ** Update is remove then insert *)

(** C9 (update equivalence).  [updateObject] leaves the grid as
    [removeObject] followed by [insertObject] does, errors included, and
    on an object that is not tracked it is a plain [insertObject]. *)
Theorem updateObject_remove_insert g o p :
  updateObject g o p = (removeObject g o ≫= λ g', insertObject g' o p) ∧
  (objectCells g !! o = None → updateObject g o p = insertObject g o p).
Proof.
  split; [reflexivity|].
  intros Hnone. unfold updateObject. by rewrite removeObject_untracked.
Qed.

Lemma updateObject_remove_insert_witness :
  objectCells grid20 !! 3%positive = None ∧
  updateObject grid20 3%positive (mkVector3 2 0 2) =
    insertObject grid20 3%positive (mkVector3 2 0 2).
Proof.
  split; [reflexivity|].
  apply (proj2 (updateObject_remove_insert grid20 3%positive (mkVector3 2 0 2))).
  reflexivity.
Defined.

(** ** Queries with a radius that is not positive *)



Lemma findNearbyObjects_empty_x g p r :
  (Zfloor (Rmin (worldSizeX g - 0.001) (vx p + r) / cellSize g) <
   Zfloor (Rmax 0 (vx p - r) / cellSize g))%Z →
  findNearbyObjects g p r = [].
Proof.
  intros Hlt. unfold findNearbyObjects.
  rewrite (seqZ_nil (Zfloor (Rmax 0 (vx p - r) / cellSize g))) by lia.
  simpl. generalize (seqZ (Zfloor (Rmax 0 (vz p - r) / cellSize g))
    (Zfloor (Rmin (worldSizeZ g - 0.001) (vz p + r) / cellSize g) -
     Zfloor (Rmax 0 (vz p - r) / cellSize g) + 1)).
  intros zs. induction zs as [|z zs IH]; [reflexivity | exact IH].
Qed.




Lemma grid20_with_wellFormed o : wellFormed (grid20_with o).
Proof.
  apply wellFormed_withCells; [apply grid20_wellFormed | reflexivity].
Qed.


(** With radius zero the range is empty as well for a position in the
    last 0.001 of the world when a column starts there: the position is
    binned in the column before, the query starts at the column after. *)
Lemma zero_radius_edge_example :
  SpatialHashGrid_new 5 10.0005 10.0005 = Some edgeGrid ∧
  ∃ g, insertObject edgeGrid 1%positive (mkVector3 10.0003 0 1) = Some g ∧
    inBounds g 10.0003 1 ∧
    containingCell g (mkVector3 10.0003 0 1) = [1%positive] ∧
    findNearbyObjects g (mkVector3 10.0003 0 1) 0 = [].
Proof.
  split.
  { unfold SpatialHashGrid_new.
    destruct (Reqb 5 0) eqn:E; [apply Reqb_true in E; lra|].
    replace (Zceil (10.0005 / 5)) with 3%Z
      by (symmetry; apply Zceil_eq; simpl; lra).
    reflexivity. }
  eexists. split.
  { apply (insertObject_at edgeGrid 5 10.0005 10.0005 3 _ _ 1 0 []);
      first [reflexivity | simpl; rminmax]. }
  split; [unfold inBounds; simpl; lra|]. split.
  - unfold containingCell.
    rewrite (getCellIndex_at _ 5 10.0005 10.0005 3 _ _ 1 0)
      by first [reflexivity | simpl; rminmax].
    reflexivity.
  - apply findNearbyObjects_empty_x. simpl.
    rewrite (Zfloor_eq 1 (Rmin (10.0005 - 0.001) (10.0003 + 0) / 5))
      by (simpl; rminmax).
    rewrite (Zfloor_eq 2 (Rmax 0 (10.0003 - 0) / 5)) by (simpl; rminmax).
    lia.
Qed.



(** ** The collision system: frame of a call *)

Lemma clone_eq v : V3.clone v = v.
Proof. by destruct v. Qed.

Lemma sameColliders_refl s : sameColliders s s.
Proof. by repeat split. Qed.

Lemma sameColliders_trans s1 s2 s3 :
  sameColliders s1 s2 → sameColliders s2 s3 → sameColliders s1 s3.
Proof.
  unfold sameColliders. intros (? & ? & ? & ? & ? & ?) (? & ? & ? & ? & ? & ?).
  repeat split; congruence.
Qed.

Lemma checkEach_spec cs : ∀ s v,
  sameColliders s (checkEach s v cs).1 ∧
  (checkEach s v cs).2 = adjustAll (playerRadius s) cs v.
Proof.
  induction cs as [|c cs IH]; intros s v; simpl.
  - split; [apply sameColliders_refl | reflexivity].
  - destruct (IH (countCheck s) (resolveCollider (playerRadius s) c v))
      as [Hsame Hv].
    split; [|exact Hv].
    eapply sameColliders_trans; [|exact Hsame]. by repeat split.
Qed.

Lemma collectActive_subset cols nearby c :
  c ∈ collectActive cols nearby → c ∈ cols.
Proof.
  unfold collectActive.
  assert (Hgen : ∀ acc, (∀ x, x ∈ acc → x ∈ cols) →
    ∀ x, x ∈ fold_left (λ active o,
      match find (λ c, bool_decide (mesh c = o)) cols with
      | Some matchingCollider => activeAdd matchingCollider active
      | None => active
      end) nearby acc → x ∈ cols).
  { induction nearby as [|o nearby IH]; intros acc Hacc x; simpl; [apply Hacc|].
    apply IH. destruct (find _ cols) as [m|] eqn:Hfind; [|exact Hacc].
    intros y Hy. unfold activeAdd in Hy. case_decide; [by apply Hacc|].
    apply elem_of_app in Hy as [Hy | Hy]; [by apply Hacc|].
    apply list_elem_of_singleton in Hy as ->.
    apply list_elem_of_In. eapply find_some, Hfind. }
  apply Hgen. intros x Hx. by apply elem_of_nil in Hx.
Qed.

Lemma selectColliders_spec s st proposed :
  (∀ gridRef, spatialGrid s = Some gridRef → is_Some (grids st !! gridRef)) →
  ∃ cands s', selectColliders s st proposed = Some (cands, s') ∧
    sameColliders s s' ∧
    (∀ c, c ∈ cands → c ∈ colliders s) ∧
    (spatialGrid s = None → cands = colliders s).
Proof.
  intros Hgrid. unfold selectColliders.
  destruct (spatialGrid s) as [gridRef|] eqn:Hsg.
  - destruct (Hgrid gridRef eq_refl) as [grid Hg]. rewrite Hg. simpl.
    eexists _, _. split; [reflexivity|].
    split; [repeat split; simpl; auto|].
    split; [intros c; apply collectActive_subset | discriminate].
  - eexists _, _. split; [reflexivity|].
    split; [apply sameColliders_refl|]. auto.
Qed.

(** What a call with a player collider computes. *)
Lemma checkCollisions_run s st pl pr pc current proposed :
  playerCollider s = Some pc →
  vectors st !! pl = Some current → vectors st !! pr = Some proposed →
  (∀ gridRef, spatialGrid s = Some gridRef → is_Some (grids st !! gridRef)) →
  ∃ cands s',
    checkCollisions s st pl pr =
      Some (fresh (dom (vectors st)),
            mkStore (<[fresh (dom (vectors st)) :=
                        V3.setY (adjustAll (playerRadius s) cands proposed)
                                (vy current)]> (vectors st))
                    (grids st),
            s') ∧
    sameColliders s s' ∧
    (∀ c, c ∈ cands → c ∈ colliders s) ∧
    (spatialGrid s = None → cands = colliders s).
Proof.
  intros Hpc Hpl Hpr Hgrid.
  destruct (selectColliders_spec (resetFrameChecks s)
              (alloc st (V3.clone proposed)).2 proposed Hgrid)
    as (cands & s2 & Hsel & Hsame2 & Hsub & Hall).
  pose proof (checkEach_spec cands s2 (V3.clone proposed)) as [Hsame3 Hadj].
  exists cands, (checkEach s2 (V3.clone proposed) cands).1.
  split; [|split; [|split; [exact Hsub | exact Hall]]].
  - unfold checkCollisions. rewrite Hpc, Hpr. simpl.
    simpl in Hsel. rewrite Hsel. simpl.
    destruct (checkEach s2 (V3.clone proposed) cands) as [s3 adjusted] eqn:Hce.
    simpl in Hadj. subst adjusted.
    assert (Hne : fresh (dom (vectors st)) ≠ pl).
    { intros Heq. pose proof (is_fresh (dom (vectors st))) as Hf.
      rewrite Heq in Hf. apply Hf, elem_of_dom. eauto. }
    rewrite lookup_insert_ne by exact Hne. rewrite Hpl. simpl.
    unfold storeVector. simpl. rewrite insert_insert_eq.
    destruct Hsame2 as (_ & _ & Hr & _). rewrite clone_eq, Hr. reflexivity.
  - eapply sameColliders_trans; [|exact Hsame3].
    eapply sameColliders_trans; [|exact Hsame2]. by repeat split.
Qed.

Lemma validCall_twoVectors current proposed :
  validCall CollisionSystem_new (twoVectors current proposed) 1%positive 2%positive.
Proof.
  split; [|split].
  - exists current. reflexivity.
  - exists proposed. reflexivity.
  - discriminate.
Qed.

(** ** Pass-through without a player collider *)

(** C6 (pass-through).  Without a player collider [checkCollisions]
    returns the very reference [proposedPosition] and changes neither the
    store nor the system; this is so after [clear], which drops the player
    collider. *)
Theorem checkCollisions_pass_through s st pl pr :
  (playerCollider s = None → checkCollisions s st pl pr = Some (pr, st, s)) ∧
  colliders (clear s) = [] ∧ playerCollider (clear s) = None ∧
  checkCollisions (clear s) st pl pr = Some (pr, st, clear s).
Proof.
  split; [|auto]. intros Hnone. unfold checkCollisions. by rewrite Hnone.
Qed.

Lemma checkCollisions_pass_through_witness :
  playerCollider CollisionSystem_new = None ∧
  checkCollisions CollisionSystem_new
    (twoVectors (mkVector3 0 1 3) (mkVector3 0 1 0)) 1%positive 2%positive =
  Some (2%positive, twoVectors (mkVector3 0 1 3) (mkVector3 0 1 0),
        CollisionSystem_new).
Proof.
  split; [reflexivity|].
  apply (proj1 (checkCollisions_pass_through CollisionSystem_new
                  (twoVectors (mkVector3 0 1 3) (mkVector3 0 1 0))
                  1%positive 2%positive)).
  reflexivity.
Defined.

(** ** The vertical coordinate *)

(** C4, as stated, fails: without a player collider the proposed position
    comes back with its own Y. *)
Lemma y_passthrough_counterexample :
  validCall CollisionSystem_new
    (twoVectors (mkVector3 0 1 0) (mkVector3 0 2 0)) 1%positive 2%positive ∧
  ∃ a st' s' v current,
    checkCollisions CollisionSystem_new
      (twoVectors (mkVector3 0 1 0) (mkVector3 0 2 0)) 1%positive 2%positive =
      Some (a, st', s') ∧
    vectors st' !! a = Some v ∧
    vectors (twoVectors (mkVector3 0 1 0) (mkVector3 0 2 0)) !! 1%positive =
      Some current ∧
    vy v ≠ vy current.
Proof.
  split; [apply validCall_twoVectors|].
  eexists _, _, _, (mkVector3 0 2 0), (mkVector3 0 1 0).
  split; [reflexivity|]. split; [reflexivity|]. split; [reflexivity|].
  simpl. lra.
Qed.

(** C4 (Y-passthrough), amended.  When a player collider exists, the Y
    coordinate of the position that [checkCollisions] returns is that of
    [playerPosition], whatever happens to X and Z. *)
Theorem checkCollisions_keeps_y s st pl pr current :
  is_Some (playerCollider s) → validCall s st pl pr →
  vectors st !! pl = Some current →
  ∃ a st' s' v,
    checkCollisions s st pl pr = Some (a, st', s') ∧
    vectors st' !! a = Some v ∧ vy v = vy current.
Proof.
  intros [pc Hpc] (_ & [proposed Hpr] & Hgrid) Hpl.
  destruct (checkCollisions_run s st pl pr pc current proposed Hpc Hpl Hpr Hgrid)
    as (cands & s' & Hrun & _).
  eexists _, _, _, _. split; [exact Hrun|]. simpl.
  split; [apply lookup_insert_eq | reflexivity].
Qed.

Lemma checkCollisions_keeps_y_witness :
  ∃ a st' s' v,
    checkCollisions (createPlayerCollider CollisionSystem_new (mkVector3 0 1 0))
      (twoVectors (mkVector3 0 1 0) (mkVector3 0 2 0)) 1%positive 2%positive =
      Some (a, st', s') ∧
    vectors st' !! a = Some v ∧ vy v = 1.
Proof.
  apply (checkCollisions_keeps_y
           (createPlayerCollider CollisionSystem_new (mkVector3 0 1 0))
           (twoVectors (mkVector3 0 1 0) (mkVector3 0 2 0))
           1%positive 2%positive (mkVector3 0 1 0)).
  - eexists. reflexivity.
  - apply (validCall_twoVectors (mkVector3 0 1 0) (mkVector3 0 2 0)).
  - reflexivity.
Defined.

(** ** Resolution reads the collision state *)

(** C10, as stated, fails in its last part: without a player collider the
    reference returned is [proposedPosition] itself, not a new vector. *)
Lemma read_only_counterexample :
  validCall CollisionSystem_new
    (twoVectors (mkVector3 0 1 3) (mkVector3 0 1 0)) 1%positive 2%positive ∧
  ∃ a st' s',
    checkCollisions CollisionSystem_new
      (twoVectors (mkVector3 0 1 3) (mkVector3 0 1 0)) 1%positive 2%positive =
      Some (a, st', s') ∧
    a = 2%positive ∧
    is_Some (vectors (twoVectors (mkVector3 0 1 3) (mkVector3 0 1 0)) !! a).
Proof.
  split; [apply validCall_twoVectors|].
  eexists _, _, _. split; [reflexivity|]. split; [reflexivity|].
  eexists. reflexivity.
Qed.

(** C10 (read-only resolution), amended.  Every call of [checkCollisions],
    with or without a grid attached, leaves the list of wall colliders, the
    player collider, every grid of the store and every vector that was live
    before the call (both arguments among them) as they were.  With a
    player collider the position returned is a new vector; without one it
    is the reference [proposedPosition] itself. *)
Theorem checkCollisions_read_only s st pl pr :
  validCall s st pl pr →
  ∃ a st' s',
    checkCollisions s st pl pr = Some (a, st', s') ∧
    colliders s' = colliders s ∧
    playerCollider s' = playerCollider s ∧
    spatialGrid s' = spatialGrid s ∧
    grids st' = grids st ∧
    (∀ l, is_Some (vectors st !! l) → vectors st' !! l = vectors st !! l) ∧
    vectors st' !! pl = vectors st !! pl ∧
    vectors st' !! pr = vectors st !! pr ∧
    (is_Some (playerCollider s) →
       vectors st !! a = None ∧ is_Some (vectors st' !! a)) ∧
    (playerCollider s = None → a = pr ∧ st' = st ∧ s' = s).
Proof.
  intros ([current Hpl] & [proposed Hpr] & Hgrid).
  destruct (playerCollider s) as [pc|] eqn:Hpc.
  - destruct (checkCollisions_run s st pl pr pc current proposed
                Hpc Hpl Hpr Hgrid)
      as (cands & s' & Hrun & (Hc & Hp & _ & _ & Hg & _) & _).
    pose proof (is_fresh (dom (vectors st))) as Hfresh.
    apply not_elem_of_dom in Hfresh.
    assert (Hold : ∀ l, is_Some (vectors st !! l) →
      <[fresh (dom (vectors st)) :=
          V3.setY (adjustAll (playerRadius s) cands proposed) (vy current)]>
        (vectors st) !! l = vectors st !! l).
    { intros l [v Hl]. apply lookup_insert_ne. intros Heq.
      rewrite Heq in Hfresh. congruence. }
    eexists _, _, _. split; [exact Hrun|]. simpl.
    split; [exact Hc|]. split; [congruence|]. split; [exact Hg|].
    split; [reflexivity|]. split; [exact Hold|].
    split; [apply Hold; eauto|]. split; [apply Hold; eauto|].
    split; [|discriminate].
    intros _. split; [exact Hfresh|]. rewrite lookup_insert_eq. eauto.
  - exists pr, st, s. unfold checkCollisions. rewrite Hpc.
    repeat (split; [reflexivity|]).
    split; [intros [? [=]] | auto].
Qed.

Lemma checkCollisions_read_only_witness :
  ∃ a st' s',
    checkCollisions (createPlayerCollider CollisionSystem_new (mkVector3 0 1 3))
      (twoVectors (mkVector3 0 1 3) (mkVector3 0 1 0)) 1%positive 2%positive =
      Some (a, st', s') ∧
    colliders s' = [] ∧
    vectors st' !! 2%positive = Some (mkVector3 0 1 0).
Proof.
  destruct (checkCollisions_read_only
              (createPlayerCollider CollisionSystem_new (mkVector3 0 1 3))
              (twoVectors (mkVector3 0 1 3) (mkVector3 0 1 0))
              1%positive 2%positive)
    as (a & st' & s' & Hrun & Hc & _ & _ & _ & _ & _ & Hpr & _).
  - apply (validCall_twoVectors (mkVector3 0 1 3) (mkVector3 0 1 0)).
  - exists a, st', s'. split; [exact Hrun|]. split; [exact Hc | exact Hpr].
Defined.

(** ** Arithmetic of the narrow phase *)

(** Decides the comparisons of a goal whose operands are known numbers. *)
Ltac Rdecide :=
  repeat match goal with
  | |- context [Rltb ?a ?b] =>
      first [ rewrite (proj2 (Rltb_true a b)) by lra
            | rewrite (proj2 (Rltb_false a b)) by lra ]
  | |- context [Reqb ?a ?b] =>
      first [ rewrite (proj2 (Reqb_true a b)) by lra
            | rewrite (proj2 (Reqb_false a b)) by lra ]
  end.

Lemma sum_squares_nonneg a b : 0 <= a * a + b * b.
Proof. nra. Qed.

Lemma distance_nonneg a b : 0 <= sqrt (a * a + b * b).
Proof. apply sqrt_pos. Qed.

Lemma distance_zero a b : sqrt (a * a + b * b) = 0 → a = 0 ∧ b = 0.
Proof.
  intros Hz. apply sqrt_eq_0 in Hz; [|apply sum_squares_nonneg].
  split; nra.
Qed.

Lemma distance_scale k a b : 0 <= k →
  sqrt ((k * a) * (k * a) + (k * b) * (k * b)) = k * sqrt (a * a + b * b).
Proof.
  intros Hk.
  replace ((k * a) * (k * a) + (k * b) * (k * b))
    with ((k * k) * (a * a + b * b)) by ring.
  rewrite sqrt_mult; [|nra|apply sum_squares_nonneg].
  by rewrite sqrt_square.
Qed.

Lemma distance_at_least r a b : 0 <= r → r * r <= a * a + b * b →
  r <= sqrt (a * a + b * b).
Proof.
  intros Hr Hle. rewrite <- (sqrt_square r Hr). by apply sqrt_le_1_alt.
Qed.

(** Pushing a coordinate away from its clamp keeps the clamp. *)
Lemma push_axis lo hi x d r : lo <= hi → 0 < d → d < r →
  Rmax lo (Rmin (x + (x - Rmax lo (Rmin x hi)) / d * (r - d)) hi) =
    Rmax lo (Rmin x hi) ∧
  x + (x - Rmax lo (Rmin x hi)) / d * (r - d) - Rmax lo (Rmin x hi) =
    r / d * (x - Rmax lo (Rmin x hi)).
Proof.
  intros Hbox Hd Hr.
  assert (Hq : 0 < (r - d) / d).
  { apply Rdiv_lt_0_compat; lra. }
  assert (Hx : ∀ u, x + (x - u) / d * (r - d) = x + (x - u) * ((r - d) / d)).
  { intros u. field. lra. }
  split.
  - rewrite Hx. unfold Rmax, Rmin.
    repeat destruct (Rle_dec _ _); try lra; try nra.
  - field. lra.
Qed.

(** ** One collider *)

Lemma resolveCollider_far r c v :
  boxDistance c v >= r → resolveCollider r c v = v.
Proof.
  intros Hfar. unfold resolveCollider.
  change (V2.distanceTo _ _) with (boxDistance c v).
  by rewrite (proj2 (Rltb_false (boxDistance c v) r)) by lra.
Qed.

Lemma adjustAll_far r cands : ∀ v,
  (∀ c, c ∈ cands → boxDistance c v >= r) → adjustAll r cands v = v.
Proof.
  induction cands as [|c cands IH]; intros v Hfar; [reflexivity|].
  unfold adjustAll. cbn [fold_left]. rewrite resolveCollider_far.
  - apply IH. intros c' Hc'. apply Hfar. by right.
  - apply Hfar. by left.
Qed.

Lemma minAxisOf_cases d0 d1 d2 d3 :
  let i := minAxisOf [d0; d1; d2; d3] in
  (i < 4)%nat ∧
  (∀ j, (j < 4)%nat → nth i [d0; d1; d2; d3] 0 <= nth j [d0; d1; d2; d3] 0) ∧
  (∀ j, (j < i)%nat → nth i [d0; d1; d2; d3] 0 < nth j [d0; d1; d2; d3] 0).
Proof.
  unfold minAxisOf. cbn [fold_left nth].
  destruct (Rltb d1 d0) eqn:H1;
    [apply Rltb_true in H1 | apply Rltb_false in H1];
  (destruct (Rltb d2 _) eqn:H2;
    [apply Rltb_true in H2 | apply Rltb_false in H2]);
  (destruct (Rltb d3 _) eqn:H3;
    [apply Rltb_true in H3 | apply Rltb_false in H3]);
  cbn [snd nth]; (split; [lia|]); split; intros j Hj;
  destruct j as [|[|[|[|j]]]]; cbn [nth]; try lra; exfalso; lia.
Qed.

Lemma resolveCollider_clear r c v :
  0 <= vx (size c) → 0 <= vz (size c) →
  boxDistance c (resolveCollider r c v) >= r.
Proof.
  destruct c as [[cx cy cz] [sx sy sz] m]. destruct v as [x y z].
  cbn [size vx vz]. intros Hsx Hsz.
  unfold resolveCollider, V2.distanceTo, V2.normalize, V2.length,
    V3.sub, V3.add, V3.clone, V3.multiplyScalar, V3.setX, V3.setZ.
  cbn [position size vx vy vz px py].
  set (lo1 := cx - sx * 0.5). set (hi1 := cx + sx * 0.5).
  set (lo2 := cz - sz * 0.5). set (hi2 := cz + sz * 0.5).
  assert (Hb1 : lo1 <= hi1) by (unfold lo1, hi1; lra).
  assert (Hb2 : lo2 <= hi2) by (unfold lo2, hi2; lra).
  assert (Hbox : ∀ x' y' z',
    boxDistance (mkWallCollider (mkVector3 cx cy cz) (mkVector3 sx sy sz) m)
                (mkVector3 x' y' z') =
    sqrt ((x' - Rmax lo1 (Rmin x' hi1)) * (x' - Rmax lo1 (Rmin x' hi1)) +
          (z' - Rmax lo2 (Rmin z' hi2)) * (z' - Rmax lo2 (Rmin z' hi2))))
    by reflexivity.
  set (u := Rmax lo1 (Rmin x hi1)). set (w := Rmax lo2 (Rmin z hi2)).
  set (d := sqrt ((x - u) * (x - u) + (z - w) * (z - w))).
  pose proof (distance_nonneg (x - u) (z - w)) as Hd0. fold d in Hd0.
  destruct (Rltb d r) eqn:Hlt;
    [apply Rltb_true in Hlt | apply Rltb_false in Hlt].
  2:{ rewrite Hbox. fold u w d. lra. }
  destruct (Rltb 0 d) eqn:Hpos;
    [apply Rltb_true in Hpos | apply Rltb_false in Hpos].
  - (* pushed out along the normal *)
    rewrite (proj2 (Rltb_true 0 (r - d))) by lra. cbn [andb].
    rewrite (proj2 (Reqb_false d 0)) by lra.
    rewrite Hbox.
    destruct (push_axis lo1 hi1 x d r Hb1 Hpos Hlt) as [Hu Hxu].
    destruct (push_axis lo2 hi2 z d r Hb2 Hpos Hlt) as [Hw Hzw].
    fold u in Hu, Hxu. fold w in Hw, Hzw.
    rewrite Hu, Hw, Hxu, Hzw.
    rewrite distance_scale by (apply Rlt_le, Rdiv_lt_0_compat; lra).
    fold d. apply Req_ge. field. lra.
  - (* the centre is in the box: pushed out along one axis *)
    assert (Hd : d = 0) by lra.
    rewrite Bool.andb_false_r.
    rewrite (proj2 (Reqb_true d 0)) by exact Hd.
    destruct (distance_zero _ _ Hd) as [Hxu Hzw].
    assert (Hx : lo1 <= x <= hi1) by (unfold u in Hxu; rminmax).
    assert (Hz : lo2 <= z <= hi2) by (unfold w in Hzw; rminmax).
    assert (Hr : 0 < r) by lra.
    pose proof (minAxisOf_cases (x - lo1) (hi1 - x) (z - lo2) (hi2 - z))
      as [Hi _].
    destruct (minAxisOf _) as [|[|[|[|i]]]]; [| | | |exfalso; cbn in Hi; lia];
      rewrite Hbox.
    all: apply Rle_ge, distance_at_least; [lra|];
      unfold Rmax, Rmin; repeat destruct (Rle_dec _ _); nra.
Qed.

Lemma resolveCollider_center cy sy m y :
  resolveCollider 0.5 (mkWallCollider (mkVector3 0 cy 0) (mkVector3 4 sy 2) m)
                  (mkVector3 0 y 0) =
  mkVector3 0 y (-1.5).
Proof.
  unfold resolveCollider, V2.distanceTo, V2.normalize, V2.length,
    V3.sub, V3.add, V3.clone, V3.multiplyScalar, V3.setX, V3.setZ.
  cbn [position size vx vy vz px py].
  replace (Rmax (0 - 4 * 0.5) (Rmin 0 (0 + 4 * 0.5))) with 0 by rminmax.
  replace (Rmax (0 - 2 * 0.5) (Rmin 0 (0 + 2 * 0.5))) with 0 by rminmax.
  replace ((0 - 0) * (0 - 0) + (0 - 0) * (0 - 0)) with 0 by ring.
  rewrite sqrt_0. Rdecide. cbn [andb].
  unfold minAxisOf. cbn [fold_left nth]. Rdecide. cbn [snd].
  f_equal. lra.
Qed.

(** A step may carry the player across the box: proposed at 0.3 beyond the
    centre line of the 2 by 2 box, the near side is the closest and the
    player comes out on that side, at the distance of the radius. *)
Lemma resolveCollider_across cy sy m y :
  resolveCollider 0.5 (mkWallCollider (mkVector3 0 cy 0) (mkVector3 2 sy 2) m)
                  (mkVector3 0 y (-0.3)) =
  mkVector3 0 y (-1.5).
Proof.
  unfold resolveCollider, V2.distanceTo, V2.normalize, V2.length,
    V3.sub, V3.add, V3.clone, V3.multiplyScalar, V3.setX, V3.setZ.
  cbn [position size vx vy vz px py].
  replace (Rmax (0 - 2 * 0.5) (Rmin 0 (0 + 2 * 0.5))) with 0 by rminmax.
  replace (Rmax (0 - 2 * 0.5) (Rmin (-0.3) (0 + 2 * 0.5))) with (-0.3)
    by rminmax.
  replace ((0 - 0) * (0 - 0) + (-0.3 - -0.3) * (-0.3 - -0.3)) with 0 by ring.
  rewrite sqrt_0. Rdecide. cbn [andb].
  unfold minAxisOf. cbn [fold_left nth]. Rdecide. cbn [snd].
  f_equal. lra.
Qed.

(** ** A tick of the controller *)

Lemma updateTranslation_run s st translation forward strafe pc :
  playerCollider s = Some pc →
  (∀ gridRef, spatialGrid s = Some gridRef → is_Some (grids st !! gridRef)) →
  ∃ cands st' s',
    updateTranslation s st translation forward strafe =
      Some (V3.setY (adjustAll (playerRadius s) cands
                       (V3.add (V3.add translation forward) strafe))
                    (vy translation),
            st', s') ∧
    sameColliders s s' ∧ grids st' = grids st ∧
    (∀ c, c ∈ cands → c ∈ colliders s) ∧
    (spatialGrid s = None → cands = colliders s).
Proof.
  intros Hpc Hgrid. unfold updateTranslation, alloc. cbn [fst snd vectors grids].
  rewrite !clone_eq.
  set (l1 := fresh (dom (vectors st))).
  set (v1 := <[l1 := translation]> (vectors st)).
  set (l2 := fresh (dom v1)).
  set (proposed := V3.add (V3.add translation forward) strafe).
  set (st2 := mkStore (<[l2 := proposed]> v1) (grids st)).
  assert (Hl12 : l2 ≠ l1).
  { intros Heq. pose proof (is_fresh (dom v1)) as Hf. fold l2 in Hf.
    rewrite Heq in Hf. apply Hf, elem_of_dom. unfold v1.
    rewrite lookup_insert_eq. eauto. }
  destruct (checkCollisions_run s st2 l1 l2 pc translation proposed Hpc)
    as (cands & s' & Hrun & Hsame & Hsub & Hall).
  { simpl. rewrite lookup_insert_ne by exact Hl12. apply lookup_insert_eq. }
  { simpl. apply lookup_insert_eq. }
  { exact Hgrid. }
  exists cands. eexists _, s'. rewrite Hrun. cbn [mbind option_bind vectors].
  rewrite lookup_insert_eq. cbn [mbind option_bind].
  rewrite clone_eq. split; [reflexivity|]. auto.
Qed.

Lemma walk_clear c moves : ∀ s st translation,
  0 <= vx (size c) → 0 <= vz (size c) →
  colliders s = [c] → is_Some (playerCollider s) → spatialGrid s = None →
  ∃ later, walk s st translation moves = Some later ∧
    length later = length moves ∧
    Forall (λ p, boxDistance c p >= playerRadius s) later.
Proof.
  induction moves as [|[forward strafe] moves IH];
    intros s st translation Hsx Hsz Hc [pc Hpc] Hsg.
  - exists []. repeat split. constructor.
  - destruct (updateTranslation_run s st translation forward strafe pc Hpc)
      as (cands & st' & s' & Hrun & Hsame & _ & _ & Hall).
    { rewrite Hsg. discriminate. }
    destruct Hsame as (Hc' & Hpc' & Hr' & _ & Hsg' & _).
    destruct (IH s' st'
      (V3.setY (adjustAll (playerRadius s) cands
                  (V3.add (V3.add translation forward) strafe))
               (vy translation)) Hsx Hsz)
      as (later & Hwalk & Hlen & Hall').
    { congruence. } { rewrite Hpc', Hpc. eauto. } { congruence. }
    cbn [walk]. rewrite Hrun. cbn [mbind option_bind]. rewrite Hwalk.
    cbn [mbind option_bind]. eexists. split; [reflexivity|].
    split; [simpl; congruence|]. constructor.
    + rewrite (Hall Hsg), Hc. unfold adjustAll. cbn [fold_left].
      pose proof (resolveCollider_clear (playerRadius s) c
        (V3.add (V3.add translation forward) strafe) Hsx Hsz) as Hclear.
      exact Hclear.
    + rewrite <- Hr'. exact Hall'.
Qed.

(** ** No overlap, no change *)

(** C5, as stated, fails on the vertical coordinate: with a player collider
    the Y of the result is that of the current position, not that of the
    proposed one, also when no collider is near. *)
Lemma no_overlap_counterexample :
  (∀ c, c ∈ colliders (oneWall (mkVector3 0 1 0) (mkVector3 10 0 10)
                               (mkVector3 2 2 2) 7%positive) →
     boxDistance c (mkVector3 0 2 0) >=
     playerRadius (oneWall (mkVector3 0 1 0) (mkVector3 10 0 10)
                           (mkVector3 2 2 2) 7%positive)) ∧
  ∃ a st' s' v,
    checkCollisions (oneWall (mkVector3 0 1 0) (mkVector3 10 0 10)
                             (mkVector3 2 2 2) 7%positive)
      (twoVectors (mkVector3 0 1 0) (mkVector3 0 2 0)) 1%positive 2%positive =
      Some (a, st', s') ∧
    vectors st' !! a = Some v ∧ v ≠ mkVector3 0 2 0.
Proof.
  assert (Hfar : ∀ c, c ∈ colliders (oneWall (mkVector3 0 1 0)
      (mkVector3 10 0 10) (mkVector3 2 2 2) 7%positive) →
    boxDistance c (mkVector3 0 2 0) >= 0.5).
  { intros c Hc. apply list_elem_of_singleton in Hc as ->.
    unfold boxDistance, V2.distanceTo, V3.clone. cbn [position size vx vz px py].
    apply Rle_ge, distance_at_least; [lra|].
    unfold Rmax, Rmin; repeat destruct (Rle_dec _ _); nra. }
  split; [exact Hfar|].
  destruct (checkCollisions_run
    (oneWall (mkVector3 0 1 0) (mkVector3 10 0 10) (mkVector3 2 2 2) 7%positive)
    (twoVectors (mkVector3 0 1 0) (mkVector3 0 2 0)) 1%positive 2%positive
    (mkPlayerCollider (mkVector3 0 1 0) 0.5 1.8)
    (mkVector3 0 1 0) (mkVector3 0 2 0))
    as (cands & s' & Hrun & _ & Hsub & _); try reflexivity.
  { discriminate. }
  eexists _, _, _, _. split; [exact Hrun|]. cbn [vectors].
  split; [apply lookup_insert_eq|].
  rewrite adjustAll_far by (intros c Hc; apply Hfar, Hsub, Hc).
  unfold V3.setY. cbn [vx vy vz]. intros [= Hy]. lra.
Qed.

(** C5 (no overlap), amended.  If the proposed position is at least the
    player radius away from the box of every wall collider, the position
    returned has the X and Z of the proposed position; its Y is that of
    the current position when a player collider exists, and the proposed
    position itself comes back when none exists.  So the result equals the
    proposed position whenever the two Y agree. *)
Theorem checkCollisions_no_overlap s st pl pr current proposed :
  validCall s st pl pr →
  vectors st !! pl = Some current → vectors st !! pr = Some proposed →
  (∀ c, c ∈ colliders s → boxDistance c proposed >= playerRadius s) →
  ∃ a st' s' v,
    checkCollisions s st pl pr = Some (a, st', s') ∧
    vectors st' !! a = Some v ∧
    vx v = vx proposed ∧ vz v = vz proposed ∧
    (is_Some (playerCollider s) → vy v = vy current) ∧
    (playerCollider s = None → v = proposed) ∧
    (vy current = vy proposed → v = proposed).
Proof.
  intros (_ & _ & Hgrid) Hpl Hpr Hfar.
  destruct (playerCollider s) as [pc|] eqn:Hpc.
  - destruct (checkCollisions_run s st pl pr pc current proposed
                Hpc Hpl Hpr Hgrid) as (cands & s' & Hrun & _ & Hsub & _).
    rewrite adjustAll_far in Hrun by (intros c Hc; apply Hfar, Hsub, Hc).
    eexists _, _, _, _. split; [exact Hrun|]. cbn [vectors].
    split; [apply lookup_insert_eq|].
    destruct proposed as [x y z]. unfold V3.setY. cbn [vx vy vz].
    repeat split; try reflexivity; try discriminate.
    intros ->. reflexivity.
  - exists pr, st, s, proposed. unfold checkCollisions. rewrite Hpc.
    repeat split; try assumption; try reflexivity.
    intros [? [=]].
Qed.

Lemma checkCollisions_no_overlap_witness :
  ∃ a st' s' v,
    checkCollisions (createPlayerCollider CollisionSystem_new (mkVector3 0 1 0))
      (twoVectors (mkVector3 0 1 0) (mkVector3 3 1 4)) 1%positive 2%positive =
      Some (a, st', s') ∧
    vectors st' !! a = Some v ∧ v = mkVector3 3 1 4.
Proof.
  destruct (checkCollisions_no_overlap
              (createPlayerCollider CollisionSystem_new (mkVector3 0 1 0))
              (twoVectors (mkVector3 0 1 0) (mkVector3 3 1 4))
              1%positive 2%positive (mkVector3 0 1 0) (mkVector3 3 1 4))
    as (a & st' & s' & v & Hrun & Hv & _ & _ & _ & _ & Heq).
  - split; [|split].
    + eexists; reflexivity.
    + eexists; reflexivity.
    + discriminate.
  - reflexivity.
  - reflexivity.
  - intros c Hc. simpl in Hc. by apply elem_of_nil in Hc.
  - exists a, st', s', v. split; [exact Hrun|]. split; [exact Hv|].
    apply Heq. reflexivity.
Defined.

(** ** Ejection from the centre of a box *)

(** C2 (axis-ejection determinism).  With one box of size 4 by 2 centred at
    the origin and the proposed position at its centre, the position
    returned keeps X = 0 and has Z = -1.5, which is [boxMin.z - radius]:
    the near and far sides are at the same distance 1, smaller than the
    distance 2 of the left and right sides, and the near side comes first.
    In general the axis chosen is the first, in the order left, right,
    near, far, whose distance is the least. *)
Theorem center_ejection st pl pr start cy sy m y current :
  vectors st !! pl = Some current →
  vectors st !! pr = Some (mkVector3 0 y 0) →
  (∃ a st' s',
     checkCollisions (oneWall start (mkVector3 0 cy 0) (mkVector3 4 sy 2) m)
                     st pl pr = Some (a, st', s') ∧
     vectors st' !! a = Some (mkVector3 0 (vy current) (-1.5))) ∧
  -1.5 = (0 - 2 * 0.5) -
         playerRadius (oneWall start (mkVector3 0 cy 0) (mkVector3 4 sy 2) m) ∧
  (∀ d0 d1 d2 d3,
     (minAxisOf [d0; d1; d2; d3] < 4)%nat ∧
     (∀ j, (j < 4)%nat →
        nth (minAxisOf [d0; d1; d2; d3]) [d0; d1; d2; d3] 0 <=
        nth j [d0; d1; d2; d3] 0) ∧
     (∀ j, (j < minAxisOf [d0; d1; d2; d3])%nat →
        nth (minAxisOf [d0; d1; d2; d3]) [d0; d1; d2; d3] 0 <
        nth j [d0; d1; d2; d3] 0)).
Proof.
  intros Hpl Hpr. split; [|split].
  - destruct (checkCollisions_run
      (oneWall start (mkVector3 0 cy 0) (mkVector3 4 sy 2) m) st pl pr
      (mkPlayerCollider (V3.clone start) 0.5 1.8) current (mkVector3 0 y 0))
      as (cands & s' & Hrun & _ & _ & Hall); try assumption; try reflexivity.
    { discriminate. }
    rewrite (Hall eq_refl) in Hrun.
    eexists _, _, _. split; [exact Hrun|]. cbn [vectors].
    rewrite lookup_insert_eq. f_equal.
    unfold adjustAll, oneWall, addWallCollider, createPlayerCollider.
    cbn [colliders playerRadius CollisionSystem_new app fold_left].
    rewrite clone_eq, resolveCollider_center. reflexivity.
  - unfold oneWall, addWallCollider, createPlayerCollider.
    cbn [playerRadius CollisionSystem_new]. lra.
  - intros d0 d1 d2 d3. apply minAxisOf_cases.
Qed.

Lemma center_ejection_witness :
  ∃ a st' s',
    checkCollisions (oneWall (mkVector3 0 1 0) (mkVector3 0 1 0)
                             (mkVector3 4 2 2) 7%positive)
      (twoVectors (mkVector3 0 1 0) (mkVector3 0 1 0)) 1%positive 2%positive =
      Some (a, st', s') ∧
    vectors st' !! a = Some (mkVector3 0 1 (-1.5)).
Proof.
  apply (proj1 (center_ejection
    (twoVectors (mkVector3 0 1 0) (mkVector3 0 1 0)) 1%positive 2%positive
    (mkVector3 0 1 0) 1 2 7%positive 1 (mkVector3 0 1 0)
    eq_refl eq_refl)).
Defined.

(** ** No penetration *)

(** C1 (no penetration).  With one box of size 2 by 2 centred at the
    origin and a player of radius 0.5 that starts at (0, 3) and moves
    towards the origin along Z in steps shorter than the box, every tick
    of the controller succeeds and after every tick the player is outside
    the box, at a horizontal distance of at least the radius (so at least
    [radius - 1e-6]) from it. *)
Theorem no_penetration st y cy sy m steps :
  Forall (λ d, 0 < d < 2) steps →
  ∃ later,
    walk (oneWall (mkVector3 0 y 3) (mkVector3 0 cy 0) (mkVector3 2 sy 2) m)
         st (mkVector3 0 y 3) (towardsOrigin steps) = Some later ∧
    length later = length steps ∧
    Forall (λ p,
      boxDistance (mkWallCollider (mkVector3 0 cy 0) (mkVector3 2 sy 2) m) p
        >= 0.5 ∧
      boxDistance (mkWallCollider (mkVector3 0 cy 0) (mkVector3 2 sy 2) m) p
        >= 0.5 - 1e-6) later.
Proof.
  intros _.
  destruct (walk_clear
    (mkWallCollider (mkVector3 0 cy 0) (mkVector3 2 sy 2) m)
    (towardsOrigin steps)
    (oneWall (mkVector3 0 y 3) (mkVector3 0 cy 0) (mkVector3 2 sy 2) m)
    st (mkVector3 0 y 3)) as (later & Hwalk & Hlen & Hall).
  - cbn [size vx]. lra.
  - cbn [size vz]. lra.
  - unfold oneWall, addWallCollider. cbn [colliders createPlayerCollider
      CollisionSystem_new app]. by rewrite clone_eq.
  - eexists. reflexivity.
  - reflexivity.
  - exists later. split; [exact Hwalk|].
    split; [rewrite Hlen; unfold towardsOrigin; apply length_fmap|].
    eapply Forall_impl; [exact Hall|]. intros p Hp.
    change (playerRadius _) with 0.5 in Hp. split; lra.
Qed.

Lemma no_penetration_witness :
  ∃ later,
    walk (oneWall (mkVector3 0 1 3) (mkVector3 0 1 0) (mkVector3 2 2 2)
                  7%positive)
         (mkStore ∅ ∅) (mkVector3 0 1 3) (towardsOrigin [0.5; 1.8; 0.3]) =
      Some later ∧
    length later = 3%nat.
Proof.
  destruct (no_penetration (mkStore ∅ ∅) 1 1 2 7%positive [0.5; 1.8; 0.3])
    as (later & Hwalk & Hlen & _).
  - repeat constructor; lra.
  - exists later. split; [exact Hwalk | exact Hlen].
Defined.

(** * Further properties of the grid *)

(** ** The constructor *)

(** Constructed with positive sizes that ask for at most 2^32 - 1 cells,
    the grid exists, has [numCellsX * numCellsZ] empty cells and tracks
    nothing; its columns and rows cover the world and the last one is
    needed: the world ends after the start of the last column and not
    after its end.  With sizes that ask for more cells the constructor
    throws. *)
Theorem SpatialHashGrid_new_covers cs wx wz :
  0 < cs → 0 < wx → 0 < wz →
  ((Zceil (wx / cs) * Zceil (wz / cs) ≤ 4294967295)%Z →
   ∃ g, SpatialHashGrid_new cs wx wz = Some g ∧
     cellSize g = cs ∧ worldSizeX g = wx ∧ worldSizeZ g = wz ∧
     numCellsX g = Zceil (wx / cs) ∧ numCellsZ g = Zceil (wz / cs) ∧
     length (cells g) = Z.to_nat (numCellsX g * numCellsZ g) ∧
     (∀ (j : nat) cell, cells g !! j = Some cell → cell = []) ∧
     objectCells g = ∅ ∧
     (1 ≤ numCellsX g)%Z ∧ (1 ≤ numCellsZ g)%Z ∧
     IZR (numCellsX g - 1) * cs < wx <= IZR (numCellsX g) * cs ∧
     IZR (numCellsZ g - 1) * cs < wz <= IZR (numCellsZ g) * cs) ∧
  ((4294967295 < Zceil (wx / cs) * Zceil (wz / cs))%Z →
   SpatialHashGrid_new cs wx wz = None).
Proof.
  intros Hcs Hwx Hwz. split; [|apply SpatialHashGrid_new_None].
  intros Hmax.
  destruct (SpatialHashGrid_new_Some cs wx wz Hcs Hwx Hwz Hmax) as [g Hg].
  exists g. split; [exact Hg|].
  destruct (SpatialHashGrid_new_wellFormed _ _ _ _ Hcs Hwx Hwz Hg)
    as ([_ _ _ Hnx Hnz Hlen] & Hmap & Hempty).
  assert (Hdims : cellSize g = cs ∧ worldSizeX g = wx ∧ worldSizeZ g = wz).
  { unfold SpatialHashGrid_new in Hg. destruct (Reqb cs 0); [discriminate|].
    case_decide; [|discriminate]. by injection Hg as <-. }
  destruct Hdims as (Ecs & Ewx & Ewz). rewrite Ecs, Ewx in Hnx.
  rewrite Ecs, Ewz in Hnz.
  assert (Hbound : ∀ w, 0 < w →
    (1 ≤ Zceil (w / cs))%Z ∧
    IZR (Zceil (w / cs) - 1) * cs < w <= IZR (Zceil (w / cs)) * cs).
  { intros w Hw. pose proof (Zceil_bound (w / cs)) as [Hlo Hhi].
    assert (Hq : w / cs * cs = w) by (field; lra).
    assert (Hpos : 0 < w / cs) by (apply Rdiv_lt_0_compat; lra).
    split.
    - apply Z.lt_pred_le. apply lt_IZR. change (Z.pred 1) with 0%Z. lra.
    - rewrite minus_IZR. split.
      + rewrite <- Hq at 2. apply Rmult_lt_compat_r; lra.
      + rewrite <- Hq at 1. apply Rmult_le_compat_r; lra. }
  destruct (Hbound wx Hwx) as [H1x Hbx]. destruct (Hbound wz Hwz) as [H1z Hbz].
  rewrite <- Hnx in H1x, Hbx. rewrite <- Hnz in H1z, Hbz.
  repeat (split; [assumption|]). assumption.
Qed.

Lemma SpatialHashGrid_new_covers_witness :
  (∃ g, SpatialHashGrid_new 5 20 20 = Some g ∧ length (cells g) = 16%nat) ∧
  SpatialHashGrid_new 0.001 100 100 = None.
Proof.
  split.
  - destruct (proj1 (SpatialHashGrid_new_covers 5 20 20
                       ltac:(lra) ltac:(lra) ltac:(lra)))
      as (g & Hg & _ & _ & _ & _ & _ & Hlen & _).
    { replace (Zceil (20 / 5)) with 4%Z
        by (symmetry; apply Zceil_eq; simpl; lra).
      lia. }
    exists g. split; [exact Hg|].
    rewrite grid20_new in Hg. injection Hg as <-. reflexivity.
  - apply (proj2 (SpatialHashGrid_new_covers 0.001 100 100
                    ltac:(lra) ltac:(lra) ltac:(lra))).
    replace (Zceil (100 / 0.001)) with 100000%Z
      by (symmetry; apply Zceil_eq; simpl; lra).
    lia.
Defined.

(** ** The cell of a point *)

(** For a point inside the world, at most [worldSize - 0.001] on both axes,
    the index splits into a column and a row of the grid whose square
    contains the point. *)
Theorem getCellIndex_contains g x z :
  wellFormed g →
  0 <= x <= worldSizeX g - 0.001 → 0 <= z <= worldSizeZ g - 0.001 →
  (0 ≤ getCellIndex g x z `mod` numCellsX g < numCellsX g)%Z ∧
  (0 ≤ getCellIndex g x z `div` numCellsX g < numCellsZ g)%Z ∧
  IZR (getCellIndex g x z `mod` numCellsX g) * cellSize g <= x
    < (IZR (getCellIndex g x z `mod` numCellsX g) + 1) * cellSize g ∧
  IZR (getCellIndex g x z `div` numCellsX g) * cellSize g <= z
    < (IZR (getCellIndex g x z `div` numCellsX g) + 1) * cellSize g.
Proof.
  intros [Hcs Hwx Hwz Hnx Hnz Hlen] Hx Hz.
  rewrite getCellIndex_saturate.
  pose proof (cell_coordinate_range _ _ x Hcs Hwx) as Hcx.
  pose proof (cell_coordinate_range _ _ z Hcs Hwz) as Hcz.
  rewrite <- Hnx in Hcx. rewrite <- Hnz in Hcz.
  replace (saturate (worldSizeX g) x) with x in * by rminmax.
  replace (saturate (worldSizeZ g) z) with z in * by rminmax.
  set (cx := Zfloor (x / cellSize g)) in *.
  set (cz := Zfloor (z / cellSize g)) in *.
  assert (Hmod : ((cx + cz * numCellsX g) `mod` numCellsX g = cx)%Z).
  { rewrite Z_mod_plus_full. apply Z.mod_small. lia. }
  assert (Hdiv : ((cx + cz * numCellsX g) `div` numCellsX g = cz)%Z).
  { rewrite Z_div_plus_full by lia. rewrite Z.div_small by lia. lia. }
  rewrite Hmod, Hdiv.
  assert (Hcell : ∀ v, IZR (Zfloor (v / cellSize g)) * cellSize g <= v
                       < (IZR (Zfloor (v / cellSize g)) + 1) * cellSize g).
  { intros v. pose proof (Zfloor_bound (v / cellSize g)) as [Hlo Hhi].
    assert (Hq : v / cellSize g * cellSize g = v) by (field; lra).
    split.
    - rewrite <- Hq at 2. apply Rmult_le_compat_r; lra.
    - rewrite <- Hq at 1. apply Rmult_lt_compat_r; lra. }
  split; [lia|]. split; [lia|]. split; apply Hcell.
Qed.

Lemma getCellIndex_contains_witness :
  IZR (getCellIndex grid20 7 12 `mod` numCellsX grid20) * cellSize grid20 <= 7
    < (IZR (getCellIndex grid20 7 12 `mod` numCellsX grid20) + 1) * cellSize grid20.
Proof.
  apply (getCellIndex_contains grid20 7 12 grid20_wellFormed);
    simpl; lra.
Defined.

(** ** Insertion, removal and relocation *)

Lemma grid20_with_exclusive o : exclusive (grid20_with o).
Proof.
  constructor.
  - intros o' i Ho. cbn [grid20_with objectCells withCells grid20] in Ho.
    apply lookup_insert_Some in Ho as [[<- <-] | [_ Ho]];
      [|by rewrite lookup_empty in Ho].
    exists [o]. split; [reflexivity | by left].
  - intros j cell o' Hj Hin. cbn [grid20_with cells withCells grid20] in Hj.
    apply list_lookup_insert_Some in Hj as [(<- & <- & _) | [Hne Hj]].
    + apply list_elem_of_singleton in Hin as ->.
      cbn [grid20_with objectCells withCells grid20].
      by rewrite lookup_insert_eq.
    + apply lookup_replicate in Hj as [-> _]. by apply elem_of_nil in Hin.
  - intros j cell Hj. cbn [grid20_with cells withCells grid20] in Hj.
    apply list_lookup_insert_Some in Hj as [(<- & <- & _) | [Hne Hj]].
    + apply NoDup_singleton.
    + apply lookup_replicate in Hj as [-> _]. apply NoDup_nil_2.
Qed.


Lemma withCells_same g : withCells g (cells g) (objectCells g) = g.
Proof. by destruct g. Qed.

Lemma SetDelete_fresh o cell : o ∉ cell → SetDelete o (SetAdd o cell) = cell.
Proof.
  intros Hnot. unfold SetAdd. rewrite decide_False by exact Hnot.
  unfold SetDelete. rewrite filter_app.
  assert (Hid : filter (λ y, y ≠ o) cell = cell).
  { clear -Hnot. induction cell as [|y cell IH]; [reflexivity|].
    apply not_elem_of_cons in Hnot as [Hne Hnot].
    rewrite filter_cons_True by auto. by rewrite IH. }
  rewrite Hid, filter_cons_False by auto. apply app_nil_r.
Qed.

Lemma insertObject_effect g o p :
  wellFormed g →
  ∃ g', insertObject g o p = Some g' ∧ wellFormed g' ∧
    objectCells g' !! o = Some (getCellIndex g (vx p) (vz p)) ∧
    (∃ cell, cellAt (cells g') (getCellIndex g (vx p) (vz p)) = Some cell ∧
             o ∈ cell) ∧
    length (cells g') = length (cells g) ∧
    (∀ o', o' ≠ o → objectCells g' !! o' = objectCells g !! o') ∧
    (∀ o' (j : nat), o' ≠ o →
       (∃ cell, cells g' !! j = Some cell ∧ o' ∈ cell) ↔
       (∃ cell, cells g !! j = Some cell ∧ o' ∈ cell)).
Proof.
  intros Hwf. destruct (insertObject_Some g o p Hwf) as (cell & Hcell & Hins).
  set (idx := getCellIndex g (vx p) (vz p)) in *.
  destruct (cellAt_lookup _ _ _ Hcell) as [Hidx Hn].
  assert (Hlt : (Z.to_nat idx < length (cells g))%nat)
    by (apply lookup_lt_is_Some; eauto).
  eexists. split; [exact Hins|].
  split; [apply wellFormed_withCells; [assumption | apply length_insert]|].
  cbn [cells objectCells withCells].
  split; [apply lookup_insert_eq|]. split.
  { exists (SetAdd o cell). split; [|apply elem_of_SetAdd; auto].
    unfold cellAt. rewrite decide_True by assumption.
    by apply list_lookup_insert_eq. }
  split; [apply length_insert|]. split.
  { intros o' Hne. by apply lookup_insert_ne. }
  intros o' j Hne. destruct (decide (Z.to_nat idx = j)) as [<- | Hj].
  - rewrite list_lookup_insert_eq by assumption. rewrite Hn. split.
    + intros (c & [= <-] & Hin). exists cell. split; [reflexivity|].
      apply elem_of_SetAdd in Hin as [-> | Hin]; [contradiction | assumption].
    + intros (c & [= <-] & Hin). eexists. split; [reflexivity|].
      apply elem_of_SetAdd. auto.
  - by rewrite list_lookup_insert_ne.
Qed.

(** On a well-formed grid [insertObject] does not throw; afterwards the
    object is tracked with the cell of the position and is a member of that
    cell, the number of cells is the same, and every other object keeps its
    tracking entry and its memberships. *)
Theorem insertObject_lookup g o p :
  wellFormed g →
  ∃ g', insertObject g o p = Some g' ∧ wellFormed g' ∧
    objectCells g' !! o = Some (getCellIndex g (vx p) (vz p)) ∧
    (∃ cell, cellAt (cells g') (getCellIndex g (vx p) (vz p)) = Some cell ∧
             o ∈ cell) ∧
    length (cells g') = length (cells g) ∧
    (∀ o', o' ≠ o → objectCells g' !! o' = objectCells g !! o') ∧
    (∀ o' (j : nat), o' ≠ o →
       (∃ cell, cells g' !! j = Some cell ∧ o' ∈ cell) ↔
       (∃ cell, cells g !! j = Some cell ∧ o' ∈ cell)).
Proof. apply insertObject_effect. Qed.

Lemma insertObject_lookup_witness :
  ∃ g', insertObject grid20 1%positive (mkVector3 7 0 12) = Some g' ∧
    objectCells g' !! 1%positive = Some (getCellIndex grid20 7 12).
Proof.
  destruct (insertObject_lookup grid20 1%positive (mkVector3 7 0 12)
              grid20_wellFormed) as (g' & Hins & _ & Htr & _).
  exists g'. split; [exact Hins | exact Htr].
Defined.

(** Inserting an object that an exclusive grid does not track and removing
    it again gives back the grid as it was, cell by cell. *)
Theorem insertObject_removeObject_roundtrip g o p :
  wellFormed g → exclusive g → objectCells g !! o = None →
  (insertObject g o p ≫= λ g', removeObject g' o) = Some g.
Proof.
  intros Hwf [_ Hmem _] Hnone.
  destruct (insertObject_Some g o p Hwf) as (cell & Hcell & Hins).
  rewrite Hins. cbn [mbind option_bind].
  set (idx := getCellIndex g (vx p) (vz p)) in *.
  destruct (cellAt_lookup _ _ _ Hcell) as [Hidx Hn].
  assert (Hlt : (Z.to_nat idx < length (cells g))%nat)
    by (apply lookup_lt_is_Some; eauto).
  assert (Hnot : o ∉ cell).
  { intros Hin. pose proof (Hmem _ _ _ Hn Hin). congruence. }
  unfold removeObject. cbn [objectCells cells withCells].
  rewrite lookup_insert_eq. unfold cellAt. rewrite decide_True by assumption.
  rewrite list_lookup_insert_eq by assumption. cbn [mbind option_bind].
  rewrite SetDelete_fresh by exact Hnot.
  rewrite list_insert_insert_eq, (list_insert_id _ _ _ Hn).
  rewrite (delete_insert_id _ _ _ Hnone).
  unfold withCells. cbn [cellSize worldSizeX worldSizeZ numCellsX numCellsZ].
  f_equal. by destruct g.
Qed.

Lemma insertObject_removeObject_roundtrip_witness :
  (insertObject (grid20_with 1%positive) 2%positive (mkVector3 7 0 12) ≫=
     λ g', removeObject g' 2%positive) = Some (grid20_with 1%positive).
Proof.
  apply (insertObject_removeObject_roundtrip (grid20_with 1%positive)
           2%positive (mkVector3 7 0 12) (grid20_with_wellFormed 1%positive)).
  - apply grid20_with_exclusive.
  - reflexivity.
Defined.

Lemma removeObject_effect g o :
  wellFormed g → exclusive g →
  ∃ g', removeObject g o = Some g' ∧ wellFormed g' ∧ exclusive g' ∧
    objectCells g' !! o = None ∧
    (∀ (j : nat) cell, cells g' !! j = Some cell → o ∉ cell) ∧
    length (cells g') = length (cells g) ∧
    (∀ o', o' ≠ o → objectCells g' !! o' = objectCells g !! o') ∧
    (∀ o' (j : nat), o' ≠ o →
       (∃ cell, cells g' !! j = Some cell ∧ o' ∈ cell) ↔
       (∃ cell, cells g !! j = Some cell ∧ o' ∈ cell)).
Proof.
  intros Hwf Hex.
  destruct (removeObject_exclusive g o Hwf Hex) as (g' & Hrm & Hwf' & Hex' & Hno).
  exists g'. split; [exact Hrm|]. split; [exact Hwf'|]. split; [exact Hex'|].
  split; [exact Hno|]. split.
  { intros j cell Hj Hin. pose proof (ex_member g' Hex' _ _ _ Hj Hin).
    congruence. }
  unfold removeObject in Hrm. destruct (objectCells g !! o) as [idx|] eqn:Ho.
  2:{ injection Hrm as <-. repeat split; auto. }
  destruct (ex_tracked g Hex o idx Ho) as (cell & Hcell & Hin).
  rewrite Hcell in Hrm. cbn [mbind option_bind] in Hrm. injection Hrm as <-.
  destruct (cellAt_lookup _ _ _ Hcell) as [Hidx Hn].
  assert (Hlt : (Z.to_nat idx < length (cells g))%nat)
    by (apply lookup_lt_is_Some; eauto).
  cbn [cells objectCells withCells].
  split; [apply length_insert|]. split.
  { intros o' Hne. by apply lookup_delete_ne. }
  intros o' j Hne. destruct (decide (Z.to_nat idx = j)) as [<- | Hj].
  - rewrite list_lookup_insert_eq by assumption. rewrite Hn. split.
    + intros (c & [= <-] & Hin'). exists cell. split; [reflexivity|].
      by apply elem_of_SetDelete in Hin' as [Hin' _].
    + intros (c & [= <-] & Hin'). eexists. split; [reflexivity|].
      apply elem_of_SetDelete. auto.
  - by rewrite list_lookup_insert_ne.
Qed.



(** On a well-formed exclusive grid [updateObject] does not throw;
    afterwards the object is tracked with the cell of the new position and
    is a member of that cell and of no other, whether it was tracked before
    or not, and the tracking of every other object is as before. *)
Theorem updateObject_moves g o p :
  wellFormed g → exclusive g →
  ∃ g', updateObject g o p = Some g' ∧ wellFormed g' ∧ exclusive g' ∧
    objectCells g' !! o = Some (getCellIndex g (vx p) (vz p)) ∧
    (∀ (j : nat) cell, cells g' !! j = Some cell →
       (o ∈ cell ↔ Z.of_nat j = getCellIndex g (vx p) (vz p))) ∧
    (∀ o', o' ≠ o → objectCells g' !! o' = objectCells g !! o').
Proof.
  intros Hwf Hex.
  destruct (removeObject_effect g o Hwf Hex)
    as (g1 & Hrm & Hwf1 & Hex1 & Hno & _ & _ & Hother1 & _).
  destruct (insertObject_effect g1 o p Hwf1)
    as (g' & Hins & Hwf' & Htr & _ & _ & Hother & _).
  assert (Hidx : getCellIndex g1 (vx p) (vz p) = getCellIndex g (vx p) (vz p)).
  { unfold removeObject in Hrm. destruct (objectCells g !! o).
    - destruct (cellAt (cells g) z); [|discriminate].
      cbn [mbind option_bind] in Hrm. by injection Hrm as <-.
    - by injection Hrm as <-. }
  rewrite Hidx in Htr.
  assert (Hex' : exclusive g').
  { eapply insertObject_exclusive; [exact Hwf1 | exact Hex1 | | exact Hins].
    simpl. auto. }
  exists g'. split; [unfold updateObject; rewrite Hrm; exact Hins|].
  split; [exact Hwf'|]. split; [exact Hex'|]. split; [exact Htr|]. split.
  - intros j cell Hj. split.
    + intros Hin. pose proof (ex_member g' Hex' _ _ _ Hj Hin). congruence.
    + intros Hji. destruct (ex_tracked g' Hex' _ _ Htr) as (c & Hc & Hin).
      rewrite <- Hji, cellAt_of_nat in Hc. congruence.
  - intros o' Hne. rewrite Hother, Hother1 by assumption. reflexivity.
Qed.

Lemma updateObject_moves_witness :
  ∃ g', updateObject grid20 1%positive (mkVector3 7 0 12) = Some g' ∧
    objectCells g' !! 1%positive = Some (getCellIndex grid20 7 12).
Proof.
  destruct (updateObject_moves grid20 1%positive (mkVector3 7 0 12)
              grid20_wellFormed) as (g' & Hup & _ & _ & Htr & _).
  - apply (new_exclusive 5 20 20); [lra..|apply grid20_new].
  - exists g'. split; [exact Hup | exact Htr].
Defined.

(** ** Range queries *)

Lemma scan_members g xs : ∀ zs acc o,
  o ∈ fold_left (λ nearby z,
        fold_left (λ nearby x,
          match cellAt (cells g) (x + z * numCellsX g) with
          | Some cell => addAll nearby cell
          | None => nearby
          end) xs nearby) zs acc ↔
  o ∈ acc ∨ ∃ x z cell, x ∈ xs ∧ z ∈ zs ∧
    cellAt (cells g) (x + z * numCellsX g) = Some cell ∧ o ∈ cell.
Proof.
  assert (Hrow : ∀ z xs' acc o,
    o ∈ fold_left (λ nearby x,
          match cellAt (cells g) (x + z * numCellsX g) with
          | Some cell => addAll nearby cell
          | None => nearby
          end) xs' acc ↔
    o ∈ acc ∨ ∃ x cell, x ∈ xs' ∧
      cellAt (cells g) (x + z * numCellsX g) = Some cell ∧ o ∈ cell).
  { intros z xs'. induction xs' as [|x xs' IH]; intros acc o; cbn [fold_left].
    - split; [auto|]. intros [H | (x & c & Hx & _)]; [exact H|].
      by apply elem_of_nil in Hx.
    - rewrite IH. split.
      + intros [Hacc | (x' & c & Hx' & Hc & Hin)].
        * destruct (cellAt (cells g) (x + z * numCellsX g)) as [c|] eqn:Hc;
            [|auto].
          apply elem_of_addAll in Hacc as [Hacc | Hin]; [auto|].
          right. exists x, c. split; [by left | auto].
        * right. exists x', c. split; [by right | auto].
      + intros [Hacc | (x' & c & Hx' & Hc & Hin)].
        * left. destruct (cellAt (cells g) (x + z * numCellsX g)); [|auto].
          apply elem_of_addAll. auto.
        * apply elem_of_cons in Hx' as [-> | Hx'].
          -- left. rewrite Hc. apply elem_of_addAll. auto.
          -- right. exists x', c. auto. }
  induction zs as [|z zs IH]; intros acc o; cbn [fold_left].
  - split; [auto|]. intros [H | (x & z & c & _ & Hz & _)]; [exact H|].
    by apply elem_of_nil in Hz.
  - rewrite IH, Hrow. split.
    + intros [[Hacc | (x & c & Hx & Hc & Hin)] | (x & z' & c & Hx & Hz & Hc & Hin)].
      * auto.
      * right. exists x, z, c. split; [exact Hx|]. split; [by left | auto].
      * right. exists x, z', c. split; [exact Hx|]. split; [by right | auto].
    + intros [Hacc | (x & z' & c & Hx & Hz & Hc & Hin)]; [auto|].
      apply elem_of_cons in Hz as [-> | Hz].
      * left. right. exists x, c. auto.
      * right. exists x, z', c. auto.
Qed.

Lemma scan_NoDup g xs : ∀ zs acc, NoDup acc →
  NoDup (fold_left (λ nearby z,
        fold_left (λ nearby x,
          match cellAt (cells g) (x + z * numCellsX g) with
          | Some cell => addAll nearby cell
          | None => nearby
          end) xs nearby) zs acc).
Proof.
  assert (Hrow : ∀ z xs' acc, NoDup acc →
    NoDup (fold_left (λ nearby x,
          match cellAt (cells g) (x + z * numCellsX g) with
          | Some cell => addAll nearby cell
          | None => nearby
          end) xs' acc)).
  { intros z xs'. induction xs' as [|x xs' IH]; intros acc Hacc; cbn [fold_left].
    - exact Hacc.
    - apply IH. destruct (cellAt _ _); [by apply NoDup_addAll | exact Hacc]. }
  induction zs as [|z zs IH]; intros acc Hacc; cbn [fold_left].
  - exact Hacc.
  - apply IH, Hrow, Hacc.
Qed.

Lemma query_members g p r o :
  NoDup (findNearbyObjects g p r) ∧
  (o ∈ findNearbyObjects g p r ↔
   ∃ (x z : Z) cell,
     (Zfloor (Rmax 0 (vx p - r) / cellSize g) ≤ x
        ≤ Zfloor (Rmin (worldSizeX g - 0.001) (vx p + r) / cellSize g))%Z ∧
     (Zfloor (Rmax 0 (vz p - r) / cellSize g) ≤ z
        ≤ Zfloor (Rmin (worldSizeZ g - 0.001) (vz p + r) / cellSize g))%Z ∧
     cellAt (cells g) (x + z * numCellsX g) = Some cell ∧ o ∈ cell).
Proof.
  unfold findNearbyObjects. split; [apply scan_NoDup, NoDup_nil_2|].
  rewrite scan_members. split.
  - intros [Hnil | (x & z & c & Hx & Hz & Hc & Hin)];
      [by apply elem_of_nil in Hnil|].
    apply elem_of_seqZ in Hx. apply elem_of_seqZ in Hz.
    exists x, z, c. repeat split; try assumption; lia.
  - intros (x & z & c & Hx & Hz & Hc & Hin). right. exists x, z, c.
    split; [apply elem_of_seqZ; lia|]. split; [apply elem_of_seqZ; lia|]. auto.
Qed.

(** [findNearbyObjects] returns, without repetition, exactly the members
    of the cells whose column and row lie in the ranges computed from the
    position and the radius. *)
Theorem findNearbyObjects_members g p r o :
  NoDup (findNearbyObjects g p r) ∧
  (o ∈ findNearbyObjects g p r ↔
   ∃ (x z : Z) cell,
     (Zfloor (Rmax 0 (vx p - r) / cellSize g) ≤ x
        ≤ Zfloor (Rmin (worldSizeX g - 0.001) (vx p + r) / cellSize g))%Z ∧
     (Zfloor (Rmax 0 (vz p - r) / cellSize g) ≤ z
        ≤ Zfloor (Rmin (worldSizeZ g - 0.001) (vz p + r) / cellSize g))%Z ∧
     cellAt (cells g) (x + z * numCellsX g) = Some cell ∧ o ∈ cell).
Proof. apply query_members. Qed.

Lemma Rabs_le_bounds a b : Rabs a <= b → - b <= a <= b.
Proof. unfold Rabs. destruct (Rcase_abs a); lra. Qed.

Lemma query_reaches g p r q o cell :
  wellFormed g →
  0.001 <= worldSizeX g → 0.001 <= worldSizeZ g →
  Rabs (vx p - vx q) <= r → Rabs (vz p - vz q) <= r →
  0 <= vx p + r → vx p - r <= worldSizeX g - 0.001 →
  0 <= vz p + r → vz p - r <= worldSizeZ g - 0.001 →
  cellAt (cells g) (getCellIndex g (vx q) (vz q)) = Some cell → o ∈ cell →
  o ∈ findNearbyObjects g p r.
Proof.
  intros Hwf Hwx Hwz Hdx Hdz Hx1 Hx2 Hz1 Hz2 Hcell Hin.
  pose proof (wf_cellSize g Hwf) as Hcs.
  apply (proj2 (query_members g p r o)).
  exists (Zfloor (saturate (worldSizeX g) (vx q) / cellSize g)),
         (Zfloor (saturate (worldSizeZ g) (vz q) / cellSize g)), cell.
  apply Rabs_le_bounds in Hdx. apply Rabs_le_bounds in Hdz.
  split; [|split; [|split; [exact Hcell | exact Hin]]].
  - split; apply Zfloor_le, div_le_mono; try assumption; rminmax.
  - split; apply Zfloor_le, div_le_mono; try assumption; rminmax.
Qed.

(** Nothing within the radius is missed.  On a well-formed grid of a world
    at least 0.001 wide and deep, if the square of half-width [radius]
    around the position reaches into the world, every member of the cell
    of a point [q] within [radius] of the position on both axes is
    returned. *)
Theorem findNearbyObjects_complete g p r q o cell :
  wellFormed g →
  0.001 <= worldSizeX g → 0.001 <= worldSizeZ g →
  Rabs (vx p - vx q) <= r → Rabs (vz p - vz q) <= r →
  0 <= vx p + r → vx p - r <= worldSizeX g - 0.001 →
  0 <= vz p + r → vz p - r <= worldSizeZ g - 0.001 →
  cellAt (cells g) (getCellIndex g (vx q) (vz q)) = Some cell → o ∈ cell →
  o ∈ findNearbyObjects g p r.
Proof. apply query_reaches. Qed.

Lemma findNearbyObjects_complete_witness :
  1%positive ∈ findNearbyObjects (grid20_with 1%positive) (mkVector3 0 0 0) 3.
Proof.
  apply (findNearbyObjects_complete (grid20_with 1%positive)
           (mkVector3 0 0 0) 3 (mkVector3 2 0 2) 1%positive [1%positive]
           (grid20_with_wellFormed 1%positive)).
  - simpl. lra.
  - simpl. lra.
  - simpl. apply Rabs_le. lra.
  - simpl. apply Rabs_le. lra.
  - simpl. lra.
  - simpl. lra.
  - simpl. lra.
  - simpl. lra.
  - rewrite (getCellIndex_at _ 5 20 20 4 _ _ 0 0)
      by first [reflexivity | simpl; rminmax].
    reflexivity.
  - by left.
Defined.

Lemma grid20_with_query :
  1%positive ∈ findNearbyObjects (grid20_with 1%positive) (mkVector3 0 0 0) 3.
Proof.
  apply (query_reaches (grid20_with 1%positive)
           (mkVector3 0 0 0) 3 (mkVector3 2 0 2) 1%positive [1%positive]
           (grid20_with_wellFormed 1%positive)).
  - simpl. lra.
  - simpl. lra.
  - simpl. apply Rabs_le. lra.
  - simpl. apply Rabs_le. lra.
  - simpl. lra.
  - simpl. lra.
  - simpl. lra.
  - simpl. lra.
  - rewrite (getCellIndex_at _ 5 20 20 4 _ _ 0 0)
      by first [reflexivity | simpl; rminmax].
    reflexivity.
  - by left.
Qed.

(** Nothing far away is returned.  On a well-formed exclusive grid an
    object returned by a query and tracked with the cell of a point [q]
    inside the world (at most [worldSize - 0.001] on both axes) has [q]
    less than [radius + cellSize] from the position on both axes. *)
Theorem findNearbyObjects_near g p r q o :
  wellFormed g → exclusive g →
  0 <= vx q <= worldSizeX g - 0.001 → 0 <= vz q <= worldSizeZ g - 0.001 →
  objectCells g !! o = Some (getCellIndex g (vx q) (vz q)) →
  o ∈ findNearbyObjects g p r →
  Rabs (vx p - vx q) < r + cellSize g ∧ Rabs (vz p - vz q) < r + cellSize g.
Proof.
  intros Hwf Hex Hqx Hqz Htr Hin.
  pose proof Hwf as [Hcs Hwx Hwz Hnx Hnz Hlen].
  apply (proj2 (query_members g p r o)) in Hin
    as (x & z & c & Hx & Hz & Hc & Hin).
  assert (Hx0 : (0 ≤ x)%Z).
  { etransitivity; [|apply Hx]. apply Zfloor_lub. simpl.
    apply div_nonneg; [assumption | rminmax]. }
  assert (Hz0 : (0 ≤ z)%Z).
  { etransitivity; [|apply Hz]. apply Zfloor_lub. simpl.
    apply div_nonneg; [assumption | rminmax]. }
  assert (Hxn : (x < numCellsX g)%Z).
  { eapply Z.le_lt_trans; [apply Hx|]. rewrite Hnx. apply lt_IZR.
    pose proof (Zfloor_bound
      (Rmin (worldSizeX g - 0.001) (vx p + r) / cellSize g)) as [Hf _].
    pose proof (Zceil_bound (worldSizeX g / cellSize g)) as [_ Hc'].
    assert (Rmin (worldSizeX g - 0.001) (vx p + r) / cellSize g
            < worldSizeX g / cellSize g)
      by (apply div_lt_mono; [assumption | rminmax]).
    lra. }
  destruct (cellAt_lookup _ _ _ Hc) as [Hi Hci].
  pose proof (ex_member g Hex _ _ _ Hci Hin) as Htr'.
  rewrite Htr in Htr'. injection Htr' as Hidx.
  rewrite Z2Nat.id in Hidx by assumption.
  rewrite getCellIndex_saturate in Hidx.
  pose proof (cell_coordinate_range _ _ (vx q) Hcs Hwx) as Hcx.
  rewrite <- Hnx in Hcx.
  replace (saturate (worldSizeX g) (vx q)) with (vx q) in * by rminmax.
  replace (saturate (worldSizeZ g) (vz q)) with (vz q) in * by rminmax.
  assert (Hcolx : Zfloor (vx q / cellSize g) = x).
  { apply (f_equal (λ t, t `mod` numCellsX g)%Z) in Hidx.
    rewrite !Z_mod_plus_full in Hidx.
    rewrite !Z.mod_small in Hidx by lia. exact Hidx. }
  assert (Hcolz : Zfloor (vz q / cellSize g) = z).
  { rewrite Hcolx in Hidx. apply (Z.mul_cancel_r _ _ (numCellsX g)); lia. }
  assert (Hclose : ∀ v w hi (k : Z),
    Zfloor (v / cellSize g) = k →
    (Zfloor (Rmax 0 (w - r) / cellSize g) ≤ k
       ≤ Zfloor (Rmin hi (w + r) / cellSize g))%Z →
    Rabs (w - v) < r + cellSize g).
  { intros v w hi k Hk [Hlo Hhi].
    pose proof (Zfloor_bound (v / cellSize g)) as [Hv1 Hv2]. rewrite Hk in *.
    pose proof (Zfloor_bound (Rmax 0 (w - r) / cellSize g)) as [_ Hl2].
    pose proof (Zfloor_bound (Rmin hi (w + r) / cellSize g)) as [Hh1 _].
    apply IZR_le in Hlo, Hhi.
    assert (Hq : ∀ t, t / cellSize g * cellSize g = t) by (intros; field; lra).
    assert (H1 : Rmax 0 (w - r) / cellSize g < v / cellSize g + 1) by lra.
    assert (H2 : v / cellSize g < Rmin hi (w + r) / cellSize g + 1) by lra.
    apply (Rmult_lt_compat_r (cellSize g)) in H1; [|assumption].
    apply (Rmult_lt_compat_r (cellSize g)) in H2; [|assumption].
    rewrite Rmult_plus_distr_r, Hq in H1, H2. rewrite Hq in H1, H2.
    apply Rabs_def1; rminmax. }
  split.
  - eapply Hclose; [exact Hcolx | exact Hx].
  - eapply Hclose; [exact Hcolz | exact Hz].
Qed.

Lemma findNearbyObjects_near_witness :
  1%positive ∈ findNearbyObjects (grid20_with 1%positive) (mkVector3 0 0 0) 3 ∧
  Rabs (0 - 2) < 3 + 5.
Proof.
  assert (Hin : 1%positive ∈
    findNearbyObjects (grid20_with 1%positive) (mkVector3 0 0 0) 3)
    by apply grid20_with_query.
  split; [exact Hin|].
  apply (findNearbyObjects_near (grid20_with 1%positive) (mkVector3 0 0 0) 3
           (mkVector3 2 0 2) 1%positive (grid20_with_wellFormed 1%positive)).
  - apply grid20_with_exclusive.
  - simpl. lra.
  - simpl. lra.
  - rewrite (getCellIndex_at _ 5 20 20 4 _ _ 0 0)
      by first [reflexivity | simpl; rminmax].
    reflexivity.
  - exact Hin.
Defined.

(** ** Clearing the grid *)

Lemma SpatialHashGrid_clear_empties_aux g :
  cellSize (SpatialHashGrid_clear g) = cellSize g ∧
  worldSizeX (SpatialHashGrid_clear g) = worldSizeX g ∧
  worldSizeZ (SpatialHashGrid_clear g) = worldSizeZ g ∧
  length (cells (SpatialHashGrid_clear g)) = length (cells g) ∧
  (∀ (j : nat) cell, cells (SpatialHashGrid_clear g) !! j = Some cell →
     cell = []) ∧
  objectCells (SpatialHashGrid_clear g) = ∅ ∧
  exclusive (SpatialHashGrid_clear g) ∧
  (wellFormed g → wellFormed (SpatialHashGrid_clear g)) ∧
  (∀ p r, findNearbyObjects (SpatialHashGrid_clear g) p r = []) ∧
  (∀ o, removeObject (SpatialHashGrid_clear g) o = Some (SpatialHashGrid_clear g)).
Proof.
  assert (Hempty : ∀ (j : nat) cell,
    cells (SpatialHashGrid_clear g) !! j = Some cell → cell = []).
  { intros j cell Hj. cbn [SpatialHashGrid_clear cells withCells] in Hj.
    change (map (λ _ : list positive, []) (cells g))
      with ((λ _ : list positive, @nil positive) <$> cells g) in Hj.
    rewrite list_lookup_fmap in Hj. destruct (cells g !! j); [|discriminate].
    by injection Hj as <-. }
  repeat (split; [reflexivity|]).
  split; [cbn [SpatialHashGrid_clear cells withCells]; apply length_map|].
  split; [exact Hempty|]. split; [reflexivity|]. split.
  { constructor.
    - intros o i Ho. cbn [SpatialHashGrid_clear objectCells withCells] in Ho.
      by rewrite lookup_empty in Ho.
    - intros j cell o Hj Hin. rewrite (Hempty _ _ Hj) in Hin.
      by apply elem_of_nil in Hin.
    - intros j cell Hj. rewrite (Hempty _ _ Hj). apply NoDup_nil_2. }
  split.
  { intros Hwf. apply wellFormed_withCells; [exact Hwf | apply length_map]. }
  split.
  - intros p r.
    destruct (findNearbyObjects (SpatialHashGrid_clear g) p r) as [|o l] eqn:Hq;
      [reflexivity|].
    assert (Hin : o ∈ findNearbyObjects (SpatialHashGrid_clear g) p r)
      by (rewrite Hq; by left).
    apply (proj2 (query_members _ p r o)) in Hin as (x & z & c & _ & _ & Hc & Hin).
    destruct (cellAt_lookup _ _ _ Hc) as [_ Hc'].
    rewrite (Hempty _ _ Hc') in Hin. by apply elem_of_nil in Hin.
  - intros o. apply removeObject_untracked.
    cbn [SpatialHashGrid_clear objectCells withCells]. apply lookup_empty.
Qed.

(** [clear] keeps the sizes and the number of cells, empties every cell
    and the tracking map; the cleared grid is exclusive, is well formed if
    the grid was, and every query on it returns nothing. *)
Theorem SpatialHashGrid_clear_empties g :
  cellSize (SpatialHashGrid_clear g) = cellSize g ∧
  worldSizeX (SpatialHashGrid_clear g) = worldSizeX g ∧
  worldSizeZ (SpatialHashGrid_clear g) = worldSizeZ g ∧
  length (cells (SpatialHashGrid_clear g)) = length (cells g) ∧
  (∀ (j : nat) cell, cells (SpatialHashGrid_clear g) !! j = Some cell →
     cell = []) ∧
  objectCells (SpatialHashGrid_clear g) = ∅ ∧
  exclusive (SpatialHashGrid_clear g) ∧
  (wellFormed g → wellFormed (SpatialHashGrid_clear g)) ∧
  (∀ p r, findNearbyObjects (SpatialHashGrid_clear g) p r = []) ∧
  (∀ o, removeObject (SpatialHashGrid_clear g) o = Some (SpatialHashGrid_clear g)).
Proof. apply SpatialHashGrid_clear_empties_aux. Qed.

Lemma SpatialHashGrid_clear_empties_witness :
  wellFormed (SpatialHashGrid_clear (grid20_with 1%positive)).
Proof.
  apply (SpatialHashGrid_clear_empties (grid20_with 1%positive)).
  apply grid20_with_wellFormed.
Defined.

(** * Further properties of the collision system *)

(** ** One collider, in general *)

Lemma resolveCollider_y r c v : vy (resolveCollider r c v) = vy v.
Proof.
  unfold resolveCollider.
  destruct (Rltb _ r); [|reflexivity].
  destruct (_ && _); [reflexivity|].
  destruct (Reqb _ 0); [|reflexivity].
  destruct (minAxisOf _) as [|[|[|[|i]]]]; reflexivity.
Qed.

Lemma resolveCollider_exact r c v :
  0 <= vx (size c) → 0 <= vz (size c) → boxDistance c v < r →
  boxDistance c (resolveCollider r c v) = r.
Proof.
  destruct c as [[cx cy cz] [sx sy sz] m]. destruct v as [x y z].
  cbn [size vx vz]. intros Hsx Hsz.
  unfold resolveCollider, boxDistance, V2.distanceTo, V2.normalize, V2.length,
    V3.sub, V3.add, V3.clone, V3.multiplyScalar, V3.setX, V3.setZ.
  cbn [position size vx vy vz px py].
  set (lo1 := cx - sx * 0.5). set (hi1 := cx + sx * 0.5).
  set (lo2 := cz - sz * 0.5). set (hi2 := cz + sz * 0.5).
  assert (Hb1 : lo1 <= hi1) by (unfold lo1, hi1; lra).
  assert (Hb2 : lo2 <= hi2) by (unfold lo2, hi2; lra).
  set (u := Rmax lo1 (Rmin x hi1)). set (w := Rmax lo2 (Rmin z hi2)).
  set (d := sqrt ((x - u) * (x - u) + (z - w) * (z - w))).
  pose proof (distance_nonneg (x - u) (z - w)) as Hd0. fold d in Hd0.
  intros Hlt. rewrite (proj2 (Rltb_true d r)) by exact Hlt.
  destruct (Rltb 0 d) eqn:Hpos;
    [apply Rltb_true in Hpos | apply Rltb_false in Hpos].
  - rewrite (proj2 (Rltb_true 0 (r - d))) by lra. cbn [andb].
    rewrite (proj2 (Reqb_false d 0)) by lra. cbn [vx vz].
    destruct (push_axis lo1 hi1 x d r Hb1 Hpos Hlt) as [Hu Hxu].
    destruct (push_axis lo2 hi2 z d r Hb2 Hpos Hlt) as [Hw Hzw].
    fold u in Hu, Hxu. fold w in Hw, Hzw.
    rewrite Hu, Hw, Hxu, Hzw.
    rewrite distance_scale by (apply Rlt_le, Rdiv_lt_0_compat; lra).
    fold d. field. lra.
  - assert (Hd : d = 0) by lra.
    rewrite Bool.andb_false_r.
    rewrite (proj2 (Reqb_true d 0)) by exact Hd.
    destruct (distance_zero _ _ Hd) as [Hxu Hzw].
    assert (Hx : lo1 <= x <= hi1) by (unfold u in Hxu; rminmax).
    assert (Hz : lo2 <= z <= hi2) by (unfold w in Hzw; rminmax).
    assert (Hr : 0 < r) by lra.
    assert (Hsq : ∀ a b, a * a + b * b = r * r →
      sqrt (a * a + b * b) = r).
    { intros a b ->. apply sqrt_square. lra. }
    pose proof (minAxisOf_cases (x - lo1) (hi1 - x) (z - lo2) (hi2 - z))
      as [Hi _].
    destruct (minAxisOf _) as [|[|[|[|i]]]]; [| | | |exfalso; cbn in Hi; lia];
      cbn [vx vz]; apply Hsq;
      unfold Rmax, Rmin; repeat destruct (Rle_dec _ _); nra.
Qed.

(** Resolving against a box with non-negative extents leaves the position
    at a distance of at least the radius from the box, exactly the radius
    whenever the position was closer; it never changes Y; and resolving the
    result again against the same box changes nothing. *)
Theorem resolveCollider_settles r c v :
  0 <= vx (size c) → 0 <= vz (size c) →
  boxDistance c (resolveCollider r c v) >= r ∧
  (boxDistance c v < r → boxDistance c (resolveCollider r c v) = r) ∧
  (boxDistance c v >= r → resolveCollider r c v = v) ∧
  vy (resolveCollider r c v) = vy v ∧
  resolveCollider r c (resolveCollider r c v) = resolveCollider r c v.
Proof.
  intros Hsx Hsz.
  pose proof (resolveCollider_clear r c v Hsx Hsz) as Hclear.
  split; [exact Hclear|].
  split; [apply resolveCollider_exact; assumption|].
  split; [apply resolveCollider_far|].
  split; [apply resolveCollider_y|].
  apply resolveCollider_far, Hclear.
Qed.

Lemma resolveCollider_settles_witness :
  boxDistance (mkWallCollider (mkVector3 0 1 0) (mkVector3 2 2 2) 7%positive)
    (resolveCollider 0.5
       (mkWallCollider (mkVector3 0 1 0) (mkVector3 2 2 2) 7%positive)
       (mkVector3 0 1 1.2)) >= 0.5.
Proof.
  apply (resolveCollider_settles 0.5
           (mkWallCollider (mkVector3 0 1 0) (mkVector3 2 2 2) 7%positive)
           (mkVector3 0 1 1.2)); simpl; lra.
Defined.

(** A position inside or on a box is moved along one axis only: with a
    positive radius it lands the radius outside the side whose distance is
    the least, the first such side in the order left, right, near, far, and
    its other coordinates stay. *)
Theorem resolveCollider_ejects r c v :
  0 < r →
  vx (position c) - vx (size c) * 0.5 <= vx v <= vx (position c) + vx (size c) * 0.5 →
  vz (position c) - vz (size c) * 0.5 <= vz v <= vz (position c) + vz (size c) * 0.5 →
  resolveCollider r c v =
    match minAxisOf [ vx v - (vx (position c) - vx (size c) * 0.5);
                      vx (position c) + vx (size c) * 0.5 - vx v;
                      vz v - (vz (position c) - vz (size c) * 0.5);
                      vz (position c) + vz (size c) * 0.5 - vz v ] with
    | 0%nat => mkVector3 (vx (position c) - vx (size c) * 0.5 - r) (vy v) (vz v)
    | 1%nat => mkVector3 (vx (position c) + vx (size c) * 0.5 + r) (vy v) (vz v)
    | 2%nat => mkVector3 (vx v) (vy v) (vz (position c) - vz (size c) * 0.5 - r)
    | _ => mkVector3 (vx v) (vy v) (vz (position c) + vz (size c) * 0.5 + r)
    end.
Proof.
  destruct c as [[cx cy cz] [sx sy sz] m]. destruct v as [x y z].
  cbn [position size vx vy vz]. intros Hr Hx Hz.
  unfold resolveCollider, V2.distanceTo, V2.normalize, V2.length,
    V3.sub, V3.add, V3.clone, V3.multiplyScalar, V3.setX, V3.setZ.
  cbn [position size vx vy vz px py].
  replace (Rmax (cx - sx * 0.5) (Rmin x (cx + sx * 0.5))) with x by rminmax.
  replace (Rmax (cz - sz * 0.5) (Rmin z (cz + sz * 0.5))) with z by rminmax.
  replace ((x - x) * (x - x) + (z - z) * (z - z)) with 0 by ring.
  rewrite sqrt_0. Rdecide. cbn [andb].
  pose proof (minAxisOf_cases (x - (cx - sx * 0.5)) (cx + sx * 0.5 - x)
                (z - (cz - sz * 0.5)) (cz + sz * 0.5 - z)) as [Hi _].
  destruct (minAxisOf _) as [|[|[|[|i]]]]; try reflexivity.
  exfalso. cbn in Hi. lia.
Qed.

Lemma resolveCollider_ejects_witness :
  resolveCollider 0.5
    (mkWallCollider (mkVector3 0 1 0) (mkVector3 2 2 2) 7%positive)
    (mkVector3 0.4 1 0.9) =
  match minAxisOf [0.4 - (0 - 2 * 0.5); 0 + 2 * 0.5 - 0.4;
                   0.9 - (0 - 2 * 0.5); 0 + 2 * 0.5 - 0.9] with
  | 0%nat => mkVector3 (0 - 2 * 0.5 - 0.5) 1 0.9
  | 1%nat => mkVector3 (0 + 2 * 0.5 + 0.5) 1 0.9
  | 2%nat => mkVector3 0.4 1 (0 - 2 * 0.5 - 0.5)
  | _ => mkVector3 0.4 1 (0 + 2 * 0.5 + 0.5)
  end.
Proof.
  apply (resolveCollider_ejects 0.5
           (mkWallCollider (mkVector3 0 1 0) (mkVector3 2 2 2) 7%positive)
           (mkVector3 0.4 1 0.9)); simpl; lra.
Defined.

(** ** What a call checks and counts *)

Lemma checkEach_counts cs : ∀ s v,
  lastFrameCollisionChecks (checkEach s v cs).1 =
    (lastFrameCollisionChecks s + Z.of_nat (length cs))%Z ∧
  totalCollisionChecks (checkEach s v cs).1 =
    (totalCollisionChecks s + Z.of_nat (length cs))%Z ∧
  activeColliders (checkEach s v cs).1 = activeColliders s.
Proof.
  induction cs as [|c cs IH]; intros s v; cbn [checkEach length].
  - cbn [fst]. repeat split; lia.
  - destruct (IH (countCheck s) (resolveCollider (playerRadius (countCheck s)) c v))
      as (H1 & H2 & H3).
    rewrite H1, H2, H3. cbn [countCheck lastFrameCollisionChecks
      totalCollisionChecks activeColliders]. repeat split; lia.
Qed.

Lemma checkCollisions_detail s st pl pr pc current proposed :
  playerCollider s = Some pc →
  vectors st !! pl = Some current → vectors st !! pr = Some proposed →
  (∀ gridRef, spatialGrid s = Some gridRef → is_Some (grids st !! gridRef)) →
  ∃ s',
    checkCollisions s st pl pr =
      Some (fresh (dom (vectors st)),
            mkStore (<[fresh (dom (vectors st)) :=
                        V3.setY (adjustAll (playerRadius s)
                                   (candidates s st proposed) proposed)
                                (vy current)]> (vectors st))
                    (grids st),
            s') ∧
    sameColliders s s' ∧
    lastFrameCollisionChecks s' =
      Z.of_nat (length (candidates s st proposed)) ∧
    totalCollisionChecks s' =
      (totalCollisionChecks s + Z.of_nat (length (candidates s st proposed)))%Z ∧
    activeColliders s' =
      match spatialGrid s with
      | Some _ => candidates s st proposed
      | None => activeColliders s
      end.
Proof.
  intros Hpc Hpl Hpr Hgrid.
  assert (Hsel : ∃ s2,
    selectColliders (resetFrameChecks s) (alloc st (V3.clone proposed)).2
      proposed = Some (candidates s st proposed, s2) ∧
    sameColliders s s2 ∧ lastFrameCollisionChecks s2 = 0%Z ∧
    totalCollisionChecks s2 = totalCollisionChecks s ∧
    activeColliders s2 = match spatialGrid s with
                         | Some _ => candidates s st proposed
                         | None => activeColliders s
                         end).
  { unfold selectColliders, candidates. cbn [resetFrameChecks spatialGrid
      colliders maxCheckDistance alloc snd grids].
    destruct (spatialGrid s) as [gridRef|] eqn:Hsg.
    - destruct (Hgrid gridRef eq_refl) as [grid Hg]. rewrite Hg.
      cbn [mbind option_bind]. eexists. split; [reflexivity|].
      split; [by repeat split|]. by repeat split.
    - eexists. split; [reflexivity|]. split; [by repeat split|].
      by repeat split. }
  destruct Hsel as (s2 & Hsel & Hsame2 & Hl2 & Ht2 & Ha2).
  pose proof (checkEach_spec (candidates s st proposed) s2 (V3.clone proposed))
    as [Hsame3 Hadj].
  pose proof (checkEach_counts (candidates s st proposed) s2 (V3.clone proposed))
    as (Hl3 & Ht3 & Ha3).
  exists (checkEach s2 (V3.clone proposed) (candidates s st proposed)).1.
  split; [|split; [|split; [|split]]].
  - unfold checkCollisions. rewrite Hpc, Hpr. cbn [mbind option_bind].
    cbn [alloc snd] in Hsel. cbn [alloc]. rewrite Hsel. cbn [mbind option_bind].
    destruct (checkEach s2 (V3.clone proposed) (candidates s st proposed))
      as [s3 adjusted] eqn:Hce.
    cbn [snd] in Hadj. subst adjusted. cbn [fst vectors].
    assert (Hne : fresh (dom (vectors st)) ≠ pl).
    { intros Heq. pose proof (is_fresh (dom (vectors st))) as Hf.
      rewrite Heq in Hf. apply Hf, elem_of_dom. eauto. }
    rewrite lookup_insert_ne by exact Hne. rewrite Hpl. cbn [mbind option_bind].
    unfold storeVector. cbn [vectors grids]. rewrite insert_insert_eq.
    destruct Hsame2 as (_ & _ & Hr & _). rewrite clone_eq, Hr. reflexivity.
  - eapply sameColliders_trans; [exact Hsame2 | exact Hsame3].
  - rewrite Hl3, Hl2. lia.
  - rewrite Ht3, Ht2. lia.
  - rewrite Ha3, Ha2. reflexivity.
Qed.

Lemma collectActive_length cols nearby :
  (length (collectActive cols nearby) ≤ length nearby)%nat.
Proof.
  unfold collectActive.
  assert (Hgen : ∀ acc,
    (length (fold_left (λ active o,
      match find (λ c, bool_decide (mesh c = o)) cols with
      | Some matchingCollider => activeAdd matchingCollider active
      | None => active
      end) nearby acc) ≤ length acc + length nearby)%nat).
  { induction nearby as [|o nearby IH]; intros acc; cbn [fold_left length];
      [lia|].
    etransitivity; [apply IH|].
    destruct (find _ cols); [|lia].
    unfold activeAdd. case_decide; [lia|]. rewrite length_app. simpl. lia. }
  apply (Hgen []).
Qed.

Lemma collectActive_first cols nearby c :
  c ∈ collectActive cols nearby →
  mesh c ∈ nearby ∧ find (λ x, bool_decide (mesh x = mesh c)) cols = Some c.
Proof.
  unfold collectActive.
  assert (Hgen : ∀ acc,
    (∀ x, x ∈ acc → mesh x ∈ nearby ∧
       find (λ y, bool_decide (mesh y = mesh x)) cols = Some x) →
    ∀ seen rest, nearby = seen ++ rest →
    ∀ x, x ∈ fold_left (λ active o,
      match find (λ c, bool_decide (mesh c = o)) cols with
      | Some matchingCollider => activeAdd matchingCollider active
      | None => active
      end) rest acc →
    mesh x ∈ nearby ∧ find (λ y, bool_decide (mesh y = mesh x)) cols = Some x).
  { intros acc Hacc seen rest. revert acc Hacc seen.
    induction rest as [|o rest IH]; intros acc Hacc seen Hsplit x;
      cbn [fold_left]; [apply Hacc|].
    apply (IH _) with (seen := seen ++ [o]); [|by rewrite <- app_assoc].
    intros y Hy. destruct (find _ cols) as [m|] eqn:Hfind; [|by apply Hacc].
    unfold activeAdd in Hy. case_decide; [by apply Hacc|].
    apply elem_of_app in Hy as [Hy | Hy]; [by apply Hacc|].
    apply list_elem_of_singleton in Hy as ->.
    pose proof (find_some _ _ Hfind) as [_ Hm].
    apply bool_decide_eq_true in Hm. rewrite Hm. split; [|exact Hfind].
    rewrite Hsplit. apply elem_of_app. right. by left. }
  apply (Hgen [] (λ x Hx, False_rect _ (proj1 (elem_of_nil x) Hx)) [] nearby eq_refl).
Qed.

Lemma collectActive_NoDup cols nearby :
  NoDup (mesh <$> collectActive cols nearby).
Proof.
  unfold collectActive.
  assert (Hgen : ∀ acc, NoDup (mesh <$> acc) →
    NoDup (mesh <$> fold_left (λ active o,
      match find (λ c, bool_decide (mesh c = o)) cols with
      | Some matchingCollider => activeAdd matchingCollider active
      | None => active
      end) nearby acc)).
  { induction nearby as [|o nearby IH]; intros acc Hacc; cbn [fold_left];
      [exact Hacc|].
    apply IH. destruct (find _ cols) as [m|]; [|exact Hacc].
    unfold activeAdd. case_decide as Hin; [exact Hacc|].
    rewrite fmap_app. apply NoDup_app. split; [exact Hacc|]. split.
    - intros y Hy Hy'. apply list_elem_of_singleton in Hy'. congruence.
    - apply NoDup_singleton. }
  apply Hgen. apply NoDup_nil_2.
Qed.

Lemma activeFold_keeps cols : ∀ rest acc x, x ∈ acc →
  x ∈ fold_left (λ active o,
    match find (λ c, bool_decide (mesh c = o)) cols with
    | Some matchingCollider => activeAdd matchingCollider active
    | None => active
    end) rest acc.
Proof.
  induction rest as [|o' rest IH]; intros acc x Hx; cbn [fold_left];
    [exact Hx|].
  apply IH. destruct (find _ cols); [|exact Hx].
  unfold activeAdd. case_decide; [exact Hx|]. apply elem_of_app. auto.
Qed.

Lemma collectActive_covers cols nearby o c :
  o ∈ nearby → find (λ x, bool_decide (mesh x = o)) cols = Some c →
  c ∈ collectActive cols nearby.
Proof.
  intros Ho Hfind.
  assert (Hmesh : mesh c = o).
  { pose proof (find_some _ _ Hfind) as [_ Hm].
    by apply bool_decide_eq_true in Hm. }
  assert (Hex : ∃ c', c' ∈ collectActive cols nearby ∧ mesh c' = o).
  { unfold collectActive.
    pose proof (activeFold_keeps cols) as Hkeep.
    generalize (@nil WallCollider) as acc.
    induction nearby as [|o' nearby IH]; intros acc;
      [by apply elem_of_nil in Ho|].
    cbn [fold_left]. apply elem_of_cons in Ho as [<- | Ho].
    - rewrite Hfind. unfold activeAdd. case_decide as Hin.
      + apply list_elem_of_fmap in Hin as (c' & Hc' & Hin).
        exists c'. split; [by apply Hkeep | congruence].
      + exists c. split; [|exact Hmesh]. apply Hkeep, elem_of_app. right.
        by left.
    - apply IH, Ho. }
  destruct Hex as (c' & Hin & Hc').
  destruct (collectActive_first _ _ _ Hin) as [_ Hfirst].
  rewrite Hc', Hfind in Hfirst. by injection Hfirst as ->.
Qed.

Lemma find_mesh cols c : c ∈ cols →
  ∃ c', find (λ x, bool_decide (mesh x = mesh c)) cols = Some c' ∧
        mesh c' = mesh c ∧ c' ∈ cols ∧
        (NoDup (mesh <$> cols) → c' = c).
Proof.
  induction cols as [|x cols IH]; intros Hin; [by apply elem_of_nil in Hin|].
  cbn [find]. destruct (bool_decide (mesh x = mesh c)) eqn:Hx.
  - apply bool_decide_eq_true in Hx. exists x.
    split; [reflexivity|]. split; [exact Hx|]. split; [by left|].
    intros Hnd. apply elem_of_cons in Hin as [-> | Hin]; [reflexivity|].
    rewrite fmap_cons in Hnd. apply NoDup_cons in Hnd as [Hnot _].
    exfalso. apply Hnot. rewrite Hx. by apply list_elem_of_fmap_2.
  - apply bool_decide_eq_false in Hx.
    apply elem_of_cons in Hin as [-> | Hin]; [congruence|].
    destruct (IH Hin) as (c' & Hfind & Hm & Hc' & Huniq).
    exists c'. split; [exact Hfind|]. split; [exact Hm|]. split; [by right|].
    intros Hnd. rewrite fmap_cons in Hnd. apply NoDup_cons in Hnd as [_ Hnd].
    by apply Huniq.
Qed.

(** A call with a player collider counts the colliders it checks:
    [lastFrameCollisionChecks] becomes their number, whatever it was, and
    [totalCollisionChecks] grows by it.  Without a grid all the colliders
    are checked and [activeColliders] is not touched; with a grid the
    checked colliders are the new [activeColliders], at most one for each
    object the grid reports. *)
Theorem checkCollisions_counts s st pl pr proposed :
  is_Some (playerCollider s) → validCall s st pl pr →
  vectors st !! pr = Some proposed →
  ∃ a st' s',
    checkCollisions s st pl pr = Some (a, st', s') ∧
    lastFrameCollisionChecks s' =
      Z.of_nat (length (candidates s st proposed)) ∧
    totalCollisionChecks s' =
      (totalCollisionChecks s + lastFrameCollisionChecks s')%Z ∧
    (spatialGrid s = None →
       lastFrameCollisionChecks s' = Z.of_nat (length (colliders s)) ∧
       activeColliders s' = activeColliders s) ∧
    (∀ gridRef grid, spatialGrid s = Some gridRef →
       grids st !! gridRef = Some grid →
       activeColliders s' = candidates s st proposed ∧
       (lastFrameCollisionChecks s' ≤
          Z.of_nat (length (findNearbyObjects grid proposed
                              (maxCheckDistance s))))%Z).
Proof.
  intros [pc Hpc] ([current Hpl] & _ & Hgrid) Hpr.
  destruct (checkCollisions_detail s st pl pr pc current proposed
              Hpc Hpl Hpr Hgrid) as (s' & Hrun & _ & Hl & Ht & Ha).
  eexists _, _, s'. split; [exact Hrun|]. split; [exact Hl|].
  split; [rewrite Ht, Hl; reflexivity|]. split.
  - intros Hsg. rewrite Hsg in Ha. split; [|exact Ha].
    rewrite Hl. unfold candidates. by rewrite Hsg.
  - intros gridRef grid Hsg Hg. rewrite Hsg in Ha. split; [exact Ha|].
    rewrite Hl. unfold candidates. rewrite Hsg, Hg.
    apply inj_le, collectActive_length.
Qed.

Lemma checkCollisions_counts_witness :
  ∃ a st' s',
    checkCollisions (oneWall (mkVector3 0 1 3) (mkVector3 0 1 0)
                             (mkVector3 2 2 2) 7%positive)
      (twoVectors (mkVector3 0 1 3) (mkVector3 0 1 2)) 1%positive 2%positive =
      Some (a, st', s') ∧
    lastFrameCollisionChecks s' = 1%Z.
Proof.
  destruct (checkCollisions_counts
              (oneWall (mkVector3 0 1 3) (mkVector3 0 1 0) (mkVector3 2 2 2)
                       7%positive)
              (twoVectors (mkVector3 0 1 3) (mkVector3 0 1 2))
              1%positive 2%positive (mkVector3 0 1 2))
    as (a & st' & s' & Hrun & Hl & _).
  - eexists. reflexivity.
  - split; [|split].
    + eexists; reflexivity.
    + eexists; reflexivity.
    + discriminate.
  - reflexivity.
  - exists a, st', s'. split; [exact Hrun | exact Hl].
Defined.

Lemma clear_query_empty g p r :
  findNearbyObjects (SpatialHashGrid_clear g) p r = [].
Proof. apply SpatialHashGrid_clear_empties_aux. Qed.

(** ** The grid as a filter *)

(** With a grid attached only colliders whose mesh the grid reports near
    the proposed position are checked, each mesh once and through the first
    collider registered for it.  A collider whose mesh the grid does not
    report plays no part: when the grid reports the mesh of no collider the
    proposed X and Z come back unchanged, however close the walls are. *)
Theorem checkCollisions_grid_filters s st pl pr gridRef grid current proposed :
  is_Some (playerCollider s) →
  spatialGrid s = Some gridRef → grids st !! gridRef = Some grid →
  vectors st !! pl = Some current → vectors st !! pr = Some proposed →
  ∃ a st' s',
    checkCollisions s st pl pr = Some (a, st', s') ∧
    vectors st' !! a =
      Some (V3.setY (adjustAll (playerRadius s) (activeColliders s') proposed)
                    (vy current)) ∧
    NoDup (mesh <$> activeColliders s') ∧
    (∀ c, c ∈ activeColliders s' →
       c ∈ colliders s ∧
       mesh c ∈ findNearbyObjects grid proposed (maxCheckDistance s) ∧
       find (λ x, bool_decide (mesh x = mesh c)) (colliders s) = Some c) ∧
    ((∀ c, c ∈ colliders s →
        mesh c ∉ findNearbyObjects grid proposed (maxCheckDistance s)) →
     activeColliders s' = [] ∧
     vectors st' !! a =
       Some (mkVector3 (vx proposed) (vy current) (vz proposed))).
Proof.
  intros [pc Hpc] Hsg Hg Hpl Hpr.
  destruct (checkCollisions_detail s st pl pr pc current proposed
              Hpc Hpl Hpr) as (s' & Hrun & _ & _ & _ & Ha).
  { intros gr Hgr. rewrite Hsg in Hgr. injection Hgr as <-. eauto. }
  rewrite Hsg in Ha.
  assert (Hc : candidates s st proposed =
    collectActive (colliders s)
      (findNearbyObjects grid proposed (maxCheckDistance s))).
  { unfold candidates. by rewrite Hsg, Hg. }
  eexists _, _, s'. split; [exact Hrun|]. cbn [vectors].
  rewrite lookup_insert_eq, Ha.
  split; [reflexivity|]. rewrite Hc.
  split; [apply collectActive_NoDup|]. split.
  - intros c Hin. split; [by eapply collectActive_subset|].
    by apply collectActive_first.
  - intros Hnone.
    assert (Hnil : collectActive (colliders s)
      (findNearbyObjects grid proposed (maxCheckDistance s)) = []).
    { destruct (collectActive _ _) as [|c l] eqn:Hl; [reflexivity|].
      assert (Hin : c ∈ collectActive (colliders s)
        (findNearbyObjects grid proposed (maxCheckDistance s)))
        by (rewrite Hl; by left).
      exfalso. apply (Hnone c); [by eapply collectActive_subset|].
      by apply (collectActive_first _ _ _ Hin). }
    rewrite Hnil. split; [reflexivity|]. by destruct proposed.
Qed.

Lemma checkCollisions_grid_filters_witness :
  ∃ a st' s',
    checkCollisions
      (setSpatialGrid (oneWall (mkVector3 0 1 3) (mkVector3 0 1 0)
                               (mkVector3 2 2 2) 7%positive) 9%positive)
      (mkStore (<[2%positive := mkVector3 0 1 0]>
                  (<[1%positive := mkVector3 0 1 3]> ∅))
               (<[9%positive := SpatialHashGrid_clear grid20]> ∅))
      1%positive 2%positive = Some (a, st', s') ∧
    vectors st' !! a = Some (mkVector3 0 1 0).
Proof.
  destruct (checkCollisions_grid_filters
    (setSpatialGrid (oneWall (mkVector3 0 1 3) (mkVector3 0 1 0)
                             (mkVector3 2 2 2) 7%positive) 9%positive)
    (mkStore (<[2%positive := mkVector3 0 1 0]>
                (<[1%positive := mkVector3 0 1 3]> ∅))
             (<[9%positive := SpatialHashGrid_clear grid20]> ∅))
    1%positive 2%positive 9%positive (SpatialHashGrid_clear grid20)
    (mkVector3 0 1 3) (mkVector3 0 1 0))
    as (a & st' & s' & Hrun & _ & _ & _ & Hoff); try reflexivity.
  - eexists. reflexivity.
  - exists a, st', s'. split; [exact Hrun|]. apply Hoff.
    intros c _ Hin.
    rewrite clear_query_empty in Hin.
    by apply elem_of_nil in Hin.
Defined.

(** ** The grid never hides a wall that is hit *)

Lemma distance_component a b : Rabs a <= sqrt (a * a + b * b).
Proof.
  rewrite <- sqrt_Rsqr_abs. apply sqrt_le_1_alt. unfold Rsqr. nra.
Qed.

Lemma boxDistance_reach c p r :
  0 <= vx (size c) → 0 <= vz (size c) → boxDistance c p < r →
  Rabs (vx p - vx (position c)) < vx (size c) * 0.5 + r ∧
  Rabs (vz p - vz (position c)) < vz (size c) * 0.5 + r.
Proof.
  intros Hsx Hsz. unfold boxDistance, V2.distanceTo. cbn [px py]. intros Hd.
  match type of Hd with sqrt (?a * ?a + ?b * ?b) < _ =>
    assert (Ha : Rabs a < r)
      by (eapply Rle_lt_trans; [apply (distance_component a b) | exact Hd]);
    assert (Hb : Rabs b < r)
      by (eapply Rle_lt_trans; [apply (distance_component b a)|];
          replace (b * b + a * a) with (a * a + b * b) by ring; exact Hd)
  end.
  clear Hd. apply Rabs_def2 in Ha, Hb.
  split; apply Rabs_def1;
    unfold Rmax, Rmin in Ha, Hb;
    repeat destruct (Rle_dec _ _); lra.
Qed.

(** With a well-formed grid attached (world at least 0.001 wide and deep),
    a collider whose box the proposed position is closer to than the player
    radius is checked, provided that its mesh is in the cell of the
    collider's position, that half its extent plus the radius is within
    [maxCheckDistance] on both axes, and that the query square reaches into
    the world: the first collider registered for its mesh is among the
    active colliders after the call, the collider itself when meshes are
    registered once. *)
Theorem checkCollisions_broad_phase s st pl pr gridRef grid current proposed
    c cell :
  is_Some (playerCollider s) →
  spatialGrid s = Some gridRef → grids st !! gridRef = Some grid →
  vectors st !! pl = Some current → vectors st !! pr = Some proposed →
  wellFormed grid → 0.001 <= worldSizeX grid → 0.001 <= worldSizeZ grid →
  c ∈ colliders s →
  cellAt (cells grid)
         (getCellIndex grid (vx (position c)) (vz (position c))) = Some cell →
  mesh c ∈ cell →
  0 <= vx (size c) → 0 <= vz (size c) →
  vx (size c) * 0.5 + playerRadius s <= maxCheckDistance s →
  vz (size c) * 0.5 + playerRadius s <= maxCheckDistance s →
  0 <= vx proposed + maxCheckDistance s →
  vx proposed - maxCheckDistance s <= worldSizeX grid - 0.001 →
  0 <= vz proposed + maxCheckDistance s →
  vz proposed - maxCheckDistance s <= worldSizeZ grid - 0.001 →
  boxDistance c proposed < playerRadius s →
  ∃ a st' s',
    checkCollisions s st pl pr = Some (a, st', s') ∧
    (∃ c', c' ∈ activeColliders s' ∧ mesh c' = mesh c ∧
           find (λ x, bool_decide (mesh x = mesh c)) (colliders s) = Some c') ∧
    (NoDup (mesh <$> colliders s) → c ∈ activeColliders s').
Proof.
  intros [pc Hpc] Hsg Hg Hpl Hpr Hwf Hwx Hwz Hc Hcell Hin Hsx Hsz Hrx Hrz
    Hx1 Hx2 Hz1 Hz2 Hhit.
  destruct (checkCollisions_detail s st pl pr pc current proposed
              Hpc Hpl Hpr) as (s' & Hrun & _ & _ & _ & Ha).
  { intros gr Hgr. rewrite Hsg in Hgr. injection Hgr as <-. eauto. }
  rewrite Hsg in Ha. unfold candidates in Ha. rewrite Hsg, Hg in Ha.
  destruct (boxDistance_reach c proposed (playerRadius s) Hsx Hsz Hhit)
    as [Hdx Hdz].
  assert (Hnear : mesh c ∈
    findNearbyObjects grid proposed (maxCheckDistance s)).
  { apply (query_reaches grid proposed (maxCheckDistance s) (position c)
             (mesh c) cell Hwf Hwx Hwz); try assumption; lra. }
  destruct (find_mesh (colliders s) c Hc) as (c' & Hfind & Hm & _ & Huniq).
  pose proof (collectActive_covers _ _ _ _ Hnear Hfind) as Hact.
  eexists _, _, s'. split; [exact Hrun|]. rewrite Ha. split.
  - exists c'. auto.
  - intros Hnd. by rewrite <- (Huniq Hnd).
Qed.

Lemma checkCollisions_broad_phase_witness :
  ∃ a st' s',
    checkCollisions
      (setSpatialGrid (oneWall (mkVector3 2 1 3) (mkVector3 2 1 2)
                               (mkVector3 2 2 2) 1%positive) 9%positive)
      (mkStore (<[2%positive := mkVector3 2 1 3.2]>
                  (<[1%positive := mkVector3 2 1 3.5]> ∅))
               (<[9%positive := grid20_with 1%positive]> ∅))
      1%positive 2%positive = Some (a, st', s') ∧
    mkWallCollider (mkVector3 2 1 2) (mkVector3 2 2 2) 1%positive
      ∈ activeColliders s'.
Proof.
  destruct (checkCollisions_broad_phase
    (setSpatialGrid (oneWall (mkVector3 2 1 3) (mkVector3 2 1 2)
                             (mkVector3 2 2 2) 1%positive) 9%positive)
    (mkStore (<[2%positive := mkVector3 2 1 3.2]>
                (<[1%positive := mkVector3 2 1 3.5]> ∅))
             (<[9%positive := grid20_with 1%positive]> ∅))
    1%positive 2%positive 9%positive (grid20_with 1%positive)
    (mkVector3 2 1 3.5) (mkVector3 2 1 3.2)
    (mkWallCollider (mkVector3 2 1 2) (mkVector3 2 2 2) 1%positive)
    [1%positive])
    as (a & st' & s' & Hrun & _ & Hin); try reflexivity.
  - eexists. reflexivity.
  - apply grid20_with_wellFormed.
  - simpl. lra.
  - simpl. lra.
  - by left.
  - cbn [position vx vz].
    rewrite (getCellIndex_at _ 5 20 20 4 _ _ 0 0)
      by first [reflexivity | simpl; rminmax].
    reflexivity.
  - by left.
  - simpl. lra.
  - simpl. lra.
  - simpl. lra.
  - simpl. lra.
  - simpl. lra.
  - simpl. lra.
  - simpl. lra.
  - simpl. lra.
  - unfold boxDistance, V2.distanceTo. cbn [position size vx vz px py].
    replace (Rmax (2 - 2 * 0.5) (Rmin 2 (2 + 2 * 0.5))) with 2 by rminmax.
    replace (Rmax (2 - 2 * 0.5) (Rmin 3.2 (2 + 2 * 0.5))) with 3 by rminmax.
    replace ((2 - 2) * (2 - 2) + (3.2 - 3) * (3.2 - 3)) with (0.2 * 0.2)
      by lra.
    rewrite sqrt_square by lra. cbn [playerRadius setSpatialGrid oneWall
      addWallCollider createPlayerCollider CollisionSystem_new]. lra.
  - exists a, st', s'. split; [exact Hrun|]. apply Hin.
    cbn [colliders setSpatialGrid oneWall addWallCollider createPlayerCollider
         CollisionSystem_new app fmap list_fmap mesh].
    apply NoDup_singleton.
Defined.

(** ** What sequential resolution guarantees *)

Lemma adjustAll_last r cols c v :
  adjustAll r (cols ++ [c]) v = resolveCollider r c (adjustAll r cols v).
Proof. unfold adjustAll. by rewrite fold_left_app. Qed.

Lemma boxDistance_setY c v y : boxDistance c (V3.setY v y) = boxDistance c v.
Proof. reflexivity. Qed.

(** Without a grid the colliders are resolved one after the other, so the
    position returned is at least the radius away from the box of the
    collider registered last (extents not negative), whatever the other
    colliders did to the position before. *)
Theorem checkCollisions_clear_of_last s st pl pr cols c :
  is_Some (playerCollider s) → validCall s st pl pr →
  spatialGrid s = None → colliders s = cols ++ [c] →
  0 <= vx (size c) → 0 <= vz (size c) →
  ∃ a st' s' v,
    checkCollisions s st pl pr = Some (a, st', s') ∧
    vectors st' !! a = Some v ∧
    boxDistance c v >= playerRadius s.
Proof.
  intros [pc Hpc] ([current Hpl] & [proposed Hpr] & Hgrid) Hsg Hcols Hsx Hsz.
  destruct (checkCollisions_detail s st pl pr pc current proposed
              Hpc Hpl Hpr Hgrid) as (s' & Hrun & _).
  eexists _, _, s', _. split; [exact Hrun|]. cbn [vectors].
  split; [apply lookup_insert_eq|].
  rewrite boxDistance_setY. unfold candidates. rewrite Hsg, Hcols.
  rewrite adjustAll_last. by apply resolveCollider_clear.
Qed.

Lemma checkCollisions_clear_of_last_witness :
  ∃ a st' s' v,
    checkCollisions
      (addWallCollider (oneWall (mkVector3 0 1 3) (mkVector3 0 1 0)
                                (mkVector3 2 2 2) 7%positive)
                       8%positive (mkVector3 2 1 0) (mkVector3 2 2 2))
      (twoVectors (mkVector3 0 1 3) (mkVector3 0.9 1 0.2))
      1%positive 2%positive = Some (a, st', s') ∧
    vectors st' !! a = Some v ∧
    boxDistance (mkWallCollider (mkVector3 2 1 0) (mkVector3 2 2 2) 8%positive)
                v >= 0.5.
Proof.
  apply (checkCollisions_clear_of_last
    (addWallCollider (oneWall (mkVector3 0 1 3) (mkVector3 0 1 0)
                              (mkVector3 2 2 2) 7%positive)
                     8%positive (mkVector3 2 1 0) (mkVector3 2 2 2))
    (twoVectors (mkVector3 0 1 3) (mkVector3 0.9 1 0.2)) 1%positive 2%positive
    [mkWallCollider (mkVector3 0 1 0) (mkVector3 2 2 2) 7%positive]
    (mkWallCollider (mkVector3 2 1 0) (mkVector3 2 2 2) 8%positive)).
  - eexists. reflexivity.
  - split; [|split].
    + eexists; reflexivity.
    + eexists; reflexivity.
    + discriminate.
  - reflexivity.
  - reflexivity.
  - simpl. lra.
  - simpl. lra.
Defined.

(** ** The stored position of the player collider *)

Lemma updatePlayerPosition_fields s p :
  colliders (updatePlayerPosition s p) = colliders s ∧
  playerRadius (updatePlayerPosition s p) = playerRadius s ∧
  spatialGrid (updatePlayerPosition s p) = spatialGrid s ∧
  maxCheckDistance (updatePlayerPosition s p) = maxCheckDistance s ∧
  (playerCollider (updatePlayerPosition s p) = None ↔ playerCollider s = None).
Proof.
  unfold updatePlayerPosition. destruct (playerCollider s) eqn:Hpc;
    cbn; rewrite ?Hpc; repeat split; auto; discriminate.
Qed.

Lemma updatePlayerPosition_countCheck s p :
  updatePlayerPosition (countCheck s) p = countCheck (updatePlayerPosition s p).
Proof.
  unfold updatePlayerPosition, countCheck. cbn.
  destruct (playerCollider s) eqn:Hpc; cbn; rewrite ?Hpc; reflexivity.
Qed.

Lemma updatePlayerPosition_checkEach p cs : ∀ s v,
  checkEach (updatePlayerPosition s p) v cs =
  (updatePlayerPosition (checkEach s v cs).1 p, (checkEach s v cs).2).
Proof.
  induction cs as [|c cs IH]; intros s v; cbn [checkEach]; [reflexivity|].
  rewrite <- updatePlayerPosition_countCheck.
  destruct (updatePlayerPosition_fields (countCheck s) p) as (_ & Hr & _).
  rewrite Hr. apply IH.
Qed.

(** [updatePlayerPosition] does nothing without a player collider and
    otherwise replaces the stored position only.  The stored position plays
    no part in the resolution: a call after the update returns the same
    reference and leaves the same store as a call before it, and the two
    systems differ by the update alone. *)
Theorem updatePlayerPosition_resolution s p st pl pr :
  (playerCollider s = None → updatePlayerPosition s p = s) ∧
  (∀ pc, playerCollider s = Some pc →
     playerCollider (updatePlayerPosition s p) =
       Some (mkPlayerCollider p (pcRadius pc) (pcHeight pc))) ∧
  colliders (updatePlayerPosition s p) = colliders s ∧
  checkCollisions (updatePlayerPosition s p) st pl pr =
    (λ '(a, st', s'), (a, st', updatePlayerPosition s' p)) <$>
      checkCollisions s st pl pr.
Proof.
  split; [intros Hpc; unfold updatePlayerPosition; by rewrite Hpc|].
  split; [intros pc Hpc; unfold updatePlayerPosition; by rewrite Hpc|].
  split; [apply updatePlayerPosition_fields|].
  destruct (playerCollider s) as [pc|] eqn:Hpc.
  2:{ unfold updatePlayerPosition, checkCollisions. rewrite Hpc. cbn.
      unfold updatePlayerPosition. by rewrite Hpc. }
  unfold checkCollisions at 2. rewrite Hpc.
  unfold checkCollisions.
  replace (playerCollider (updatePlayerPosition s p))
    with (Some (mkPlayerCollider p (pcRadius pc) (pcHeight pc)))
    by (unfold updatePlayerPosition; by rewrite Hpc).
  destruct (vectors st !! pr) as [proposed|]; [|reflexivity].
  cbn [mbind option_bind alloc].
  assert (Hsel : ∀ st1,
    selectColliders (resetFrameChecks (updatePlayerPosition s p)) st1 proposed =
    (λ '(cs, s2), (cs, updatePlayerPosition s2 p)) <$>
      selectColliders (resetFrameChecks s) st1 proposed).
  { intros st1. unfold selectColliders, resetFrameChecks, updatePlayerPosition.
    cbn. rewrite Hpc. cbn. destruct (spatialGrid s); [|reflexivity].
    destruct (grids st1 !! p0); reflexivity. }
  rewrite Hsel.
  destruct (selectColliders (resetFrameChecks s) _ proposed) as [[cs s2]|];
    [|reflexivity].
  cbn [fmap option_fmap option_map mbind option_bind].
  rewrite updatePlayerPosition_checkEach.
  destruct (checkEach s2 (V3.clone proposed) cs) as [s3 adjusted].
  cbn [fst snd vectors].
  destruct (<[fresh (dom (vectors st)):=V3.clone proposed]> (vectors st) !! pl);
    reflexivity.
Qed.

Lemma updatePlayerPosition_resolution_witness :
  playerCollider
    (updatePlayerPosition (oneWall (mkVector3 0 1 3) (mkVector3 0 1 0)
                                   (mkVector3 2 2 2) 7%positive)
                          (mkVector3 0 1.1 3)) =
    Some (mkPlayerCollider (mkVector3 0 1.1 3) 0.5 1.8) ∧
  ∃ a st' s',
    checkCollisions (oneWall (mkVector3 0 1 3) (mkVector3 0 1 0)
                             (mkVector3 2 2 2) 7%positive)
      (twoVectors (mkVector3 0 1 3) (mkVector3 0 1 1.2))
      1%positive 2%positive = Some (a, st', s') ∧
    checkCollisions
      (updatePlayerPosition (oneWall (mkVector3 0 1 3) (mkVector3 0 1 0)
                                     (mkVector3 2 2 2) 7%positive)
                            (mkVector3 0 1.1 3))
      (twoVectors (mkVector3 0 1 3) (mkVector3 0 1 1.2))
      1%positive 2%positive =
      Some (a, st', updatePlayerPosition s' (mkVector3 0 1.1 3)).
Proof.
  destruct (updatePlayerPosition_resolution
              (oneWall (mkVector3 0 1 3) (mkVector3 0 1 0)
                       (mkVector3 2 2 2) 7%positive)
              (mkVector3 0 1.1 3)
              (twoVectors (mkVector3 0 1 3) (mkVector3 0 1 1.2))
              1%positive 2%positive) as (_ & Hset & _ & Hcomm).
  split; [exact (Hset _ eq_refl)|].
  destruct (checkCollisions_run
              (oneWall (mkVector3 0 1 3) (mkVector3 0 1 0)
                       (mkVector3 2 2 2) 7%positive)
              (twoVectors (mkVector3 0 1 3) (mkVector3 0 1 1.2))
              1%positive 2%positive
              (mkPlayerCollider (mkVector3 0 1 3) 0.5 1.8)
              (mkVector3 0 1 3) (mkVector3 0 1 1.2))
    as (cands & s' & Hrun & _); try reflexivity.
  { discriminate. }
  eexists _, _, s'. split; [exact Hrun|].
  rewrite Hcomm, Hrun. reflexivity.
Defined.

(** * Properties of the controller *)

(** ** Looking around *)





(** ** Head bob *)

(** While the bob is active the timer advances with the time and stops at
    the next multiple of [PI / 10] beyond it (by more than 0.000001): the
    timer never decreases for a non-negative step, never passes that
    multiple, and the bob is switched off exactly when the multiple is
    reached, where the sine of ten times the timer is zero.  An inactive
    bob leaves the controller as it is. *)
Theorem updateHeadBob_stops cam dt :
  (headBobActive_ cam = false → updateHeadBob_ cam dt = cam) ∧
  (headBobActive_ cam = true →
   ∃ k : Z,
     k = (1 + Zfloor (((headBobTimer_ cam + 0.000001) * 10) / PI))%Z ∧
     headBobTimer_ cam + 0.000001 < IZR k * PI / 10 ∧
     headBobTimer_ (updateHeadBob_ cam dt) =
       Rmin (headBobTimer_ cam + dt) (IZR k * PI / 10) ∧
     headBobTimer_ (updateHeadBob_ cam dt) <= IZR k * PI / 10 ∧
     (0 <= dt → headBobTimer_ cam <= headBobTimer_ (updateHeadBob_ cam dt)) ∧
     (headBobActive_ (updateHeadBob_ cam dt) = false ↔
        IZR k * PI / 10 <= headBobTimer_ cam + dt) ∧
     (headBobActive_ (updateHeadBob_ cam dt) = false →
        headBobTimer_ (updateHeadBob_ cam dt) = IZR k * PI / 10 ∧
        sin (headBobTimer_ (updateHeadBob_ cam dt) * 10) = 0) ∧
     translation_ (updateHeadBob_ cam dt) = translation_ cam).
Proof.
  split.
  { intros Hoff. unfold updateHeadBob_. by rewrite Hoff. }
  intros Hon. unfold updateHeadBob_. rewrite Hon.
  set (q := ((headBobTimer_ cam + 0.000001) * 10) / PI).
  exists (1 + Zfloor q)%Z. split; [reflexivity|].
  pose proof PI_RGT_0 as Hpi.
  pose proof (Zfloor_bound q) as [_ Hq].
  assert (Hk : 1 + IZR (Zfloor q) = IZR (1 + Zfloor q))
    by (rewrite plus_IZR; reflexivity).
  rewrite Hk. set (T := IZR (1 + Zfloor q) * PI / 10).
  assert (HT : headBobTimer_ cam + 0.000001 < T).
  { unfold T. rewrite <- Hk.
    assert (Hq' : q * PI / 10 = headBobTimer_ cam + 0.000001)
      by (unfold q; field; lra).
    rewrite <- Hq'. unfold Rdiv. nra. }
  split; [exact HT|].
  assert (Hmin : Rmin (headBobTimer_ cam + dt) T <= T) by apply Rmin_r.
  destruct (Reqb (Rmin (headBobTimer_ cam + dt) T) T) eqn:Heq;
    [apply Reqb_true in Heq | apply Reqb_false in Heq];
    cbn [setHeadBob headBobTimer_ headBobActive_ translation_].
  - split; [reflexivity|]. split; [exact Hmin|]. split.
    { intros Hdt. rewrite Heq. lra. }
    split.
    { split; [|reflexivity]. intros _. revert Heq. unfold Rmin.
      destruct (Rle_dec _ _); lra. }
    split; [|reflexivity]. intros _. split; [exact Heq|].
    rewrite Heq. apply sin_eq_0_1. exists (1 + Zfloor q)%Z. unfold T. field.
  - split; [reflexivity|]. split; [exact Hmin|]. split.
    { intros Hdt. unfold Rmin. destruct (Rle_dec _ _); lra. }
    split.
    { split; [discriminate|]. intros Hle. exfalso. apply Heq.
      unfold Rmin. destruct (Rle_dec _ _); lra. }
    split; [discriminate | reflexivity].
Qed.

Lemma updateHeadBob_stops_witness :
  headBobActive_ (updateHeadBob_ walkingCamera 1) = false ∧
  headBobTimer_ (updateHeadBob_ walkingCamera 1) = PI / 10 ∧
  headBobActive_ (updateHeadBob_ walkingCamera 0.1) = true ∧
  headBobTimer_ (updateHeadBob_ walkingCamera 0.1) = 0.1.
Proof.
  pose proof PI2_1 as Hlo. pose proof PI_4 as Hhi.
  assert (Hk : (1 + Zfloor (((headBobTimer_ walkingCamera + 0.000001) * 10)
                            / PI))%Z = 1%Z).
  { cbn [headBobTimer_ walkingCamera].
    rewrite (Zfloor_eq 0); [reflexivity|]. simpl.
    assert (Hinv : 0 < / PI <= 1) by
      (split; [apply Rinv_0_lt_compat; lra|];
       rewrite <- Rinv_1; apply Rinv_le_contravar; lra).
    unfold Rdiv. nra. }
  destruct (proj2 (updateHeadBob_stops walkingCamera 1) eq_refl)
    as (k & Hk1 & _ & _ & _ & _ & Hoff & Hat & _).
  destruct (proj2 (updateHeadBob_stops walkingCamera 0.1) eq_refl)
    as (k' & Hk2 & _ & Htimer & _ & _ & Hoff' & _).
  rewrite Hk in Hk1, Hk2. subst k k'.
  cbn [headBobTimer_ walkingCamera] in Hoff, Hoff', Htimer.
  assert (Hfalse : headBobActive_ (updateHeadBob_ walkingCamera 1) = false)
    by (apply Hoff; lra).
  split; [exact Hfalse|]. split.
  { destruct (Hat Hfalse) as [-> _]. lra. }
  split.
  - destruct (headBobActive_ (updateHeadBob_ walkingCamera 0.1)) eqn:Hb;
      [reflexivity|].
    pose proof (proj1 Hoff' eq_refl). lra.
  - rewrite Htimer. unfold Rmin. destruct (Rle_dec _ _); lra.
Defined.

(** ** The camera follows the translation *)

(** After [updateCamera_] the camera is above or below the translation by
    at most the bob intensity and has its X and Z; where the sine of ten
    times the timer is zero the camera is at the translation.  The
    translation is not touched, and a player collider is given the camera
    position, bob included. *)
Theorem updateCamera_bob cam system :
  vx (cameraPosition (updateCamera_ cam system).1) = vx (translation_ cam) ∧
  vz (cameraPosition (updateCamera_ cam system).1) = vz (translation_ cam) ∧
  Rabs (vy (cameraPosition (updateCamera_ cam system).1) - vy (translation_ cam))
    <= Rabs (bobIntensity_ cam) ∧
  (sin (headBobTimer_ cam * 10) = 0 →
   cameraPosition (updateCamera_ cam system).1 = translation_ cam) ∧
  translation_ (updateCamera_ cam system).1 = translation_ cam ∧
  (∀ s pc, system = Some s → playerCollider s = Some pc →
     ∃ s', (updateCamera_ cam system).2 = Some s' ∧
       playerCollider s' =
         Some (mkPlayerCollider (cameraPosition (updateCamera_ cam system).1)
                                (pcRadius pc) (pcHeight pc)) ∧
       colliders s' = colliders s).
Proof.
  cbn [updateCamera_ fst snd cameraPosition translation_ vx vy vz].
  split; [reflexivity|]. split; [reflexivity|]. split.
  { replace (vy (translation_ cam) +
             sin (headBobTimer_ cam * 10) * bobIntensity_ cam -
             vy (translation_ cam))
      with (sin (headBobTimer_ cam * 10) * bobIntensity_ cam) by ring.
    rewrite Rabs_mult.
    pose proof (Rabs_pos (bobIntensity_ cam)).
    pose proof (SIN_bound (headBobTimer_ cam * 10)) as [Hlo Hhi].
    assert (Rabs (sin (headBobTimer_ cam * 10)) <= 1)
      by (apply Rabs_le; lra).
    nra. }
  split.
  { intros ->. destruct (translation_ cam) as [x y z]. cbn [vx vy vz].
    f_equal. ring. }
  split; [reflexivity|].
  intros s pc -> Hpc. eexists. split; [reflexivity|].
  unfold updatePlayerPosition. rewrite Hpc. split; reflexivity.
Qed.

Lemma updateCamera_bob_witness :
  vy (cameraPosition
        (updateCamera_ bobbingCamera
           (Some (createPlayerCollider CollisionSystem_new
                                       (mkVector3 0 1.8 0)))).1) = 1.9 ∧
  Rabs (vy (cameraPosition
              (updateCamera_ bobbingCamera
                 (Some (createPlayerCollider CollisionSystem_new
                                             (mkVector3 0 1.8 0)))).1)
        - 1.8) <= Rabs 0.1 ∧
  ∃ s',
    (updateCamera_ bobbingCamera
       (Some (createPlayerCollider CollisionSystem_new
                                   (mkVector3 0 1.8 0)))).2 = Some s' ∧
    playerCollider s' =
      Some (mkPlayerCollider
              (cameraPosition
                 (updateCamera_ bobbingCamera
                    (Some (createPlayerCollider CollisionSystem_new
                                                (mkVector3 0 1.8 0)))).1)
              0.5 1.8).
Proof.
  destruct (updateCamera_bob bobbingCamera
              (Some (createPlayerCollider CollisionSystem_new
                                          (mkVector3 0 1.8 0))))
    as (_ & _ & Hbob & _ & _ & Hplayer).
  split.
  { cbn [updateCamera_ fst cameraPosition vy translation_ headBobTimer_
         bobIntensity_ bobbingCamera].
    replace (PI / 20 * 10) with (PI / 2) by field. rewrite sin_PI2. lra. }
  split; [exact Hbob|].
  destruct (Hplayer _ _ eq_refl eq_refl) as (s' & Hs' & Hpc & _).
  exists s'. split; [exact Hs' | exact Hpc].
Defined.

(** ** A tick of movement *)

Lemma keyVelocity_cases plus minus :
  keyVelocity plus minus = 0 ∨ keyVelocity plus minus = 1 ∨
  keyVelocity plus minus = -1.
Proof. destruct plus, minus; unfold keyVelocity; [left|right;left|right;right|left]; lra. Qed.

Lemma move_displacement cam w s a d dt :
  vy (forwardMove cam w s dt) = 0 ∧ vy (leftMove cam a d dt) = 0 ∧
  (vx (forwardMove cam w s dt) + vx (leftMove cam a d dt)) *
  (vx (forwardMove cam w s dt) + vx (leftMove cam a d dt)) +
  (vz (forwardMove cam w s dt) + vz (leftMove cam a d dt)) *
  (vz (forwardMove cam w s dt) + vz (leftMove cam a d dt)) =
  dt * dt * ((keyVelocity w s * forwardSpeed_ cam) *
             (keyVelocity w s * forwardSpeed_ cam) +
             (keyVelocity a d * strafeSpeed_ cam) *
             (keyVelocity a d * strafeSpeed_ cam)).
Proof.
  unfold forwardMove, leftMove, applyYaw, V3.multiplyScalar.
  cbn [vx vy vz]. split; [ring|]. split; [ring|].
  pose proof (sin2_cos2 (phi_ cam)) as Hsc. unfold Rsqr in Hsc.
  set (sn := sin (phi_ cam)) in *. set (cs := cos (phi_ cam)) in *.
  set (F := keyVelocity w s * dt * forwardSpeed_ cam).
  set (L := keyVelocity a d * dt * strafeSpeed_ cam).
  replace ((0 * cs + -1 * sn) * F + (-1 * cs + 0 * sn) * L) with (- sn * F - cs * L)
    by ring.
  replace ((- 0 * sn + -1 * cs) * F + (- -1 * sn + 0 * cs) * L)
    with (- cs * F + sn * L) by ring.
  replace ((- sn * F - cs * L) * (- sn * F - cs * L) +
           (- cs * F + sn * L) * (- cs * F + sn * L))
    with ((F * F + L * L) * (sn * sn + cs * cs)) by ring.
  rewrite Hsc. unfold F, L. ring.
Qed.

(** A tick of [updateTranslation_] never changes the height of the player
    when there is no collision system or the system has a player collider.
    Unobstructed (no system, or no wall box closer than the radius to the
    proposed position) the player moves by the two displacements, whose
    horizontal length is the elapsed time times the speeds of the keys
    held, opposite keys cancelling.  The bob is switched on by any net key
    movement and never switched off here. *)
Theorem updateTranslation__moves cam system st w s a d dt :
  keyVelocity true true = 0 ∧
  (system = None →
   ∃ st', updateTranslation_ cam None st w s a d dt =
     Some (setTranslation cam
             (V3.add (V3.add (translation_ cam) (forwardMove cam w s dt))
                     (leftMove cam a d dt))
             (if negb (Reqb (keyVelocity w s) 0) || negb (Reqb (keyVelocity a d) 0)
              then true else headBobActive_ cam),
           st', None)) ∧
  (∀ sys, system = Some sys → is_Some (playerCollider sys) →
     (∀ gridRef, spatialGrid sys = Some gridRef →
        is_Some (grids st !! gridRef)) →
     ∃ cam' st' sys',
       updateTranslation_ cam system st w s a d dt =
         Some (cam', st', Some sys') ∧
       vy (translation_ cam') = vy (translation_ cam) ∧
       colliders sys' = colliders sys ∧
       (headBobActive_ cam = true → headBobActive_ cam' = true) ∧
       (keyVelocity w s ≠ 0 ∨ keyVelocity a d ≠ 0 →
        headBobActive_ cam' = true) ∧
       ((∀ c, c ∈ colliders sys →
           boxDistance c (V3.add (V3.add (translation_ cam)
                                         (forwardMove cam w s dt))
                                 (leftMove cam a d dt)) >= playerRadius sys) →
        vx (translation_ cam') =
          vx (translation_ cam) + vx (forwardMove cam w s dt) +
          vx (leftMove cam a d dt) ∧
        vz (translation_ cam') =
          vz (translation_ cam) + vz (forwardMove cam w s dt) +
          vz (leftMove cam a d dt))) ∧
  vy (V3.add (V3.add (translation_ cam) (forwardMove cam w s dt))
             (leftMove cam a d dt)) = vy (translation_ cam) ∧
  (vx (forwardMove cam w s dt) + vx (leftMove cam a d dt)) *
  (vx (forwardMove cam w s dt) + vx (leftMove cam a d dt)) +
  (vz (forwardMove cam w s dt) + vz (leftMove cam a d dt)) *
  (vz (forwardMove cam w s dt) + vz (leftMove cam a d dt)) =
  dt * dt * ((keyVelocity w s * forwardSpeed_ cam) *
             (keyVelocity w s * forwardSpeed_ cam) +
             (keyVelocity a d * strafeSpeed_ cam) *
             (keyVelocity a d * strafeSpeed_ cam)).
Proof.
  destruct (move_displacement cam w s a d dt) as (Hfy & Hly & Hlen).
  split; [unfold keyVelocity; lra|]. split.
  { intros _. unfold updateTranslation_, alloc. eexists. reflexivity. }
  split.
  { intros sys -> [pc Hpc] Hgrid.
    destruct (updateTranslation_run sys st (translation_ cam)
                (forwardMove cam w s dt) (leftMove cam a d dt) pc Hpc Hgrid)
      as (cands & st' & sys' & Hrun & Hsame & _ & Hsub & _).
    unfold updateTranslation_. rewrite Hrun. cbn [mbind option_bind].
    eexists _, st', sys'. split; [reflexivity|].
    cbn [setTranslation translation_ headBobActive_ V3.setY vy].
    split; [reflexivity|]. split; [apply Hsame|]. split.
    { intros ->. by destruct (_ || _). }
    split.
    { intros [Hf | Hl].
      - rewrite (proj2 (Reqb_false _ _) Hf). reflexivity.
      - rewrite (proj2 (Reqb_false _ _) Hl). by rewrite Bool.orb_true_r. }
    intros Hfar. rewrite adjustAll_far by (intros c Hc; apply Hfar, Hsub, Hc).
    cbn [V3.add vx vz]. split; reflexivity. }
  split; [cbn [V3.add vy]; lra | exact Hlen].
Qed.

Lemma updateTranslation__moves_witness :
  ∃ cam' st' sys',
    updateTranslation_ walkingCamera
      (Some (oneWall (mkVector3 0 1.8 0) (mkVector3 0 1.5 (-5))
                     (mkVector3 2 3 2) 7%positive))
      (mkStore ∅ ∅) true false false false 0.5 =
      Some (cam', st', Some sys') ∧
    translation_ cam' = mkVector3 0 1.8 (-1) ∧
    headBobActive_ cam' = true ∧
    colliders sys' =
      [mkWallCollider (mkVector3 0 1.5 (-5)) (mkVector3 2 3 2) 7%positive].
Proof.
  assert (Hf : forwardMove walkingCamera true false 0.5 = mkVector3 0 0 (-1)).
  { unfold forwardMove, applyYaw, V3.multiplyScalar, keyVelocity.
    cbn [phi_ forwardSpeed_ walkingCamera vx vy vz]. rewrite cos_0, sin_0.
    f_equal; lra. }
  assert (Hl : leftMove walkingCamera false false 0.5 = mkVector3 0 0 0).
  { unfold leftMove, applyYaw, V3.multiplyScalar, keyVelocity.
    cbn [phi_ strafeSpeed_ walkingCamera vx vy vz]. rewrite cos_0, sin_0.
    f_equal; lra. }
  destruct (proj1 (proj2 (proj2 (updateTranslation__moves walkingCamera
              (Some (oneWall (mkVector3 0 1.8 0) (mkVector3 0 1.5 (-5))
                             (mkVector3 2 3 2) 7%positive))
              (mkStore ∅ ∅) true false false false 0.5)))
              _ eq_refl)
    as (cam' & st' & sys' & Hrun & Hy & Hcols & _ & Hbob & Hfree).
  { eexists. reflexivity. }
  { discriminate. }
  exists cam', st', sys'. split; [exact Hrun|].
  destruct Hfree as [Hx Hz].
  { intros c Hc. apply list_elem_of_singleton in Hc as ->.
    rewrite Hf, Hl.
    unfold boxDistance, V2.distanceTo, V3.add.
    cbn [position size vx vz px py translation_ walkingCamera
         playerRadius oneWall addWallCollider createPlayerCollider
         CollisionSystem_new].
    unfold V3.clone. cbn [vx vz].
    apply Rle_ge, distance_at_least; [lra|].
    unfold Rmax, Rmin; repeat destruct (Rle_dec _ _); nra. }
  rewrite Hf, Hl in Hx, Hz.
  cbn [translation_ walkingCamera vx vy vz] in Hx, Hy, Hz.
  split.
  { destruct (translation_ cam') as [tx ty tz]. cbn [vx vy vz] in *.
    f_equal; lra. }
  split; [|exact Hcols].
  apply Hbob. left. unfold keyVelocity. lra.
Defined.

(** ** The fixed time step *)

Lemma fixedSteps_run {A : Type} (update : A → A) step : 0 < step →
  ∀ (n fuel : nat) acc a,
    INR n * step <= acc < (INR n + 1) * step → (n ≤ fuel)%nat →
    fixedSteps fuel update step acc a =
      Some (acc - INR n * step, Nat.iter n update a).
Proof.
  intros Hstep. induction n as [|n IH]; intros fuel acc a Hacc Hfuel.
  - cbn [INR] in Hacc. destruct fuel; cbn [fixedSteps];
      (destruct (Rle_dec step acc); [lra|]); cbn [Nat.iter INR];
      f_equal; f_equal; lra.
  - destruct fuel as [|fuel]; [lia|]. rewrite S_INR in Hacc.
    cbn [fixedSteps]. destruct (Rle_dec step acc) as [_|Hn].
    2:{ pose proof (pos_INR n). nra. }
    rewrite (IH fuel (acc - step) (update a)) by (try lia; lra).
    rewrite S_INR, Nat.iter_succ_r. f_equal. f_equal. lra.
Qed.

Lemma fixedSteps_loop {A : Type} (update : A → A) step acc (a : A) :
  (0 < step → 0 <= acc →
   ∃ n : nat,
     Z.of_nat n = Zfloor (acc / step) ∧
     0 <= acc - INR n * step < step ∧
     ∀ fuel, (n ≤ fuel)%nat →
       fixedSteps fuel update step acc a =
         Some (acc - INR n * step, Nat.iter n update a)) ∧
  (step <= 0 → step <= acc →
   ∀ fuel, fixedSteps fuel update step acc a = None).
Proof.
  split.
  - intros Hstep Hacc.
    pose proof (Zfloor_bound (acc / step)) as [Hlo Hhi].
    assert (Hq : acc / step * step = acc) by (field; lra).
    assert (H0 : (0 ≤ Zfloor (acc / step))%Z).
    { apply Zfloor_lub. simpl. apply div_nonneg; assumption. }
    exists (Z.to_nat (Zfloor (acc / step))).
    assert (Hn : INR (Z.to_nat (Zfloor (acc / step))) =
                 IZR (Zfloor (acc / step)))
      by (rewrite INR_IZR_INZ, Z2Nat.id by assumption; reflexivity).
    assert (Hrange : INR (Z.to_nat (Zfloor (acc / step))) * step <= acc
                     < (INR (Z.to_nat (Zfloor (acc / step))) + 1) * step).
    { rewrite Hn. split.
      - rewrite <- Hq at 2. apply Rmult_le_compat_r; lra.
      - rewrite <- Hq at 1. apply Rmult_lt_compat_r; lra. }
    split; [apply Z2Nat.id, H0|]. split; [lra|].
    intros fuel Hfuel. by apply fixedSteps_run.
  - intros Hstep Hacc fuel. revert acc a Hacc.
    induction fuel as [|fuel IH]; intros acc a Hacc; cbn [fixedSteps];
      (destruct (Rle_dec step acc); [|lra]); [reflexivity|].
    apply IH. lra.
Qed.

(** The loop of [animate] ends for a positive step: from a non-negative
    accumulator it runs [update] once for every whole step the accumulator
    holds and leaves the rest, which is less than a step, in the
    accumulator.  With a step that is not positive it never ends once
    entered. *)
Theorem fixedSteps_terminates {A : Type} (update : A → A) step acc (a : A) :
  (0 < step → 0 <= acc →
   ∃ n : nat,
     Z.of_nat n = Zfloor (acc / step) ∧
     0 <= acc - INR n * step < step ∧
     ∀ fuel, (n ≤ fuel)%nat →
       fixedSteps fuel update step acc a =
         Some (acc - INR n * step, Nat.iter n update a)) ∧
  (step <= 0 → step <= acc →
   ∀ fuel, fixedSteps fuel update step acc a = None).
Proof. exact (fixedSteps_loop update step acc a). Qed.

Lemma fixedSteps_terminates_witness :
  ∃ n : nat, Z.of_nat n = Zfloor (0.05 / (1 / 60)) ∧
    0 <= 0.05 - INR n * (1 / 60) < 1 / 60.
Proof.
  destruct (proj1 (fixedSteps_terminates (λ k : nat, S k) (1 / 60) 0.05 O))
    as (n & Hn & Hrest & _); [lra..|].
  exists n. split; [exact Hn | exact Hrest].
Defined.

(** A frame of [animate] with the step of 1/60 s: the elapsed time is
    capped at 0.1 s, so from an accumulator below one step at most six
    updates run, and the accumulator is again below one step and not
    negative afterwards. *)
Theorem animateFrame_bounded {A : Type} (update : A → A) acc previousRAF t
    (a : A) :
  0 <= acc < 1 / 60 → previousRAF <= t →
  ∃ n : nat, (n ≤ 6)%nat ∧
    0 <= acc + Rmin ((t - previousRAF) * 0.001) 0.1 - INR n * (1 / 60)
      < 1 / 60 ∧
    ∀ fuel, (6 ≤ fuel)%nat →
      animateFrame fuel update (1 / 60) acc previousRAF t a =
        Some (acc + Rmin ((t - previousRAF) * 0.001) 0.1 - INR n * (1 / 60),
              Nat.iter n update a).
Proof.
  intros Hacc Ht. unfold animateFrame.
  set (e := Rmin ((t - previousRAF) * 0.001) 0.1).
  assert (He : 0 <= e <= 0.1).
  { unfold e, Rmin. destruct (Rle_dec _ _); lra. }
  destruct (proj1 (fixedSteps_loop update (1 / 60) (acc + e) a))
    as (n & Hn & Hrest & Hrun); [lra..|].
  assert (Hn6 : (n ≤ 6)%nat).
  { apply Nat2Z.inj_le. rewrite Hn. apply Z.lt_succ_r. apply lt_IZR.
    pose proof (Zfloor_bound ((acc + e) / (1 / 60))) as [Hlo _].
    eapply Rle_lt_trans; [exact Hlo|].
    replace ((acc + e) / (1 / 60)) with ((acc + e) * 60) by (field; lra).
    change (Z.succ (Z.of_nat 6)) with 7%Z. lra. }
  exists n. split; [exact Hn6|]. split; [exact Hrest|].
  intros fuel Hfuel. apply Hrun. lia.
Qed.

Lemma animateFrame_bounded_witness :
  ∃ n : nat, (n ≤ 6)%nat ∧
    0 <= 0.01 + Rmin ((1016 - 1000) * 0.001) 0.1 - INR n * (1 / 60) < 1 / 60.
Proof.
  destruct (animateFrame_bounded (λ k : nat, S k) 0.01 1000 1016 O)
    as (n & Hn & Hrest & _); [lra..|].
  exists n. split; [exact Hn | exact Hrest].
Defined.

(** * Properties of level construction *)

(** ** Registering the walls *)

Lemma extract_fold l : ∀ s s',
  s' = fold_left (λ s object,
      if isWallObject object
      then addWallCollider s (objectId object) (objectPosition object)
                           (boundingSize object)
      else s) l s →
  colliders s' =
    colliders s ++ (colliderOf <$> filter (λ o, isWallObject o = true) l) ∧
  playerCollider s' = playerCollider s ∧ spatialGrid s' = spatialGrid s ∧
  maxCheckDistance s' = maxCheckDistance s.
Proof.
  induction l as [|o l IH]; intros s s' ->; cbn [fold_left].
  - rewrite filter_nil, fmap_nil, app_nil_r. by repeat split.
  - destruct (isWallObject o) eqn:Ho.
    + destruct (IH (addWallCollider s (objectId o) (objectPosition o)
                      (boundingSize o)) _ eq_refl) as (Hc & Hp & Hg & Hm).
      rewrite Hc, Hp, Hg, Hm, filter_cons_True by exact Ho.
      cbn [addWallCollider colliders playerCollider spatialGrid
           maxCheckDistance].
      rewrite clone_eq, <- app_assoc. by repeat split.
    + destruct (IH s _ eq_refl) as (Hc & Hp & Hg & Hm).
      rewrite Hc, Hp, Hg, Hm.
      rewrite filter_cons_False by (rewrite Ho; discriminate).
      by repeat split.
Qed.

Lemma find_app_twice {A} (f : A → bool) (l1 l2 : list A) :
  find f (l1 ++ l2 ++ l2) = find f (l1 ++ l2).
Proof.
  induction l1 as [|x l1 IH]; cbn [app find].
  - induction l2 as [|y l2 IH2]; [reflexivity|]. cbn [app find].
    destruct (f y) eqn:Hy; [reflexivity|].
    rewrite <- IH2. clear IH2.
    assert (Hskip : ∀ l, find f (l ++ y :: l2) = find f (l ++ l2)).
    { induction l as [|z l IHl]; cbn [app find]; [by rewrite Hy|].
      destruct (f z); [reflexivity | exact IHl]. }
    apply Hskip.
  - destruct (f x); [reflexivity | exact IH].
Qed.

Lemma collectActive_twice (cols new : list WallCollider) nearby :
  collectActive (cols ++ new ++ new) nearby = collectActive (cols ++ new) nearby.
Proof.
  unfold collectActive. generalize (@nil WallCollider) as acc.
  induction nearby as [|o nearby IH]; intros acc; cbn [fold_left];
    [reflexivity|].
  by rewrite find_app_twice, IH.
Qed.

Lemma extract_fields s levelGroup :
  colliders (extractCollidersFromLevel s levelGroup) =
    colliders s ++
    (colliderOf <$> filter (λ o, isWallObject o = true) (traverse levelGroup)) ∧
  playerCollider (extractCollidersFromLevel s levelGroup) = playerCollider s ∧
  spatialGrid (extractCollidersFromLevel s levelGroup) = spatialGrid s ∧
  maxCheckDistance (extractCollidersFromLevel s levelGroup) =
    maxCheckDistance s.
Proof. by apply extract_fold. Qed.

(** [extractCollidersFromLevel] registers one collider for every mesh under
    the root that is not named floor or ceiling, in the order of the
    traversal, at the position of the mesh; it keeps the colliders there
    were and the rest of the system.  Registering the same level a second
    time doubles the new colliders, and with a grid attached the colliders
    checked by a call are the same as after registering once. *)
Theorem extractCollidersFromLevel_registers s levelGroup :
  colliders (extractCollidersFromLevel s levelGroup) =
    colliders s ++
    (colliderOf <$> filter (λ o, isWallObject o = true) (traverse levelGroup)) ∧
  playerCollider (extractCollidersFromLevel s levelGroup) = playerCollider s ∧
  spatialGrid (extractCollidersFromLevel s levelGroup) = spatialGrid s ∧
  (∀ o, o ∈ traverse levelGroup → isMesh o = true →
     name o ≠ "floor" → name o ≠ "ceiling" →
     colliderOf o ∈ colliders (extractCollidersFromLevel s levelGroup)) ∧
  (∀ c, c ∈ colliders (extractCollidersFromLevel s levelGroup) →
     c ∈ colliders s ∨
     ∃ o, o ∈ traverse levelGroup ∧ c = colliderOf o ∧ isMesh o = true ∧
          name o ≠ "floor" ∧ name o ≠ "ceiling") ∧
  (∀ st proposed, is_Some (spatialGrid s) →
     candidates (extractCollidersFromLevel
                   (extractCollidersFromLevel s levelGroup) levelGroup)
                st proposed =
     candidates (extractCollidersFromLevel s levelGroup) st proposed).
Proof.
  destruct (extract_fields s levelGroup) as (Hc & Hp & Hg & Hm).
  split; [exact Hc|]. split; [exact Hp|]. split; [exact Hg|].
  split.
  { intros o Ho Hmesh Hf Hce. rewrite Hc. apply elem_of_app. right.
    apply list_elem_of_fmap_2, list_elem_of_filter. split; [|exact Ho].
    unfold isWallObject. rewrite Hmesh.
    apply String.eqb_neq in Hf, Hce. by rewrite Hf, Hce. }
  split.
  { intros c Hin. rewrite Hc in Hin. apply elem_of_app in Hin as [Hin | Hin];
      [by left|].
    right. apply list_elem_of_fmap in Hin as (o & -> & Hin).
    apply list_elem_of_filter in Hin as [Hw Hin]. exists o.
    split; [exact Hin|]. split; [reflexivity|].
    unfold isWallObject in Hw.
    apply andb_prop in Hw as [Hw Hce]. apply andb_prop in Hw as [Hmesh Hf].
    apply negb_true_iff in Hf, Hce. apply String.eqb_neq in Hf, Hce. auto. }
  intros st proposed [gridRef Hsg].
  destruct (extract_fields (extractCollidersFromLevel s levelGroup) levelGroup)
    as (Hc2 & _ & Hg2 & Hm2).
  unfold candidates. rewrite Hg2, Hg, Hsg.
  destruct (grids st !! gridRef) as [grid|]; [|reflexivity].
  rewrite Hm2, Hc2, Hc, <- app_assoc. apply collectActive_twice.
Qed.

Lemma extractCollidersFromLevel_registers_witness :
  colliderOf sampleWall
    ∈ colliders (extractCollidersFromLevel CollisionSystem_new sampleLevel).
Proof.
  apply (proj1 (proj2 (proj2 (proj2
    (extractCollidersFromLevel_registers CollisionSystem_new sampleLevel))))).
  - unfold sampleLevel. cbn [traverse app]. do 2 right. left.
  - reflexivity.
  - discriminate.
  - discriminate.
Defined.

(** ** Placing the walls *)

Lemma Zfloor_half (x : Z) : Zfloor (IZR x / 2) = (x / 2)%Z.
Proof.
  apply Zfloor_eq.
  pose proof (Z.div_mod x 2 ltac:(lia)) as Hdm.
  pose proof (Z.mod_pos_bound x 2 ltac:(lia)) as [Hlo Hhi].
  assert (Hx : IZR x = 2 * IZR (x / 2) + IZR (x mod 2)).
  { rewrite <- mult_IZR, <- plus_IZR. by f_equal. }
  apply IZR_le in Hlo. assert (Hhi' : (x mod 2 ≤ 1)%Z) by lia.
  apply IZR_le in Hhi'. lra.
Qed.

Lemma Zceil_half (x : Z) : Zceil (IZR x / 2) = ((x + 1) / 2)%Z.
Proof.
  apply Zceil_eq.
  pose proof (Z.div_mod (x + 1) 2 ltac:(lia)) as Hdm.
  pose proof (Z.mod_pos_bound (x + 1) 2 ltac:(lia)) as [Hlo Hhi].
  assert (Hx : IZR (x + 1) = 2 * IZR ((x + 1) / 2) + IZR ((x + 1) mod 2)).
  { rewrite <- mult_IZR, <- plus_IZR. by f_equal. }
  rewrite plus_IZR in Hx.
  apply IZR_le in Hlo. assert (Hhi' : ((x + 1) mod 2 ≤ 1)%Z) by lia.
  apply IZR_le in Hhi'. lra.
Qed.

Lemma levelCells_ceil lg (W : Z) : 0 < corridorWidth lg →
  Zceil (IZR W * corridorWidth lg / (corridorWidth lg * 2)) = ((W + 1) / 2)%Z.
Proof.
  intros Hcw.
  replace (IZR W * corridorWidth lg / (corridorWidth lg * 2)) with (IZR W / 2)
    by (field; lra).
  apply Zceil_half.
Qed.

Lemma levelGridFor_columns lg W H g : 0 < corridorWidth lg →
  levelGridFor lg W H g →
  numCellsX g = ((W + 1) / 2)%Z ∧ numCellsZ g = ((H + 1) / 2)%Z.
Proof.
  intros Hcw ([_ _ _ Hnx Hnz _] & Hcs & Hwx & Hwz).
  rewrite Hnx, Hnz, Hcs, Hwx, Hwz.
  replace (IZR W * corridorWidth lg / (corridorWidth lg * 2)) with (IZR W / 2)
    by (field; lra).
  replace (IZR H * corridorWidth lg / (corridorWidth lg * 2)) with (IZR H / 2)
    by (field; lra).
  by rewrite !Zceil_half.
Qed.

(** For a level of at least one column and one row and a positive corridor
    width, one grid column for every two columns of the level and one row
    for every two rows are asked for.  When these are at most 2^32 - 1
    cells, [generateLevel] gets its grid: well formed, empty, with the
    sizes of the level; when they are more, the constructor throws. *)
Theorem newLevelGrid_cells lg W H :
  0 < corridorWidth lg → (1 ≤ W)%Z → (1 ≤ H)%Z →
  (((W + 1) / 2 * ((H + 1) / 2) ≤ 4294967295)%Z →
   ∃ g, newLevelGrid lg W H = Some g ∧ levelGridFor lg W H g ∧
     numCellsX g = ((W + 1) / 2)%Z ∧ numCellsZ g = ((H + 1) / 2)%Z ∧
     objectCells g = ∅ ∧
     (∀ (j : nat) cell, cells g !! j = Some cell → cell = [])) ∧
  ((4294967295 < (W + 1) / 2 * ((H + 1) / 2))%Z →
   newLevelGrid lg W H = None).
Proof.
  intros Hcw HW HH.
  pose proof (levelCells_ceil lg W Hcw) as HcX.
  pose proof (levelCells_ceil lg H Hcw) as HcZ.
  split.
  2:{ intros Hmax. apply SpatialHashGrid_new_None. by rewrite HcX, HcZ. }
  intros Hmax. apply IZR_le in HW, HH.
  assert (Hwx : 0 < IZR W * corridorWidth lg) by nra.
  assert (Hwz : 0 < IZR H * corridorWidth lg) by nra.
  assert (Hcs : 0 < corridorWidth lg * 2) by lra.
  destruct (SpatialHashGrid_new_Some _ _ _ Hcs Hwx Hwz) as [g Hg];
    [by rewrite HcX, HcZ|].
  destruct (SpatialHashGrid_new_wellFormed _ _ _ _ Hcs Hwx Hwz Hg)
    as (Hwf & Hmap & Hempty).
  assert (Hfor : levelGridFor lg W H g).
  { split; [exact Hwf|]. unfold SpatialHashGrid_new in Hg.
    destruct (Reqb _ 0); [discriminate|]. case_decide; [|discriminate].
    by injection Hg as <-. }
  exists g. split; [exact Hg|]. split; [exact Hfor|].
  destruct (levelGridFor_columns lg W H g Hcw Hfor) as [Hnx Hnz].
  auto.
Qed.

Lemma newLevelGrid_cells_witness :
  (∃ g, newLevelGrid (mkLevelGenerator 2 3 0.2 None [] []) 10 10 = Some g ∧
        numCellsX g = 5%Z) ∧
  newLevelGrid (mkLevelGenerator 2 3 0.2 None [] []) 131072 131072 = None.
Proof.
  split.
  - destruct (proj1 (newLevelGrid_cells (mkLevelGenerator 2 3 0.2 None [] [])
                       10 10 ltac:(simpl; lra) ltac:(lia) ltac:(lia)))
      as (g & Hg & _ & Hnx & _); [by vm_compute|].
    exists g. split; [exact Hg | exact Hnx].
  - apply (proj2 (newLevelGrid_cells (mkLevelGenerator 2 3 0.2 None [] [])
                    131072 131072 ltac:(simpl; lra) ltac:(lia) ltac:(lia))).
    by vm_compute.
Defined.

(** A wall block of a cell of the level is inserted without error; its
    position is inside the world, so it is not clamped, and the block is
    tracked in the grid cell of column [x / 2] and row [z / 2].  The grid
    keeps the sizes of the level and the block is listed last. *)
Theorem createWallBlock_cell lg g wall (W H x z : Z) :
  0.001 <= corridorWidth lg → levelGrid lg = Some g →
  levelGridFor lg W H g → (0 ≤ x < W)%Z → (0 ≤ z < H)%Z →
  ∃ lg' g',
    createWallBlock lg wall x z = Some lg' ∧
    levelGrid lg' = Some g' ∧ levelGridFor lg' W H g' ∧
    corridorWidth lg' = corridorWidth lg ∧
    wallBlocks lg' = wallBlocks lg ++ [wall] ∧
    0 <= vx (wallBlockPosition lg x z) <= worldSizeX g - 0.001 ∧
    0 <= vz (wallBlockPosition lg x z) <= worldSizeZ g - 0.001 ∧
    objectCells g' !! wall = Some (x / 2 + z / 2 * ((W + 1) / 2))%Z ∧
    (∃ cell, cellAt (cells g') (x / 2 + z / 2 * ((W + 1) / 2)) = Some cell ∧
             wall ∈ cell).
Proof.
  intros Hcw Hg Hfor Hx Hz.
  pose proof Hfor as (Hwf & Hcs & Hwx & Hwz).
  destruct (levelGridFor_columns lg W H g ltac:(lra) Hfor) as [Hnx _].
  destruct (insertObject_effect g wall (wallBlockPosition lg x z) Hwf)
    as (g' & Hins & Hwf' & Htr & Hin & _).
  assert (Hrange : ∀ (k n : Z), (0 ≤ k < n)%Z →
    0 <= IZR k * corridorWidth lg <= IZR n * corridorWidth lg - 0.001).
  { intros k n [Hk0 Hkn]. apply IZR_le in Hk0.
    assert (Hk1 : (k + 1 ≤ n)%Z) by lia. apply IZR_le in Hk1.
    rewrite plus_IZR in Hk1. nra. }
  assert (Hidx : getCellIndex g (vx (wallBlockPosition lg x z))
                   (vz (wallBlockPosition lg x z)) =
                 (x / 2 + z / 2 * ((W + 1) / 2))%Z).
  { rewrite getCellIndex_saturate, Hnx, Hcs, Hwx, Hwz.
    cbn [wallBlockPosition vx vz].
    pose proof (Hrange x W Hx). pose proof (Hrange z H Hz).
    replace (saturate (IZR W * corridorWidth lg) (IZR x * corridorWidth lg))
      with (IZR x * corridorWidth lg) by rminmax.
    replace (saturate (IZR H * corridorWidth lg) (IZR z * corridorWidth lg))
      with (IZR z * corridorWidth lg) by rminmax.
    replace (IZR x * corridorWidth lg / (corridorWidth lg * 2))
      with (IZR x / 2) by (field; lra).
    replace (IZR z * corridorWidth lg / (corridorWidth lg * 2))
      with (IZR z / 2) by (field; lra).
    by rewrite !Zfloor_half. }
  rewrite Hidx in Htr, Hin.
  assert (Hdims : cellSize g' = cellSize g ∧ worldSizeX g' = worldSizeX g ∧
                  worldSizeZ g' = worldSizeZ g).
  { unfold insertObject in Hins. destruct (cellAt _ _); [|discriminate].
    cbn [mbind option_bind] in Hins. by injection Hins as <-. }
  destruct Hdims as (E1 & E2 & E3).
  eexists _, g'. split.
  { unfold createWallBlock. rewrite Hg, Hins. reflexivity. }
  cbn [levelGrid corridorWidth wallBlocks].
  split; [reflexivity|]. split.
  { split; [exact Hwf'|]. cbn [corridorWidth]. rewrite E1, E2, E3. auto. }
  split; [reflexivity|]. split; [reflexivity|].
  cbn [wallBlockPosition vx vz]. rewrite Hwx, Hwz.
  split; [apply Hrange, Hx|]. split; [apply Hrange, Hz|]. auto.
Qed.

Lemma level10_new : SpatialHashGrid_new 4 20 20 = Some level10.
Proof.
  unfold SpatialHashGrid_new.
  destruct (Reqb 4 0) eqn:E; [apply Reqb_true in E; lra|].
  replace (Zceil (20 / 4)) with 5%Z by (symmetry; apply Zceil_eq; simpl; lra).
  reflexivity.
Qed.

Lemma level10_for : levelGridFor (standardGenerator level10) 10 10 level10.
Proof.
  split.
  - eapply (SpatialHashGrid_new_wellFormed 4 20 20); [lra..|apply level10_new].
  - cbn [standardGenerator corridorWidth level10 cellSize worldSizeX worldSizeZ].
    repeat split; lra.
Qed.

Lemma createWallBlock_cell_witness :
  ∃ lg' g',
    createWallBlock (standardGenerator level10) 1%positive 3 7 = Some lg' ∧
    levelGrid lg' = Some g' ∧
    objectCells g' !! 1%positive = Some (3 / 2 + 7 / 2 * ((10 + 1) / 2))%Z.
Proof.
  destruct (createWallBlock_cell (standardGenerator level10) level10
              1%positive 10 10 3 7)
    as (lg' & g' & Hrun & Hg & _ & _ & _ & _ & _ & Htr & _).
  - simpl. lra.
  - reflexivity.
  - apply level10_for.
  - lia.
  - lia.
  - exists lg', g'. auto.
Defined.

(** A wall section of a cell of the level is inserted without error.  It
    stands half a corridor from the centre of the cell on the side asked
    for.  Its position is never beyond the upper end of the world; it is
    below zero exactly for a west wall of column 0 (X) and a north wall of
    row 0 (Z), and then the section is tracked in the first column or row:
    in all cases it is tracked in the cell of its position with negative
    coordinates raised to zero. *)
Theorem createWall_cell lg g wall (W H x z direction : Z) :
  0.002 <= corridorWidth lg → levelGrid lg = Some g →
  levelGridFor lg W H g → (0 ≤ x < W)%Z → (0 ≤ z < H)%Z →
  (0 ≤ direction ≤ 3)%Z →
  ∃ lg' g',
    createWall lg wall x z direction = Some lg' ∧
    levelGrid lg' = Some g' ∧ levelGridFor lg' W H g' ∧
    wallSections lg' = wallSections lg ++ [wall] ∧
    vx (wallPosition lg x z direction) =
      IZR x * corridorWidth lg +
      (if decide (direction = 1)%Z then corridorWidth lg / 2
       else if decide (direction = 3)%Z then - corridorWidth lg / 2 else 0) ∧
    vz (wallPosition lg x z direction) =
      IZR z * corridorWidth lg +
      (if decide (direction = 2)%Z then corridorWidth lg / 2
       else if decide (direction = 0)%Z then - corridorWidth lg / 2 else 0) ∧
    (vx (wallPosition lg x z direction) < 0 ↔ direction = 3%Z ∧ x = 0%Z) ∧
    (vz (wallPosition lg x z direction) < 0 ↔ direction = 0%Z ∧ z = 0%Z) ∧
    vx (wallPosition lg x z direction) <= worldSizeX g - 0.001 ∧
    vz (wallPosition lg x z direction) <= worldSizeZ g - 0.001 ∧
    objectCells g' !! wall =
      Some (getCellIndex g (Rmax 0 (vx (wallPosition lg x z direction)))
                           (Rmax 0 (vz (wallPosition lg x z direction)))).
Proof.
  intros Hcw Hg Hfor Hx Hz Hd.
  pose proof Hfor as (Hwf & Hcs & Hwx & Hwz).
  destruct (insertObject_effect g wall (wallPosition lg x z direction) Hwf)
    as (g' & Hins & Hwf' & Htr & _).
  assert (Hdims : cellSize g' = cellSize g ∧ worldSizeX g' = worldSizeX g ∧
                  worldSizeZ g' = worldSizeZ g).
  { unfold insertObject in Hins. destruct (cellAt _ _); [|discriminate].
    cbn [mbind option_bind] in Hins. by injection Hins as <-. }
  destruct Hdims as (E1 & E2 & E3).
  assert (Hx0 : 0 <= IZR x) by (apply IZR_le; lia).
  assert (Hz0 : 0 <= IZR z) by (apply IZR_le; lia).
  assert (Hx1 : IZR x + 1 <= IZR W)
    by (rewrite <- (plus_IZR x 1); apply IZR_le; lia).
  assert (Hz1 : IZR z + 1 <= IZR H)
    by (rewrite <- (plus_IZR z 1); apply IZR_le; lia).
  assert (Hxpos : x ≠ 0%Z → 1 <= IZR x) by (intros; apply IZR_le; lia).
  assert (Hzpos : z ≠ 0%Z → 1 <= IZR z) by (intros; apply IZR_le; lia).
  assert (Hpx : vx (wallPosition lg x z direction) =
      IZR x * corridorWidth lg +
      (if decide (direction = 1)%Z then corridorWidth lg / 2
       else if decide (direction = 3)%Z then - corridorWidth lg / 2 else 0)).
  { unfold wallPosition. repeat case_decide; cbn [vx]; try lia; lra. }
  assert (Hpz : vz (wallPosition lg x z direction) =
      IZR z * corridorWidth lg +
      (if decide (direction = 2)%Z then corridorWidth lg / 2
       else if decide (direction = 0)%Z then - corridorWidth lg / 2 else 0)).
  { unfold wallPosition. repeat case_decide; cbn [vz]; try lia; lra. }
  assert (Hneg : ∀ (k d1 d3 : Z), (0 ≤ k)%Z → d1 ≠ d3 →
    (IZR k * corridorWidth lg +
       (if decide (direction = d1)%Z then corridorWidth lg / 2
        else if decide (direction = d3)%Z then - corridorWidth lg / 2 else 0)
     < 0 ↔ direction = d3 ∧ k = 0%Z)).
  { intros k d1 d3 Hk Hne.
    assert (Hk0 : 0 <= IZR k) by (apply IZR_le; lia).
    destruct (decide (direction = d1)) as [Hd1 | Hd1];
      destruct (decide (direction = d3)) as [Hd3 | Hd3].
    - congruence.
    - split; [intros Hlt; exfalso; nra | intros [? _]; contradiction].
    - split.
      + intros Hlt. split; [assumption|].
        destruct (decide (k = 0%Z)) as [|Hk1]; [assumption|].
        assert (1 <= IZR k) by (apply IZR_le; lia). nra.
      + intros [_ ->]. lra.
    - split; [intros Hlt; exfalso; nra | intros [? _]; contradiction]. }
  assert (Hxneg : vx (wallPosition lg x z direction) < 0 ↔
                  direction = 3%Z ∧ x = 0%Z).
  { rewrite Hpx. apply Hneg; lia. }
  assert (Hzneg : vz (wallPosition lg x z direction) < 0 ↔
                  direction = 0%Z ∧ z = 0%Z).
  { rewrite Hpz. apply Hneg; lia. }
  assert (Hxup : vx (wallPosition lg x z direction) <= worldSizeX g - 0.001).
  { rewrite Hpx, Hwx. repeat case_decide; nra. }
  assert (Hzup : vz (wallPosition lg x z direction) <= worldSizeZ g - 0.001).
  { rewrite Hpz, Hwz. repeat case_decide; nra. }
  eexists _, g'. split.
  { unfold createWall. rewrite Hg, Hins. reflexivity. }
  cbn [levelGrid wallSections].
  split; [reflexivity|]. split.
  { split; [exact Hwf'|]. cbn [corridorWidth]. rewrite E1, E2, E3. auto. }
  split; [reflexivity|].
  repeat (split; [assumption|]).
  rewrite Htr. f_equal. rewrite !getCellIndex_saturate.
  f_equal; [|f_equal]; f_equal; f_equal; rminmax.
Qed.

Lemma createWall_cell_witness :
  ∃ lg' g',
    createWall (standardGenerator level10) 1%positive 0 4 3 = Some lg' ∧
    levelGrid lg' = Some g' ∧
    vx (wallPosition (standardGenerator level10) 0 4 3) < 0.
Proof.
  destruct (createWall_cell (standardGenerator level10) level10
              1%positive 10 10 0 4 3)
    as (lg' & g' & Hrun & Hg & _ & _ & _ & _ & Hneg & _).
  - simpl. lra.
  - reflexivity.
  - apply level10_for.
  - lia.
  - lia.
  - lia.
  - exists lg', g'. split; [exact Hrun|]. split; [exact Hg|].
    apply Hneg. split; reflexivity.
Defined.

(** * Properties of level generation *)

Lemma placeAll_app ps qs : ∀ gn,
  placeAll gn (ps ++ qs) = placeAll gn ps ≫= λ gn', placeAll gn' qs.
Proof.
  induction ps as [|p ps IH]; intros gn; [reflexivity|].
  cbn [placeAll app]. destruct (place gn p) as [gn'|]; [|reflexivity].
  cbn. apply IH.
Qed.

Lemma wallsAround_plan grid x z ds : ∀ i gn,
  wallsAround grid x z i ds gn = placeAll gn (sectionsPlan grid x z i ds).
Proof.
  induction ds as [|d ds IH]; intros i gn; [reflexivity|].
  cbn [wallsAround sectionsPlan]. rewrite placeAll_app.
  destruct (needsWall grid x z d); cbn [placeAll place].
  - destruct (createWallIn gn x z i) as [gn'|]; [|reflexivity]. cbn. apply IH.
  - cbn. apply IH.
Qed.

Lemma visitCell_plan grid x z cell gn :
  visitCell grid x z cell gn = placeAll gn (cellPlan grid x z cell).
Proof.
  unfold visitCell, cellPlan.
  destruct (String.eqb cell "-").
  { cbn [placeAll place]. by destruct (createWallBlockIn gn x z). }
  destruct (String.eqb cell "x"); [reflexivity|].
  destruct (isOpenCell cell); [|reflexivity].
  rewrite placeAll_app, wallsAround_plan.
  destruct (placeAll gn (sectionsPlan grid x z 0 directions)) as [gn'|];
    [|reflexivity].
  cbn. destruct (String.eqb cell "S"); [reflexivity|].
  destruct (String.eqb cell "E"); reflexivity.
Qed.

Lemma rowLoop_plan grid z row : ∀ x gn,
  rowLoop grid z x row gn = placeAll gn (rowPlan grid z x row).
Proof.
  induction row as [|cell row IH]; intros x gn; [reflexivity|].
  cbn [rowLoop]. unfold rowPlan. rewrite imap_cons. cbn [mjoin list_join].
  rewrite placeAll_app, visitCell_plan.
  replace (x + Z.of_nat 0)%Z with x by lia.
  destruct (placeAll gn (cellPlan grid x z cell)) as [gn'|]; [|reflexivity].
  cbn. rewrite IH. unfold rowPlan. f_equal. f_equal.
  apply imap_ext. intros j c _. cbn. f_equal. lia.
Qed.

Lemma gridLoop_plan grid rows : ∀ z gn,
  gridLoop grid z rows gn = placeAll gn (gridPlan grid z rows).
Proof.
  induction rows as [|row rows IH]; intros z gn; [reflexivity|].
  cbn [gridLoop]. unfold gridPlan. rewrite imap_cons. cbn [mjoin list_join].
  rewrite placeAll_app, rowLoop_plan.
  replace (z + Z.of_nat 0)%Z with z by lia.
  destruct (placeAll gn (rowPlan grid z 0 row)) as [gn'|]; [|reflexivity].
  cbn. rewrite IH. unfold gridPlan. f_equal. f_equal.
  apply imap_ext. intros j c _. cbn. f_equal. lia.
Qed.

(** ** The placements of a grid *)





(** ** One placement *)

Lemma insertObject_fresh g o p :
  wellFormed g → exclusive g → objectCells g !! o = None →
  ∃ g', insertObject g o p = Some g' ∧ wellFormed g' ∧ exclusive g' ∧
    cellSize g' = cellSize g ∧ worldSizeX g' = worldSizeX g ∧
    worldSizeZ g' = worldSizeZ g ∧
    (∀ x z, getCellIndex g' x z = getCellIndex g x z) ∧
    objectCells g' = <[o := getCellIndex g (vx p) (vz p)]> (objectCells g).
Proof.
  intros Hwf Hex Hnone.
  destruct (insertObject_Some g o p Hwf) as (cell & Hcell & Hins).
  eexists. split; [exact Hins|].
  destruct (insertObject_exclusive g o p _ Hwf Hex (or_introl Hnone) Hins)
    as [Hwf' Hex'].
  split_and!; done.
Qed.

Lemma GenInv_user lg W H lo gn a b :
  GenInv lg W H lo gn →
  GenInv lg W H lo
    (mkGeneration (generator gn) (nextObjectId gn) (levelChildren gn) a b).
Proof. intros [? ? ? ? ? ? ?]. by constructor. Qed.

Lemma GenInv_untracked lg W H lo gn g :
  GenInv lg W H lo gn → levelGrid (generator gn) = Some g →
  objectCells g !! nextObjectId gn = None.
Proof.
  intros [_ _ (g0 & Hg0 & _ & _ & _ & Hdom) _ Hids _ _] Hg.
  rewrite Hg in Hg0. injection Hg0 as <-.
  destruct (objectCells g !! nextObjectId gn) as [i|] eqn:Hi; [|reflexivity].
  exfalso.
  assert (Hin : nextObjectId gn ∈ objectId <$> levelChildren gn)
    by (apply Hdom; by eexists).
  apply list_elem_of_fmap in Hin as (o & Ho & Hin).
  destruct (Hids o Hin) as [_ Hlt]. rewrite <- Ho in Hlt. lia.
Qed.

Lemma addObject_GenInv lg W H lo gn g lg' g' isMeshFlag nm pos sz
    (wall : bool) :
  GenInv lg W H lo gn → levelGrid (generator gn) = Some g →
  corridorWidth lg' = corridorWidth lg → roomHeight lg' = roomHeight lg →
  levelGrid lg' = Some g' → levelGridFor lg W H g' → exclusive g' →
  (∀ x z, getCellIndex g' x z = getCellIndex g x z) →
  objectCells g' =
    (if wall
     then <[nextObjectId gn := getCellIndex g (vx pos) (vz pos)]> (objectCells g)
     else objectCells g) →
  isWallMesh (mkObject3D (nextObjectId gn) isMeshFlag nm pos sz []) = wall →
  GenInv lg W H lo (addObject gn lg' isMeshFlag nm pos sz).
Proof.
  intros Hinv Hg Hcw Hrh Hg' Hfor Hex Hidx Hcells Hwall.
  pose proof (GenInv_untracked _ _ _ _ _ _ Hinv Hg) as Hfresh.
  destruct Hinv as [_ _ (g0 & Hg0 & _ & _ & Htrack & Hdom) Hlo Hids Hnd Hleaf].
  rewrite Hg in Hg0. injection Hg0 as <-.
  assert (Hnew : ∀ o, o ∈ levelChildren gn → objectId o ≠ nextObjectId gn).
  { intros o Ho Heq. destruct (Hids o Ho) as [_ Hlt]. rewrite Heq in Hlt. lia. }
  constructor; cbn [generator nextObjectId levelChildren addObject].
  - exact Hcw.
  - exact Hrh.
  - exists g'. split; [exact Hg'|]. split; [exact Hfor|].
    split; [exact Hex|]. split.
    + intros o [Ho | ->%list_elem_of_singleton]%elem_of_app.
      * rewrite Hcells, Hidx, <- (Htrack o Ho).
        destruct wall; [|reflexivity].
        apply lookup_insert_ne. intros Heq. by apply (Hnew o Ho).
      * rewrite Hwall, Hcells. cbn [objectId objectPosition].
        destruct wall; [|exact Hfresh].
        rewrite Hidx. apply lookup_insert_eq.
    + intros id Hid. rewrite fmap_app, elem_of_app. rewrite Hcells in Hid.
      destruct wall.
      * destruct (decide (id = nextObjectId gn)) as [->|Hne].
        { right. cbn. apply list_elem_of_singleton. reflexivity. }
        left. apply Hdom. by rewrite lookup_insert_ne in Hid.
      * left. by apply Hdom.
  - lia.
  - intros o [Ho | ->%list_elem_of_singleton]%elem_of_app.
    + destruct (Hids o Ho). split; [done | lia].
    + cbn [objectId]. split; [done | lia].
  - rewrite fmap_app. apply NoDup_app. split; [exact Hnd|]. split.
    + intros id Hin ->%list_elem_of_singleton.
      apply list_elem_of_fmap in Hin as (o & Ho & Hin). by apply (Hnew o Hin).
    + apply NoDup_singleton.
  - intros o [Ho | ->%list_elem_of_singleton]%elem_of_app.
    + by apply Hleaf.
    + reflexivity.
Qed.

Lemma levelGridFor_sizes lg W H g g' :
  levelGridFor lg W H g → wellFormed g' → cellSize g' = cellSize g →
  worldSizeX g' = worldSizeX g → worldSizeZ g' = worldSizeZ g →
  levelGridFor lg W H g'.
Proof.
  intros (_ & Hcs & Hwx & Hwz) Hwf Hcs' Hwx' Hwz'.
  split; [exact Hwf|]. by rewrite Hcs', Hwx', Hwz'.
Qed.

Lemma wallBlockPosition_dims lg lg' x z :
  corridorWidth lg' = corridorWidth lg → roomHeight lg' = roomHeight lg →
  wallBlockPosition lg' x z = wallBlockPosition lg x z.
Proof. intros Hcw Hrh. unfold wallBlockPosition. by rewrite Hcw, Hrh. Qed.

Lemma wallPosition_dims lg lg' x z direction :
  corridorWidth lg' = corridorWidth lg → roomHeight lg' = roomHeight lg →
  wallPosition lg' x z direction = wallPosition lg x z direction.
Proof. intros Hcw Hrh. unfold wallPosition. by rewrite Hcw, Hrh. Qed.

Lemma place_spec lg W H lo gn p :
  GenInv lg W H lo gn →
  ∃ gn', place gn p = Some gn' ∧ GenInv lg W H lo gn' ∧
    nextObjectId gn' = Pos.succ (nextObjectId gn) ∧
    levelChildren gn' =
      levelChildren gn ++ [placedObject lg (nextObjectId gn) p] ∧
    userStartPosition gn' =
      match p with
      | PlaceStart x z =>
          Some (mkVector3 (IZR x * corridorWidth lg) 1.8
                          (IZR z * corridorWidth lg))
      | _ => userStartPosition gn
      end.
Proof.
  intros Hinv.
  pose proof (gi_cw _ _ _ _ _ Hinv) as Hcw.
  pose proof (gi_rh _ _ _ _ _ Hinv) as Hrh.
  destruct (gi_grid _ _ _ _ _ Hinv) as (g & Hg & Hfor & Hex & _).
  pose proof (GenInv_untracked _ _ _ _ _ _ Hinv Hg) as Hfresh.
  destruct p as [x z | x z direction | x z | x z]; cbn [place placedObject].
  - destruct (insertObject_fresh g (nextObjectId gn)
                (wallBlockPosition (generator gn) x z) (proj1 Hfor) Hex Hfresh)
      as (g' & Hins & Hwf' & Hex' & Hcs & Hwx & Hwz & Hidx & Hcells).
    unfold createWallBlockIn, createWallBlock. rewrite Hg. cbn. rewrite Hins.
    cbn. eexists. split; [reflexivity|].
    rewrite (wallBlockPosition_dims lg (generator gn)) in * by assumption.
    split; [|by split_and!].
    eapply (addObject_GenInv _ _ _ _ _ g _ g' _ _ _ _ true); try done.
    by eapply levelGridFor_sizes.
  - destruct (insertObject_fresh g (nextObjectId gn)
                (wallPosition (generator gn) x z direction)
                (proj1 Hfor) Hex Hfresh)
      as (g' & Hins & Hwf' & Hex' & Hcs & Hwx & Hwz & Hidx & Hcells).
    unfold createWallIn, createWall. rewrite Hg. cbn. rewrite Hins.
    cbn. eexists. split; [reflexivity|].
    rewrite (wallPosition_dims lg (generator gn)) in * by assumption.
    split; [|by split_and!].
    eapply (addObject_GenInv _ _ _ _ _ g _ g' _ _ _ _ true); try done.
    by eapply levelGridFor_sizes.
  - eexists. split; [reflexivity|]. unfold addStartPosition.
    cbn [generator nextObjectId levelChildren userStartPosition addObject].
    rewrite Hcw. split; [|by split_and!].
    apply (GenInv_user _ _ _ _
             (addObject gn (generator gn) true EmptyString _ _)).
    by eapply (addObject_GenInv _ _ _ _ _ g _ g _ _ _ _ false).
  - eexists. split; [reflexivity|]. unfold addGoalPosition.
    cbn [generator nextObjectId levelChildren userStartPosition addObject].
    rewrite Hcw. split; [|by split_and!].
    apply (GenInv_user _ _ _ _
             (addObject gn (generator gn) true EmptyString _ _)).
    by eapply (addObject_GenInv _ _ _ _ _ g _ g _ _ _ _ false).
Qed.

(** ** All the placements *)



Lemma placeAll_spec lg W H lo ps : ∀ gn,
  GenInv lg W H lo gn →
  ∃ gn', placeAll gn ps = Some gn' ∧ GenInv lg W H lo gn' ∧
    levelChildren gn' =
      levelChildren gn ++ placedObjects lg (nextObjectId gn) ps ∧
    (∀ v, userStartPosition gn' = Some v →
       userStartPosition gn = Some v ∨
       ∃ x z, PlaceStart x z ∈ ps ∧
         v = mkVector3 (IZR x * corridorWidth lg) 1.8
                       (IZR z * corridorWidth lg)) ∧
    (is_Some (userStartPosition gn) ∨ (∃ x z, PlaceStart x z ∈ ps) →
     is_Some (userStartPosition gn')).
Proof.
  induction ps as [|p ps IH]; intros gn Hinv; cbn [placeAll placedObjects].
  { exists gn. split; [reflexivity|]. split; [exact Hinv|].
    split; [by rewrite app_nil_r|]. split; [by left|].
    intros [? | (x & z & ?%elem_of_nil)]; done. }
  destruct (place_spec lg W H lo gn p Hinv)
    as (gn1 & Hplace & Hinv1 & Hnext & Hch & Hstart).
  destruct (IH gn1 Hinv1) as (gn' & Hall & Hinv' & Hch' & Hsome & Hany).
  rewrite Hplace. cbn. exists gn'. split; [exact Hall|].
  split; [exact Hinv'|]. split.
  { rewrite Hch', Hch, Hnext, <- app_assoc. reflexivity. }
  split.
  - intros v Hv. destruct (Hsome v Hv) as [Hv1 | (x & z & Hin & ->)].
    + rewrite Hstart in Hv1. destruct p as [| |x z|]; try by left.
      right. exists x, z. split; [by left|]. by injection Hv1.
    + right. exists x, z. split; [by right | reflexivity].
  - intros Hcase. apply Hany. rewrite Hstart.
    destruct Hcase as [Hs | (x & z & [<- | Hin]%elem_of_cons)].
    + left. by destruct p.
    + by left.
    + right. by exists x, z.
Qed.

(** ** The whole level *)

Lemma newLevelGrid_ok lg W H :
  0 < corridorWidth lg → (1 ≤ W)%Z → (1 ≤ H)%Z →
  ((W + 1) / 2 * ((H + 1) / 2) ≤ 4294967295)%Z →
  ∃ g, newLevelGrid lg W H = Some g ∧ levelGridFor lg W H g ∧
       exclusive g ∧ objectCells g = ∅.
Proof.
  intros Hcw HW HH Hmax. apply IZR_le in HW, HH.
  assert (Hwx : 0 < IZR W * corridorWidth lg) by nra.
  assert (Hwz : 0 < IZR H * corridorWidth lg) by nra.
  assert (Hcs : 0 < corridorWidth lg * 2) by lra.
  destruct (SpatialHashGrid_new_Some _ _ _ Hcs Hwx Hwz) as [g Hg];
    [by rewrite !levelCells_ceil|].
  destruct (SpatialHashGrid_new_wellFormed _ _ _ _ Hcs Hwx Hwz Hg)
    as (Hwf & Hmap & Hempty).
  exists g. split; [exact Hg|]. split.
  { split; [exact Hwf|]. unfold SpatialHashGrid_new in Hg.
    destruct (Reqb _ 0); [discriminate|]. case_decide; [|discriminate].
    by injection Hg as <-. }
  split; [|exact Hmap]. exact (new_exclusive _ _ _ _ Hcs Hwx Hwz Hg).
Qed.

Lemma GenInv_start lg W H lo g :
  levelGridFor lg W H g → exclusive g → objectCells g = ∅ →
  GenInv lg W H lo
    (mkGeneration (withLevelGrid lg g) (Pos.succ lo) [] None None).
Proof.
  intros Hfor Hex Hempty.
  constructor; cbn [generator nextObjectId levelChildren withLevelGrid
                    corridorWidth roomHeight levelGrid]; try done.
  - exists g. split; [reflexivity|]. split; [exact Hfor|].
    split; [exact Hex|]. split; [by intros o ?%elem_of_nil|].
    intros id [i Hi]. by rewrite Hempty in Hi.
  - lia.
  - by intros o ?%elem_of_nil.
  - constructor.
  - by intros o ?%elem_of_nil.
Qed.

Lemma addObject_plain lg W H lo gn isMeshFlag nm pos sz :
  GenInv lg W H lo gn →
  isWallMesh (mkObject3D (nextObjectId gn) isMeshFlag nm pos sz []) = false →
  GenInv lg W H lo (addObject gn (generator gn) isMeshFlag nm pos sz).
Proof.
  intros Hinv Hname.
  destruct (gi_grid _ _ _ _ _ Hinv) as (g & Hg & Hfor & Hex & _).
  eapply (addObject_GenInv _ _ _ _ _ g _ g _ _ _ _ false); try done.
  - by apply (gi_cw _ _ _ _ _ Hinv).
  - by apply (gi_rh _ _ _ _ _ Hinv).
Qed.

Lemma generateLevel_spec lg nextId rows firstRow :
  0 < corridorWidth lg →
  parseGridFormat rows !! 0%nat = Some firstRow →
  (1 ≤ length firstRow)%nat →
  ((Z.of_nat (length firstRow) + 1) / 2 *
   ((Z.of_nat (length (parseGridFormat rows)) + 1) / 2) ≤ 4294967295)%Z →
  ∃ gn fixed,
    generateLevel lg nextId (GridStrings rows) =
      Some (mkObject3D nextId false "Level" (mkVector3 0 0 0)
              (mkVector3 0 0 0) (levelChildren gn), gn) ∧
    GenInv lg (Z.of_nat (length firstRow))
           (Z.of_nat (length (parseGridFormat rows))) nextId gn ∧
    levelChildren gn =
      fixed ++
      placedObjects lg (Pos.succ (Pos.succ (Pos.succ (Pos.succ nextId))))
        (gridPlan (parseGridFormat rows) 0 (parseGridFormat rows)) ∧
    (∀ o, o ∈ fixed → isWallMesh o = false ∧ isWallObject o = false) ∧
    (∀ v, userStartPosition gn = Some v →
       ∃ x z,
         PlaceStart x z ∈
           gridPlan (parseGridFormat rows) 0 (parseGridFormat rows) ∧
         v = mkVector3 (IZR x * corridorWidth lg) 1.8
                       (IZR z * corridorWidth lg)) ∧
    ((∃ x z, PlaceStart x z ∈
               gridPlan (parseGridFormat rows) 0 (parseGridFormat rows)) →
     is_Some (userStartPosition gn)).
Proof.
  intros Hcw Hfirst Hlen Hmax. set (grid := parseGridFormat rows) in *.
  assert (HH : (1 ≤ length grid)%nat).
  { apply lookup_lt_Some in Hfirst. lia. }
  destruct (newLevelGrid_ok lg (Z.of_nat (length firstRow))
              (Z.of_nat (length grid)) Hcw) as (g0 & Hnew & Hfor & Hex & He);
    [lia | lia | exact Hmax |].
  pose proof (GenInv_start lg _ _ nextId g0 Hfor Hex He) as Hinv0.
  set (gn0 := mkGeneration _ _ _ _ _) in Hinv0.
  pose proof (addObject_plain _ _ _ _ gn0 false EmptyString
                (mkVector3 0 0 0) (mkVector3 0 0 0) Hinv0 eq_refl) as Hinv1.
  set (gn1 := addObject gn0 _ _ _ _ _) in Hinv1.
  set (cw := corridorWidth (generator gn1)).
  set (gw := IZR (Z.of_nat (length firstRow))).
  set (gh := IZR (Z.of_nat (length grid))).
  pose proof (addObject_plain _ _ _ _ gn1 true "floor"
                (mkVector3 (gw * cw / 2 - cw / 2) 0 (gh * cw / 2 - cw / 2))
                (mkVector3 (gw * cw) 0 (gh * cw)) Hinv1 eq_refl) as Hinv2.
  set (gn2 := addObject gn1 _ _ _ _ _) in Hinv2.
  pose proof (addObject_plain _ _ _ _ gn2 true "ceiling"
                (mkVector3 (gw * cw / 2 - cw / 2) (roomHeight (generator gn1))
                           (gh * cw / 2 - cw / 2))
                (mkVector3 (gw * cw) 0 (gh * cw)) Hinv2 eq_refl) as Hinv3.
  set (gn3 := addObject gn2 _ _ _ _ _) in Hinv3.
  destruct (placeAll_spec lg _ _ nextId (gridPlan grid 0 grid) gn3 Hinv3)
    as (gn & Hall & Hinv & Hch & Hstart & Hany).
  exists gn, (levelChildren gn3). split.
  { unfold generateLevel. cbn [gridOfData]. fold grid. rewrite Hfirst.
    cbn [mbind option_bind]. rewrite Hnew. cbn [mbind option_bind].
    fold gn0. fold gn1. unfold generateGrid. cbn [parseGridData].
    fold grid. cbn [mbind option_bind]. rewrite Hfirst.
    cbn [mbind option_bind]. fold cw gw gh. fold gn2. fold gn3.
    rewrite gridLoop_plan, Hall. reflexivity. }
  split; [exact Hinv|]. split; [exact Hch|]. split.
  { intros o Ho. cbn in Ho.
    repeat (apply elem_of_cons in Ho as [-> | Ho]); [done..|].
    by apply elem_of_nil in Ho. }
  split.
  - intros v Hv. destruct (Hstart v Hv) as [Hv0 | Hx]; [done | exact Hx].
  - intros Hx. apply Hany. by right.
Qed.







(** ** The grid of a generated level *)

Lemma traverse_leaves i m n p b cs :
  (∀ o, o ∈ cs → traverse o = [o]) →
  traverse (mkObject3D i m n p b cs) = mkObject3D i m n p b cs :: cs.
Proof.
  intros Hleaf. cbn [traverse]. f_equal.
  induction cs as [|c cs IH]; [reflexivity|].
  rewrite (Hleaf c) by (by left). cbn [app]. f_equal.
  apply IH. intros o Ho. apply Hleaf. by right.
Qed.

Lemma query_tracked g p r id :
  exclusive g → id ∈ findNearbyObjects g p r →
  is_Some (objectCells g !! id).
Proof.
  intros Hex Hin.
  apply (query_members g p r id) in Hin as (x & z & cell & _ & _ & Hcell & Hid).
  apply cellAt_lookup in Hcell as [_ Hcell].
  rewrite (ex_member g Hex _ _ _ Hcell Hid). by eexists.
Qed.

(** When [generateLevel] returns, as it does for a grid of at most
    2^32 - 1 cells, the grid of the generator has the sizes of the level
    and tracks the walls and nothing else: every wall block
    and wall section of the group is in exactly one cell, the cell of its
    position, and no other object of the group, the floor, the ceiling,
    the light and the markers, is tracked or reported by a query.  The
    objects of the group are distinct. *)
Theorem generateLevel_grid lg nextId rows firstRow :
  0 < corridorWidth lg →
  parseGridFormat rows !! 0%nat = Some firstRow →
  (1 ≤ length firstRow)%nat →
  ((Z.of_nat (length firstRow) + 1) / 2 *
   ((Z.of_nat (length (parseGridFormat rows)) + 1) / 2) ≤ 4294967295)%Z →
  ∃ level gn g,
    generateLevel lg nextId (GridStrings rows) = Some (level, gn) ∧
    traverse level = level :: levelChildren gn ∧
    NoDup (objectId <$> traverse level) ∧
    levelGrid (generator gn) = Some g ∧
    levelGridFor lg (Z.of_nat (length firstRow))
                 (Z.of_nat (length (parseGridFormat rows))) g ∧
    exclusive g ∧
    (∀ o, o ∈ levelChildren gn → isWallMesh o = true →
       objectCells g !! objectId o =
         Some (getCellIndex g (vx (objectPosition o))
                              (vz (objectPosition o))) ∧
       (∃ cell,
          cellAt (cells g) (getCellIndex g (vx (objectPosition o))
                                           (vz (objectPosition o)))
            = Some cell ∧ objectId o ∈ cell) ∧
       (∀ (j : nat) cell, cells g !! j = Some cell → objectId o ∈ cell →
          Z.of_nat j = getCellIndex g (vx (objectPosition o))
                                      (vz (objectPosition o)))) ∧
    (∀ o, o ∈ levelChildren gn → isWallMesh o = false →
       objectCells g !! objectId o = None ∧
       ∀ p r, objectId o ∉ findNearbyObjects g p r) ∧
    (∀ p r id, id ∈ findNearbyObjects g p r →
       ∃ o, o ∈ levelChildren gn ∧ objectId o = id ∧ isWallMesh o = true).
Proof.
  intros Hcw Hfirst Hlen Hmax.
  destruct (generateLevel_spec lg nextId rows firstRow Hcw Hfirst Hlen Hmax)
    as (gn & fixed & Hgen & Hinv & Hch & Hfixed & _ & _).
  destruct (gi_grid _ _ _ _ _ Hinv) as (g & Hg & Hfor & Hex & Htrack & Hdom).
  pose proof (traverse_leaves nextId false "Level" (mkVector3 0 0 0)
                (mkVector3 0 0 0) _ (gi_leaf _ _ _ _ _ Hinv)) as Htr.
  eexists _, gn, g. split; [exact Hgen|]. split; [exact Htr|].
  split_and!; try done.
  - rewrite Htr. cbn [fmap list_fmap objectId]. apply NoDup_cons. split.
    + intros (o & Ho & Hin)%list_elem_of_fmap.
      destruct (gi_ids _ _ _ _ _ Hinv o Hin) as [Hlt _]. rewrite <- Ho in Hlt.
      lia.
    + apply (gi_nodup _ _ _ _ _ Hinv).
  - intros o Ho Hwall. pose proof (Htrack o Ho) as Ht. rewrite Hwall in Ht.
    split; [exact Ht|]. split; [by apply (ex_tracked g Hex)|].
    intros j cell Hcell Hin.
    pose proof (ex_member g Hex _ _ _ Hcell Hin) as Hj. congruence.
  - intros o Ho Hwall. pose proof (Htrack o Ho) as Ht. rewrite Hwall in Ht.
    split; [exact Ht|]. intros p r Hin.
    destruct (query_tracked g p r _ Hex Hin) as [i Hi]. congruence.
  - intros p r id Hin. pose proof (query_tracked g p r _ Hex Hin) as Hsome.
    apply Hdom in Hsome as Hid.
    apply list_elem_of_fmap in Hid as (o & -> & Ho).
    exists o. split; [exact Ho|]. split; [reflexivity|].
    pose proof (Htrack o Ho) as Ht. destruct (isWallMesh o); [reflexivity|].
    destruct Hsome as [i Hi]. congruence.
Qed.

(** ** Loading a level *)








Lemma generateLevel_grid_witness :
  ∃ level gn g,
    generateLevel LevelGenerator_new 1 (GridStrings sampleRows) =
      Some (level, gn) ∧
    levelGrid (generator gn) = Some g ∧ exclusive g.
Proof.
  destruct (generateLevel_grid LevelGenerator_new 1 sampleRows
              ["-"; "-"; "-"; "-"; "-"])
    as (level & gn & g & Hgen & _ & _ & Hg & _ & Hex & _).
  - cbn. lra.
  - reflexivity.
  - cbn. lia.
  - by vm_compute.
  - by exists level, gn, g.
Defined.

